(** * Layers.py: a shallow embedding of the layer-computation engine

  The development follows [NN/Basic/Layers.py]: the shape validation of
  [ConvLayer] / [ConvPoolLayer], the parent/child chain of [Layer] and
  [SubLayer] with its back-propagation dispatch, the two execution paths
  of [MaxPool], the running statistics of [Normalize] and the loss
  gradients of [CostLayer].

  Python exceptions are values of [exn]; a computation that may raise
  returns a [result]. Python [int]s are [Z]. NumPy's floating-point
  scalars are idealised by an abstract scalar structure ([Scalar]),
  instantiated with the canonical rationals [Qc] for evaluation and, where
  a square root is taken, with the real numbers. *)

From stdpp Require Import gmap strings list.
From Stdlib Require Import ZArith QArith Qcanon Lia.
From Stdlib Require Reals.

Local Open Scope Z_scope.

(** ** Exceptions *)

Inductive exn : Type :=
| BuildLayerError
| LayerError
| ZeroDivisionError
| AttributeError
| IndexError
| ValueError
| KeyError
| NotImplementedError
| TypeError
| AxisError.

Inductive result (A : Type) : Type :=
| Ok (a : A)
| Raise (e : exn).

Arguments Ok {A} a.
Arguments Raise {A} e.

Definition rbind {A B : Type} (r : result A) (k : A -> result B) : result B :=
match r with
| Ok a => k a
| Raise e => Raise e
end.

Notation "'let!' x ':=' r 'in' k" := (rbind r (fun x => k))
(at level 10, x name, r at level 100, k at level 200).

(** ** Python integer arithmetic used by the shape validation *)

Module PyInt.

(** [a % b] on Python ints: the remainder has the sign of the divisor,
    as [Z.modulo]; a zero divisor raises. *)
Definition py_mod (a b : Z) : result Z :=
  if b =? 0 then Raise ZeroDivisionError else Ok (a mod b).

(** [int(a / b)] on Python ints: true division followed by truncation
    toward zero, [Z.quot]. The float quotient is exact enough for the
    truncation as long as the operands stay below 2^53 in magnitude,
    which is the range of the model. *)
Definition py_int_truediv (a b : Z) : result Z :=
  if b =? 0 then Raise ZeroDivisionError else Ok (a ÷ b).

End PyInt.

(** ** ConvLayer and ConvPoolLayer: shape, stride and padding *)

Module ConvShape.
Import PyInt.

(** [shape[0]] is [(channels, height, width)]. *)
Definition chw : Type := (Z * Z * Z)%type.

(** The [shape] argument of [ConvLayer]: a 1-tuple (the layer is sized
    later through [feed_shape]) or the pair of the previous layer's
    shape and the filter shape [(n_filters, filter_height, filter_width)]. *)
Inductive conv_shape : Type :=
| ConvShape1 (prev : chw)
| ConvShape2 (prev : chw) (filt : Z * Z * Z).

(** The [shape] argument of [ConvPoolLayer]: the second component is the
    pool window [(pool_height, pool_width)]. *)
Inductive pool_shape : Type :=
| PoolShape1 (prev : chw)
| PoolShape2 (prev : chw) (window : Z * Z).

Record ConvLayer : Type := mkConvLayer {
  conv_shape_of : conv_shape;
  conv_stride : Z;
  conv_padding : Z;
  conv_n_channels : option Z;
  conv_n_filters : option Z;
  conv_out_h : option Z;
  conv_out_w : option Z
}.

Record ConvPoolLayer : Type := mkConvPoolLayer {
  pool_shape_of : pool_shape;
  pool_stride : Z;
  pool_padding : Z;
  pool_n_channels : option Z;
  pool_n_filters : option Z;
  pool_out_h : option Z;
  pool_out_w : option Z
}.

(** [ConvLayer.feed_shape], on a two-component shape with the layer's
    [_stride] and [_padding]. The result is the tuple of the attributes
    the method assigns: [(n_channels, n_filters, out_h, out_w)]. The
    source binds [full_height] to [width + 2 * padding] and
    [full_width] to [height + 2 * padding]. *)
Definition ConvLayer_feed_shape (stride padding : Z) (prev : chw) (filt : Z * Z * Z)
  : result (Z * Z * Z * Z) :=
  let '(n_channels, height, width) := prev in
  let '(n_filters, filter_height, filter_width) := filt in
  let full_height := width + 2 * padding in
  let full_width := height + 2 * padding in
  let! r1 := py_mod (full_height - filter_height) stride in
  let! bad :=
    (if negb (r1 =? 0) then Ok true
     else let! r2 := py_mod (full_width - filter_width) stride in
          Ok (negb (r2 =? 0))) in
  if (bad : bool) then Raise BuildLayerError
  else
    let! qh := py_int_truediv (height + 2 * padding - filter_height) stride in
    let out_h := qh + 1 in
    let! qw := py_int_truediv (width + 2 * padding - filter_width) stride in
    let out_w := qw + 1 in
    Ok (n_channels, n_filters, out_h, out_w).

(** [ConvLayer.__init__(shape, stride, padding)]. *)
Definition ConvLayer_init (shape : conv_shape) (stride padding : Z) : result ConvLayer :=
  match shape with
  | ConvShape1 _ => Ok (mkConvLayer shape stride padding None None None None)
  | ConvShape2 prev filt =>
      let! attrs := ConvLayer_feed_shape stride padding prev filt in
      let '(c, f, oh, ow) := attrs in
      Ok (mkConvLayer shape stride padding (Some c) (Some f) (Some oh) (Some ow))
  end.

(** [ConvPoolLayer.feed_shape]: the compatibility test is the one of
    [ConvLayer.feed_shape] (padding included), the output size leaves
    the padding out; [n_filters] is [n_channels]. *)
Definition ConvPoolLayer_feed_shape (stride padding : Z) (prev : chw) (window : Z * Z)
  : result (Z * Z * Z * Z) :=
  let '(n_channels, height, width) := prev in
  let '(pool_height, pool_width) := window in
  let n_filters := n_channels in
  let full_height := width + 2 * padding in
  let full_width := height + 2 * padding in
  let! r1 := py_mod (full_height - pool_height) stride in
  let! bad :=
    (if negb (r1 =? 0) then Ok true
     else let! r2 := py_mod (full_width - pool_width) stride in
          Ok (negb (r2 =? 0))) in
  if (bad : bool) then Raise BuildLayerError
  else
    let! qh := py_int_truediv (height - pool_height) stride in
    let out_h := qh + 1 in
    let! qw := py_int_truediv (width - pool_width) stride in
    let out_w := qw + 1 in
    Ok (n_channels, n_filters, out_h, out_w).

(** [ConvPoolLayer.__init__(shape, stride, padding)]. *)
Definition ConvPoolLayer_init (shape : pool_shape) (stride padding : Z)
  : result ConvPoolLayer :=
  match shape with
  | PoolShape1 _ => Ok (mkConvPoolLayer shape stride padding None None None None)
  | PoolShape2 prev window =>
      let! attrs := ConvPoolLayer_feed_shape stride padding prev window in
      let '(c, f, oh, ow) := attrs in
      Ok (mkConvPoolLayer shape stride padding (Some c) (Some f) (Some oh) (Some ow))
  end.

End ConvShape.

(** ** Scalars

    The operations NumPy applies to array elements. [s_of_nat] is the
    conversion of an integer count, [s_ltb] and [s_eqb] are [<] and [==]. *)

Class Scalar (R : Type) : Type := {
  s_zero : R;
  s_one : R;
  s_add : R -> R -> R;
  s_sub : R -> R -> R;
  s_mul : R -> R -> R;
  s_div : R -> R -> R;
  s_opp : R -> R;
  s_eqb : R -> R -> bool;
  s_ltb : R -> R -> bool;
  s_of_nat : nat -> R
}.

(** The laws of an exact ordered field that the proofs use. *)
Class ScalarLaws (R : Type) `{Scalar R} : Prop := {
  s_eqb_eq : forall a b : R, s_eqb a b = true <-> a = b;
  s_ltb_irrefl : forall a : R, s_ltb a a = false;
  s_ltb_trans : forall a b c : R, s_ltb a b = true -> s_ltb b c = true -> s_ltb a c = true;
  s_ltb_total : forall a b : R, s_ltb a b = false -> s_ltb b a = false -> a = b;
  s_add_0_l : forall a : R, s_add s_zero a = a;
  s_add_0_r : forall a : R, s_add a s_zero = a;
  s_mul_1_l : forall a : R, s_mul s_one a = a;
  s_mul_0_l : forall a : R, s_mul s_zero a = s_zero;
  s_div_1_r : forall a : R, s_div a (s_of_nat 1) = a;
  s_div_0_l : forall n : nat, s_div s_zero (s_of_nat n) = s_zero
}.

(** A Python [bool] used as a number. *)
Definition s_of_bool {R : Type} `{Scalar R} (b : bool) : R :=
  if b then s_one else s_zero.

(** [np.maximum] on two elements. *)
Definition s_max {R : Type} `{Scalar R} (a b : R) : R :=
  if s_ltb a b then b else a.

(** ** Loops and traversals that may raise *)

Fixpoint mapM {A B : Type} (f : A -> result B) (l : list A) : result (list B) :=
  match l with
  | [] => Ok []
  | a :: l' => let! b := f a in let! bs := mapM f l' in Ok (b :: bs)
  end.

Definition imapM {A B : Type} (f : nat -> A -> result B) (l : list A) : result (list B) :=
  mapM (fun ia => f (fst ia) (snd ia)) (zip (seq 0 (length l)) l).

(** [for i in idx: s = body(i, s)]. *)
Fixpoint for_each {S I : Type} (idx : list I) (body : I -> S -> result S) (s : S)
  : result S :=
  match idx with
  | [] => Ok s
  | i :: rest => let! s' := body i s in for_each rest body s'
  end.

(** [for i in range(n)]. *)
Definition for_range {S : Type} (n : nat) (body : nat -> S -> result S) (s : S)
  : result S :=
  for_each (seq 0 n) body s.

(** ** Nested arrays *)

Module NdArray.

(** Arrays of two, four and six axes (the six axes are those of
    [x.reshape(n, c, H/ph, ph, W/pw, pw)]). *)
Abbreviation matrix R := (list (list R)) (only parsing).
Abbreviation tensor4 R := (list (list (list (list R)))) (only parsing).
Abbreviation tensor6 R := (list (list (list (list (list (list R)))))) (only parsing).

Section WithScalar.
Context {R : Type} `{Scalar R}.

(** [x.shape] of a four-axis array, read off the nesting (an axis under
    an empty axis reads as 0). *)
Definition shape4 (x : tensor4 R) : nat * nat * nat * nat :=
  let x0 := default [] (head x) in
  let x00 := default [] (head x0) in
  let x000 := default [] (head x00) in
  (length x, length x0, length x00, length x000).

(** [l[a:b]] for [0 <= a]: the bounds are clipped to the list. *)
Definition slice {A : Type} (a b : nat) (l : list A) : list A :=
  take (b - a) (drop a l).

(** [l.reshape(cnt, k)]: [cnt] consecutive groups of [k] elements. *)
Fixpoint chunks {A : Type} (cnt k : nat) (l : list A) : list (list A) :=
  match cnt with
  | O => []
  | S cnt' => take k l :: chunks cnt' k (drop k l)
  end.

(** [x[i]] with an integer index. *)
Definition index {A : Type} (l : list A) (i : nat) : result A :=
  match l !! i with
  | Some a => Ok a
  | None => Raise IndexError
  end.

(** Reading position [i] of an axis that is broadcast against an axis of
    length [n]: the axis has length [n], or length 1 and is repeated. *)
Definition bindex {A : Type} (n : nat) (l : list A) (i : nat) : result A :=
  if (length l =? n)%nat then
    match l !! i with Some a => Ok a | None => Raise ValueError end
  else if (length l =? 1)%nat then
    match l !! 0%nat with Some a => Ok a | None => Raise ValueError end
  else Raise ValueError.

(** [np.max] of a flat sequence; an empty one raises. *)
Definition amax (l : list R) : result R :=
  match l with
  | [] => Raise ValueError
  | a :: l' => Ok (foldl s_max a l')
  end.

(** [np.max(window)] of a two-axis window. *)
Definition amax2 (w : matrix R) : result R := amax (concat w).

(** [t.max(axis=0)] of a three-axis array: the element-wise maximum of
    its two-axis slices. *)
Definition amax_axis0 (t : list (matrix R)) : result (matrix R) :=
  match t with
  | [] => Raise ValueError
  | m :: t' => Ok (foldl (zip_with (zip_with s_max)) m t')
  end.

(** [np.zeros_like]. *)
Definition zeros_like4 (x : tensor4 R) : tensor4 R :=
  map (map (map (map (fun _ => s_zero)))) x.

(** [np.zeros((n, c, h, w))]. *)
Definition zeros4 (n c h w : nat) : tensor4 R :=
  replicate n (replicate c (replicate h (replicate w s_zero))).

(** [np.sum] of a list of scalars. *)
Definition asum (l : list R) : R := foldl s_add s_zero l.

(** The elements of an array in row-major (C) order, axis by axis. *)
Definition flatten2 (m : matrix R) : list R := concat m.
Definition flatten3 (t : list (matrix R)) : list R := concat (map flatten2 t).
Definition flatten4 (x : tensor4 R) : list R := concat (map flatten3 x).
Definition flatten5 (x : list (tensor4 R)) : list R := concat (map flatten4 x).
Definition flatten6 (x : tensor6 R) : list R := concat (map flatten5 x).

(** The array of a given shape over row-major elements, axis by axis. *)
Definition unflatten2 (h w : nat) (flat : list R) : matrix R := chunks h w flat.
Definition unflatten3 (c h w : nat) (flat : list R) : list (matrix R) :=
  map (unflatten2 h w) (chunks c (h * w) flat).
Definition unflatten4 (n c h w : nat) (flat : list R) : tensor4 R :=
  map (unflatten3 c h w) (chunks n (c * (h * w)) flat).
Definition unflatten5 (m n c h w : nat) (flat : list R) : list (tensor4 R) :=
  map (unflatten4 n c h w) (chunks m (n * (c * (h * w))) flat).
Definition unflatten6 (k m n c h w : nat) (flat : list R) : tensor6 R :=
  map (unflatten5 m n c h w) (chunks k (m * (n * (c * (h * w)))) flat).

(** [a.reshape(n, c, h, w)] of the row-major elements [flat]; the sizes
    must agree. *)
Definition reshape4 (shape : nat * nat * nat * nat) (flat : list R) : result (tensor4 R) :=
  let '(n, c, h, w) := shape in
  if (length flat =? n * (c * (h * w)))%nat then Ok (unflatten4 n c h w flat)
  else Raise ValueError.

(** [a.reshape(n, c, a1, b1, a2, b2)] of the row-major elements [flat]. *)
Definition reshape6 (n c a1 b1 a2 b2 : nat) (flat : list R) : result (tensor6 R) :=
  if (length flat =? n * (c * (a1 * (b1 * (a2 * b2)))))%nat
  then Ok (unflatten6 n c a1 b1 a2 b2 flat)
  else Raise ValueError.

(** [x[i, j, r, c]] when the position exists. *)
Definition get4 (x : tensor4 R) (i j r c : nat) : option R :=
  xi ← x !! i; img ← (xi : list (matrix R)) !! j; row ← (img : matrix R) !! r;
  (row : list R) !! c.

(** [x.shape == (n, ch, h, w)] for a nested array. *)
Definition rect2 (h w : nat) (img : matrix R) : Prop :=
  length img = h /\ Forall (fun row => length row = w) img.

Definition rect4 (n ch h w : nat) (x : tensor4 R) : Prop :=
  length x = n /\
  Forall (fun xi => length xi = ch /\ Forall (rect2 h w) xi) x.

(** [t[i, j, a, b, c, d]] when the position exists. *)
Definition get6 (t : tensor6 R) (i j a b c d : nat) : option R :=
  ti ← t !! i; g ← (ti : list (tensor4 R)) !! j; get4 g a b c d.

(** [t.shape == (n, ch, a1, b1, a2, b2)]. *)
Definition rect6 (n ch a1 b1 a2 b2 : nat) (t : tensor6 R) : Prop :=
  length t = n /\
  Forall (fun ti => length ti = ch /\ Forall (rect4 a1 b1 a2 b2) ti) t.

(** The tiles of an image: rows in groups of [p], each row in groups of
    [q]; [tile_image p q a1 a2 img] has axes [a1][p][a2][q]. *)
Definition tile_image (p q a1 a2 : nat) (img : matrix R) : tensor4 R :=
  map (map (chunks a2 q)) (chunks a1 p img).

(** The image of a tiling: the inverse rearrangement. *)
Definition untile_image (g : tensor4 R) : matrix R :=
  concat (map (map (@concat R)) g).

(** [m.T] of a two-axis array. *)
Definition mat_T (m : matrix R) : matrix R :=
  map (fun c => map (fun row => default s_zero (row !! c)) m)
      (seq 0 (length (default [] (head m)))).

(** [a.dot(b)] of two-axis arrays: the inner sizes must agree. *)
Definition mat_dot (a b : matrix R) : result (matrix R) :=
  if forallb (fun row => (length row =? length b)%nat) a then
    Ok (map (fun row => map (fun col => asum (zip_with s_mul row col)) (mat_T b)) a)
  else Raise ValueError.

End WithScalar.
End NdArray.

(** ** MaxPool *)

Module Pool.
Import NdArray.
Local Open Scope nat_scope.
Section WithScalar.
Context {R : Type} `{Scalar R}.

(** The attributes of a [MaxPool] node that its two methods use. The
    stride, the pool window [_shape[1]] and the output size are counts;
    [_pool_cache] holds the keys "x_reshaped" and "method". *)
Record MaxPool : Type := mkMaxPool {
  mp_stride : nat;
  mp_pool : nat * nat;
  mp_out_h : nat;
  mp_out_w : nat;
  mp_is_fc_base : bool;
  mp_x_cache : option (tensor4 R);
  mp_cache_x_reshaped : option (tensor6 R);
  mp_cache_method : option string
}.

Definition set_x_cache (self : MaxPool) (x : tensor4 R) : MaxPool :=
  mkMaxPool (mp_stride self) (mp_pool self) (mp_out_h self) (mp_out_w self)
    (mp_is_fc_base self) (Some x) (mp_cache_x_reshaped self) (mp_cache_method self).

Definition set_cache_x_reshaped (self : MaxPool) (x6 : tensor6 R) : MaxPool :=
  mkMaxPool (mp_stride self) (mp_pool self) (mp_out_h self) (mp_out_w self)
    (mp_is_fc_base self) (mp_x_cache self) (Some x6) (mp_cache_method self).

Definition set_cache_method (self : MaxPool) (m : string) : MaxPool :=
  mkMaxPool (mp_stride self) (mp_pool self) (mp_out_h self) (mp_out_w self)
    (mp_is_fc_base self) (mp_x_cache self) (mp_cache_x_reshaped self) (Some m).

(** [a % b] on non-negative ints. *)
Definition nat_mod (a b : nat) : result nat :=
  if b =? 0 then Raise ZeroDivisionError else Ok (a mod b).

(** [x[i, j, r0:r1, c0:c1]]. *)
Definition window_of (x : tensor4 R) (i j r0 r1 c0 c1 : nat) : result (matrix R) :=
  let! xi := index x i in
  let! img := index xi j in
  Ok (map (slice c0 c1) (slice r0 r1 img)).

(** [out[i, j, k, l] = v] on an array that has this position. *)
Definition set4 (out : tensor4 R) (i j k l : nat) (v : R) : tensor4 R :=
  alter (alter (alter (fun row => <[l := v]> row) k) j) i out.

(** [img[r0:r0+h, c0:c0+w] = m] for a two-axis [m] of the shape of the
    slice: position [(r0 + a, c0 + b)] receives [m[a][b]]. *)
Definition assign_window (r0 c0 : nat) (m : matrix R) (img : matrix R) : matrix R :=
  imap (fun r row =>
    imap (fun c v =>
      if (r0 <=? r) && (c0 <=? c) then
        default v (mrow ← m !! (r - r0); (mrow : list R) !! (c - c0))
      else v) row) img.

(** [dx[i, j, r0:r1, c0:c1] = m]. *)
Definition assign4 (dx : tensor4 R) (i j r0 c0 : nat) (m : matrix R) : tensor4 R :=
  alter (alter (assign_window r0 c0 m) j) i dx.

(** The fast path of [_activate]:
    [x_reshaped.max(axis=3).max(axis=4)]. *)
Definition max_axis3_axis4 (x6 : tensor6 R) : result (tensor4 R) :=
  let! m3 := mapM (mapM (mapM amax_axis0)) x6 in
  mapM (mapM (mapM (mapM amax))) m3.

(** The fallback path of [_activate]: the four nested loops. *)
Definition activate_original (self : MaxPool) (x : tensor4 R) : result (tensor4 R) :=
  let sd := mp_stride self in
  let '(n, n_channels, height, width) := shape4 x in
  let '(pool_height, pool_width) := mp_pool self in
  for_range n (fun i =>
    for_range n_channels (fun j =>
      for_range (mp_out_h self) (fun k =>
        for_range (mp_out_w self) (fun l out =>
          let! window := window_of x i j (k * sd) (pool_height + k * sd)
                                         (l * sd) (pool_width + l * sd) in
          let! m := amax2 window in
          Ok (set4 out i j k l m)))))
    (zeros4 n n_channels (mp_out_h self) (mp_out_w self)).

(** [tiles = height % pool_height == 0 and width % pool_width == 0]. *)
Definition tiles_test (height width pool_height pool_width : nat) : result bool :=
  let! r1 := nat_mod height pool_height in
  if r1 =? 0 then
    let! r2 := nat_mod width pool_width in Ok (r2 =? 0)
  else Ok false.

(** [MaxPool._activate(x)]: the node after the call and the output. *)
Definition MaxPool_activate (self : MaxPool) (x : tensor4 R) : MaxPool * result (tensor4 R) :=
  let self := set_x_cache self x in
  let sd := mp_stride self in
  let '(n, n_channels, height, width) := shape4 x in
  let '(pool_height, pool_width) := mp_pool self in
  let same_size := (pool_height =? pool_width) && (pool_width =? sd) in
  match tiles_test height width pool_height pool_width with
  | Raise e => (self, Raise e)
  | Ok tiles =>
      if same_size && tiles then
        match reshape6 n n_channels (height / pool_height) pool_height
                       (width / pool_width) pool_width (flatten4 x) with
        | Raise e => (self, Raise e)
        | Ok x_reshaped =>
            let self := set_cache_x_reshaped self x_reshaped in
            match max_axis3_axis4 x_reshaped with
            | Raise e => (self, Raise e)
            | Ok out => (set_cache_method self "reshape", Ok out)
            end
        end
      else
        match activate_original self x with
        | Raise e => (self, Raise e)
        | Ok out => (set_cache_method self "original", Ok out)
        end
  end.

(** An array argument of two or of four axes. *)
Inductive ndarray : Type :=
| Arr2 (m : matrix R)
| Arr4 (t : tensor4 R).

(** [prev_delta]: an array, or a tuple whose first component is one. *)
Inductive delta_arg : Type :=
| DeltaArray (a : ndarray)
| DeltaTuple (a : ndarray).

(** The first lines of [_derivative]: unpack a tuple, and at a flatten
    boundary compute [prev_delta.dot(w.T).reshape(y.shape)] (the model
    covers a two-axis [prev_delta] there). *)
Definition incoming_delta (self : MaxPool) (y : tensor4 R) (w : option (matrix R))
    (prev_delta : delta_arg) : result ndarray :=
  let pd := match prev_delta with DeltaArray a | DeltaTuple a => a end in
  if mp_is_fc_base self then
    match pd, w with
    | _, None => Raise AttributeError
    | Arr2 m, Some wm =>
        let! p := mat_dot m (mat_T wm) in
        let! t := reshape4 (shape4 y) (concat p) in
        Ok (Arr4 t)
    | Arr4 _, Some _ => Raise ValueError
    end
  else Ok pd.

(** [delta[i, j, k, l]]. *)
Definition delta_at (delta : ndarray) (i j k l : nat) : result R :=
  match delta with
  | Arr4 t =>
      let! a := index t i in
      let! b := index a j in
      let! c := index b k in
      index c l
  | Arr2 _ => Raise IndexError
  end.

(** Traversal of the first three axes of [x] together with an operand
    [y] that is broadcast against them. *)
Definition bzip3 {A B C : Type} (f : A -> B -> result C)
    (x : list (list (list A))) (y : list (list (list B)))
  : result (list (list (list C))) :=
  imapM (fun i xi =>
    let! yi := bindex (length x) y i in
    imapM (fun j xij =>
      let! yij := bindex (length xi) yi j in
      imapM (fun a xa =>
        let! ya := bindex (length xij) yij a in
        f xa ya) xij) xi) x.

(** [mask = (x_reshaped_cache == y[:, :, :, None, :, None])] on the
    axes [b][c][d] of one row of tiles: [ya] is indexed by [c]. *)
Definition mask_group (xa : list (list (list R))) (ya : list R)
  : result (list (list (list bool))) :=
  mapM (fun xb =>
    imapM (fun c xd =>
      let! yc := bindex (length xb) ya c in
      Ok (map (fun v => s_eqb v yc) xd)) xb) xa.

(** [dx_reshaped[mask] = dout_broadcast[mask]] on zeros, same axes. *)
Definition scatter_group (ma : list (list (list bool))) (da : list R)
  : result (list (list (list R))) :=
  mapM (fun mb =>
    imapM (fun c md =>
      let! dc := bindex (length mb) da c in
      Ok (map (fun m : bool => if m then dc else s_zero) md)) mb) ma.

(** [np.sum(mask, axis=(3, 5), keepdims=True)] at tile column [c]. *)
Definition count_group (ma : list (list (list bool))) (c : nat) : nat :=
  sum_list (map (fun mb => length (filter (fun m => m = true) (default [] (mb !! c)))) ma).

(** [dx_reshaped /= np.sum(mask, axis=(3, 5), keepdims=True)]. *)
Definition divide_group (ga : list (list (list R))) (ma : list (list (list bool)))
  : list (list (list R)) :=
  map (fun gb =>
    imap (fun c gd => map (fun v => s_div v (s_of_nat (count_group ma c))) gd) gb) ga.

(** The values of [mask_group] and [scatter_group] on operands whose
    shapes agree, and the gradient of one row of tiles made of them. *)
Definition mask_group_val (xa : list (list (list R))) (ya : list R)
  : list (list (list bool)) :=
  map (fun xb =>
    imap (fun c xd => map (fun v => s_eqb v (default s_zero (ya !! c))) xd) xb) xa.

Definition scatter_group_val (ma : list (list (list bool))) (da : list R)
  : list (list (list R)) :=
  map (fun mb =>
    imap (fun c md =>
      map (fun m : bool => if m then default s_zero (da !! c) else s_zero) md) mb) ma.

Definition dx_group_val (xa : list (list (list R))) (ya da : list R)
  : list (list (list R)) :=
  divide_group (scatter_group_val (mask_group_val xa ya) da) (mask_group_val xa ya).

(** The "reshape" branch of [_derivative]. *)
Definition derivative_reshape (x_reshaped_cache : tensor6 R) (y : tensor4 R)
    (delta : ndarray) (x_cache : option (tensor4 R)) : result (tensor4 R) :=
  let! mask := bzip3 mask_group x_reshaped_cache y in
  match delta with
  | Arr2 _ => Raise IndexError
  | Arr4 d =>
      let! dx_reshaped :=
        bzip3 (fun ma da =>
                 let! g := scatter_group ma da in Ok (divide_group g ma)) mask d in
      match x_cache with
      | None => Raise AttributeError
      | Some xc => reshape4 (shape4 xc) (flatten6 dx_reshaped)
      end
  end.

(** The right-hand side of the assignment in the "original" branch:
    [window = x_cache[i, j, k*sd:ph+k*sd, l*sd:pw+l*sd]] and then
    [(window == np.max(window)) * delta[i, j, k, l]]. *)
Definition window_gradient (x_cache : tensor4 R) (delta : ndarray)
    (sd pool_height pool_width i j k l : nat) : result (matrix R) :=
  let! window := window_of x_cache i j (k * sd) (pool_height + k * sd)
                                       (l * sd) (pool_width + l * sd) in
  let! mx := amax2 window in
  let! d := delta_at delta i j k l in
  Ok (map (map (fun v => s_mul (s_of_bool (s_eqb v mx)) d)) window).

(** The "original" branch of [_derivative]: each window is written into
    [dx] by a slice assignment. *)
Definition derivative_original (self : MaxPool) (x_cache : tensor4 R) (delta : ndarray)
  : result (tensor4 R) :=
  let sd := mp_stride self in
  let '(n, n_channels, _, _) := shape4 x_cache in
  let '(pool_height, pool_width) := mp_pool self in
  for_range n (fun i =>
    for_range n_channels (fun j =>
      for_range (mp_out_h self) (fun k =>
        for_range (mp_out_w self) (fun l dx =>
          let! g := window_gradient x_cache delta sd pool_height pool_width i j k l in
          Ok (assign4 dx i j (k * sd) (l * sd) g)))))
    (zeros_like4 x_cache).

(** The maximum of the window of output cell [(k, l)]. *)
Definition window_max (x : tensor4 R) (sd pool_height pool_width i j k l : nat)
  : result R :=
  let! window := window_of x i j (k * sd) (pool_height + k * sd)
                                 (l * sd) (pool_width + l * sd) in
  amax2 window.

(** The window of output cell [(k, l)] contains input position [(r, c)]. *)
Definition covers (sd pool_height pool_width k l r c : nat) : bool :=
  (k * sd <=? r) && (r <? pool_height + k * sd) &&
  (l * sd <=? c) && (c <? pool_width + l * sd).

(** [MaxPool._derivative(y, w, prev_delta)]: the input gradient [dx]
    (the first component of the returned triple, the others are None). *)
Definition MaxPool_derivative (self : MaxPool) (y : tensor4 R) (w : option (matrix R))
    (prev_delta : delta_arg) : result (tensor4 R) :=
  let! delta := incoming_delta self y w prev_delta in
  match mp_cache_method self with
  | None => Raise KeyError
  | Some method =>
      if String.eqb method "reshape" then
        match mp_cache_x_reshaped self with
        | None => Raise KeyError
        | Some x6 => derivative_reshape x6 y delta (mp_x_cache self)
        end
      else if String.eqb method "original" then
        match mp_x_cache self with
        | None => Raise AttributeError
        | Some xc => derivative_original self xc delta
        end
      else Raise LayerError
  end.

End WithScalar.
End Pool.

(** ** The canonical rationals as scalars *)

Definition Qc_ltb (a b : Qc) : bool :=
  match (a ?= b)%Qc with Lt => true | _ => false end.

Definition Qc_eqb (a b : Qc) : bool :=
  match (a ?= b)%Qc with Eq => true | _ => false end.

#[export] Instance Qc_Scalar : Scalar Qc := {
  s_zero := 0%Qc;
  s_one := 1%Qc;
  s_add := Qcplus;
  s_sub := Qcminus;
  s_mul := Qcmult;
  s_div := Qcdiv;
  s_opp := Qcopp;
  s_eqb := Qc_eqb;
  s_ltb := Qc_ltb;
  s_of_nat := fun n => Q2Qc (inject_Z (Z.of_nat n))
}.

(** A rational literal [n/d]. *)
Definition qc (n : Z) (d : positive) : Qc := Q2Qc (n # d).

(** ** Concrete data for evaluation *)

Module Examples.
Import NdArray Pool.
Local Open Scope nat_scope.

(** The integers [z] as scalars. *)
Definition zq (z : Z) : Qc := qc z 1.

(** One sample, one channel, the 4x4 image with entries 1..16. *)
Definition x_ramp : tensor4 Qc :=
  [[ map (map zq) [[1; 2; 3; 4]; [5; 6; 7; 8]; [9; 10; 11; 12]; [13; 14; 15; 16]]%Z ]].

(** The same image with a tie in the upper-left 2x2 window. *)
Definition x_tie : tensor4 Qc :=
  [[ map (map zq) [[1; 1; 3; 4]; [1; 1; 7; 8]; [9; 10; 11; 12]; [13; 14; 15; 16]]%Z ]].

Definition delta_2x2 : tensor4 Qc := [[ map (map zq) [[1; 2]; [3; 4]]%Z ]].

Definition delta_3x3 : tensor4 Qc :=
  [[ map (map zq) [[1; 2; 3]; [4; 5; 6]; [7; 8; 9]]%Z ]].

(** A freshly built 2x2 pooling node with stride 2 on a 4x4 input. *)
Definition pool_2x2_s2 : MaxPool (R := Qc) :=
  mkMaxPool 2 (2, 2) 2 2 false None None None.

(** A 2x2 pooling node with stride 1 on a 4x4 input: windows overlap. *)
Definition pool_2x2_s1 : MaxPool (R := Qc) :=
  mkMaxPool 1 (2, 2) 3 3 false None None None.

End Examples.

(** ** Methods that change objects and may raise

    A method is a function of the state of the program that returns the
    new state with its result; the state reached when it raises is kept. *)

Definition eff (S A : Type) : Type := S -> S * result A.

Definition eret {S A : Type} (a : A) : eff S A := fun s => (s, Ok a).

Definition eraise {S A : Type} (e : exn) : eff S A := fun s => (s, Raise e).

Definition elift {S A : Type} (r : result A) : eff S A := fun s => (s, r).

Definition ebind {S A B : Type} (m : eff S A) (k : A -> eff S B) : eff S B :=
  fun s =>
    match m s with
    | (s', Ok a) => k a s'
    | (s', Raise e) => (s', Raise e)
    end.

Notation "'do!' x ':=' m 'in' k" := (ebind m (fun x => k))
(at level 10, x name, m at level 100, k at level 200).

(** ** NumPy values of the fully connected layers

    A value is a number, a one-axis array or a two-axis array; a boolean
    array is an array of zeros and ones. Binary operators broadcast as NumPy
    does on these shapes and raise [ValueError] on shapes that do not fit.
    Numbers are idealised as elements of the scalar type, so a division
    never raises. An array with no row does not record its second
    dimension. *)

Module Values.
Import NdArray.
Local Open Scope nat_scope.
Section WithScalar.
Context {R : Type} `{Scalar R}.

Inductive value : Type :=
| VScalar (r : R)
| VVector (v : list R)
| VMatrix (m : matrix R).

(** Broadcasting along one axis: equal lengths, or one of length 1. *)
Definition bcast_row (f : R -> R -> R) (a b : list R) : result (list R) :=
  if length a =? length b then Ok (zip_with f a b)
  else match a, b with
       | [a0], _ => Ok (map (f a0) b)
       | _, [b0] => Ok (map (fun x => f x b0) a)
       | _, _ => Raise ValueError
       end.

(** Broadcasting of two two-axis arrays. *)
Definition bcast_mat (f : R -> R -> R) (a b : matrix R) : result (matrix R) :=
  if length a =? length b then
    mapM (fun ab => bcast_row f (fst ab) (snd ab)) (zip a b)
  else match a, b with
       | [a0], _ => mapM (fun rb => bcast_row f a0 rb) b
       | _, [b0] => mapM (fun ra => bcast_row f ra b0) a
       | _, _ => Raise ValueError
       end.

(** An element-wise binary operator; a one-axis array is a single row
    against a two-axis array. *)
Definition v_binop (f : R -> R -> R) (x y : value) : result value :=
  match x, y with
  | VScalar a, VScalar b => Ok (VScalar (f a b))
  | VScalar a, VVector v => Ok (VVector (map (f a) v))
  | VVector v, VScalar b => Ok (VVector (map (fun x => f x b) v))
  | VScalar a, VMatrix m => Ok (VMatrix (map (map (f a)) m))
  | VMatrix m, VScalar b => Ok (VMatrix (map (map (fun x => f x b)) m))
  | VVector a, VVector b => let! v := bcast_row f a b in Ok (VVector v)
  | VVector a, VMatrix b => let! m := bcast_mat f [a] b in Ok (VMatrix m)
  | VMatrix a, VVector b => let! m := bcast_mat f a [b] in Ok (VMatrix m)
  | VMatrix a, VMatrix b => let! m := bcast_mat f a b in Ok (VMatrix m)
  end.

Definition v_add : value -> value -> result value := v_binop s_add.
Definition v_sub : value -> value -> result value := v_binop s_sub.
Definition v_mul : value -> value -> result value := v_binop s_mul.
Definition v_div : value -> value -> result value := v_binop s_div.

(** An element-wise unary operator. *)
Definition v_map (f : R -> R) (x : value) : value :=
  match x with
  | VScalar a => VScalar (f a)
  | VVector v => VVector (map f v)
  | VMatrix m => VMatrix (map (map f) m)
  end.

(** Unary minus. *)
Definition v_neg : value -> value := v_map s_opp.

(** [x > 0] as an array of zeros and ones. *)
Definition v_gt0 : value -> value := v_map (fun a => s_of_bool (s_ltb s_zero a)).

(** The literals of the source. *)
Definition lit (n : nat) : value := VScalar (s_of_nat n).

(** [len(x)]. *)
Definition v_len (x : value) : result nat :=
  match x with
  | VScalar _ => Raise TypeError
  | VVector v => Ok (length v)
  | VMatrix m => Ok (length m)
  end.

(** [x.T]; a number has no such attribute. *)
Definition v_T (x : value) : result value :=
  match x with
  | VScalar _ => Raise AttributeError
  | VVector v => Ok (VVector v)
  | VMatrix m => Ok (VMatrix (mat_T m))
  end.

(** The inner product of two one-axis arrays. *)
Definition vec_dot (a b : list R) : result R :=
  if length a =? length b then Ok (asum (zip_with s_mul a b)) else Raise ValueError.

(** [x.dot(y)] of an array [x]; a number has no such attribute. *)
Definition v_dot (x y : value) : result value :=
  match x, y with
  | VMatrix a, VMatrix b => let! m := mat_dot a b in Ok (VMatrix m)
  | VMatrix a, VVector b => let! v := mapM (fun row => vec_dot row b) a in Ok (VVector v)
  | VVector a, VMatrix b =>
      let! m := mat_dot [a] b in
      Ok (VVector (default [] (head m)))
  | VVector a, VVector b => let! r := vec_dot a b in Ok (VScalar r)
  | VMatrix a, VScalar b => Ok (VMatrix (map (map (fun x => s_mul x b)) a))
  | VVector a, VScalar b => Ok (VVector (map (fun x => s_mul x b) a))
  | VScalar _, _ => Raise AttributeError
  end.

End WithScalar.
Arguments value R : clear implicits.
End Values.

(** ** The cost functions of CostLayer, in gradient form *)

Module Cost.
Import NdArray Values.
Local Open Scope nat_scope.
Section WithScalar.
Context {R : Type} `{Scalar R}.

(** [np.argmax] of a row: the first position of the maximum. *)
Fixpoint argmax_from (best : R) (bi i : nat) (l : list R) : nat :=
  match l with
  | [] => bi
  | a :: l' =>
      if s_ltb best a then argmax_from a i (S i) l'
      else argmax_from best bi (S i) l'
  end.

Definition argmax (l : list R) : result nat :=
  match l with
  | [] => Raise ValueError
  | a :: l' => Ok (argmax_from a 0 1 l')
  end.

(** [np.argmax(y, axis=1)]. *)
Definition argmax_axis1 (y : value R) : result (list nat) :=
  match y with
  | VMatrix m => mapM argmax m
  | _ => Raise AxisError
  end.

(** The positions addressed by [a[rows, cols]]: the two index arrays are
    broadcast against each other. *)
Definition bcast_index (rows cols : list nat) : result (list (nat * nat)) :=
  if length rows =? length cols then Ok (zip rows cols)
  else match rows, cols with
       | [r], _ => Ok (map (fun c => (r, c)) cols)
       | _, [c] => Ok (map (fun r => (r, c)) rows)
       | _, _ => Raise IndexError
       end.

(** Reading [a[rows, cols]]. *)
Definition fancy_get (m : matrix R) (idx : list (nat * nat)) : result (list R) :=
  mapM (fun rc => let! row := index m (fst rc) in index row (snd rc)) idx.

(** Writing [a[rows, cols] = vals], position by position. *)
Definition fancy_set (m : matrix R) (idx : list (nat * nat)) (vals : list R)
  : matrix R :=
  foldl (fun acc rcv => alter (fun row => <[snd (fst rcv) := snd rcv]> row)
                              (fst (fst rcv)) acc)
        m (zip idx vals).

(** [a[rows, cols] -= v]: the addressed elements are read, decreased and
    written back, so a position addressed twice is decreased once. *)
Definition fancy_isub (m : matrix R) (rows cols : list nat) (v : R)
  : result (matrix R) :=
  let! idx := bcast_index rows cols in
  let! cur := fancy_get m idx in
  Ok (fancy_set m idx (map (fun a => s_sub a v) cur)).

(** [_mse]: [-y + y_pred]. *)
Definition _mse (y y_pred : value R) : result (value R) :=
  v_add (v_neg y) y_pred.

(** [_cross_entropy]: [-y / y_pred + (1 - y) / (1 - y_pred)]. *)
Definition _cross_entropy (y y_pred : value R) : result (value R) :=
  let! a := v_div (v_neg y) y_pred in
  let! n := v_sub (lit 1) y in
  let! d := v_sub (lit 1) y_pred in
  let! b := v_div n d in
  v_add a b.

(** [y_pred.shape[0]]; a number has no shape. *)
Definition shape0 (a : value R) : result nat :=
  match a with
  | VScalar _ => Raise AttributeError
  | VVector v => Ok (length v)
  | VMatrix m => Ok (length m)
  end.

(** [dx[mask > 0] = 1]: the mask must have the shape of the array. *)
Definition mask_assign_one (dx mask : matrix R) : result (matrix R) :=
  if (length dx =? length mask)
     && forallb (fun dm => length (fst dm) =? length (snd dm)) (zip dx mask)
  then Ok (zip_with (zip_with (fun d a => if s_ltb s_zero a then s_one else d)) dx mask)
  else Raise IndexError.

(** [_svm], gradient form. *)
Definition _svm (y y_pred : value R) : result (value R) :=
  let! n := shape0 y_pred in
  let! am := argmax_axis1 y in
  match y_pred with
  | VMatrix yp =>
      let! idx := bcast_index (seq 0 n) am in
      let! correct_class_scores := fancy_get yp idx in
      let! diff := bcast_mat s_sub yp (map (fun v => [v]) correct_class_scores) in
      let margins0 := map (map (fun a => s_max s_zero (s_add a s_one))) diff in
      let! _ := fancy_get margins0 idx in
      let margins := fancy_set margins0 idx (map (fun _ => s_zero) idx) in
      let num_pos :=
        map (fun row => s_of_nat (length (filter (fun a => s_ltb s_zero a) row))) margins in
      let! dx1 := mask_assign_one (map (map (fun _ => s_zero)) yp) margins in
      let! cur := fancy_get dx1 idx in
      let! dec := bcast_row s_sub cur num_pos in
      let dx2 := fancy_set dx1 idx dec in
      Ok (VMatrix (map (map (fun a => s_div a (s_of_nat n))) dx2))
  | _ => Raise IndexError
  end.

(** The first statement of [_log_likelihood]: the class attribute
    [_batch_range] is filled on the call that finds it empty. *)
Definition batch_range_of (br : option (list nat)) (y_pred : value R)
  : result (list nat) :=
  match br with
  | Some b => Ok b
  | None => let! n := v_len y_pred in Ok (seq 0 n)
  end.

(** [a[batch_range, y_arg_max] -= 1] on the contents of an array. *)
Definition isub_true_class (b am : list nat) (a : value R) : result (value R) :=
  match a with
  | VMatrix m => let! m' := fancy_isub m b am s_one in Ok (VMatrix m')
  | VVector _ => Raise IndexError
  | VScalar _ => Raise IndexError
  end.

(** [y_pred.copy()]; a number has no such attribute. *)
Definition v_copy (a : value R) : result (value R) :=
  match a with
  | VScalar _ => Raise AttributeError
  | _ => Ok a
  end.

(** [_log_likelihood(y, y_pred)] with [diff=True], on array contents.
    The class attribute is threaded through the call. *)
Definition _log_likelihood (br : option (list nat)) (y y_pred : value R)
  : option (list nat) * result (value R) :=
  match batch_range_of br y_pred with
  | Raise e => (br, Raise e)
  | Ok b =>
      (Some b,
       let! am := argmax_axis1 y in
       let! c := v_copy y_pred in
       isub_true_class b am c)
  end.

(** *** Arrays as objects

    The same function on references into a store of arrays:
    [y_pred.copy()] allocates a new array and the in-place subtraction
    updates that array. *)

Record cost_state : Type := mkCostState {
  arrays : gmap nat (value R);
  _batch_range : option (list nat)
}.

Definition _log_likelihood_ref (st : cost_state) (y y_pred : nat)
  : cost_state * result nat :=
  match arrays st !! y, arrays st !! y_pred with
  | Some vy, Some vp =>
      match batch_range_of (_batch_range st) vp with
      | Raise e => (st, Raise e)
      | Ok b =>
          let st1 := mkCostState (arrays st) (Some b) in
          match argmax_axis1 vy with
          | Raise e => (st1, Raise e)
          | Ok am =>
              match v_copy vp with
              | Raise e => (st1, Raise e)
              | Ok c =>
                  let l := fresh (dom (arrays st)) in
                  let st2 := mkCostState (<[l := c]> (arrays st)) (Some b) in
                  match isub_true_class b am c with
                  | Raise e => (st2, Raise e)
                  | Ok c' => (mkCostState (<[l := c']> (arrays st2)) (Some b), Ok l)
                  end
              end
          end
      end
  | _, _ => (st, Raise KeyError)
  end.

(** *** The gradient as the specification words it

    The prediction with 1 subtracted at each row's true-class index. *)

Definition subtract_at (c : nat) (row : list R) : list R :=
  imap (fun j v => if j =? c then s_sub v s_one else v) row.

Definition true_class_gradient (y y_pred : matrix R) : result (matrix R) :=
  let! am := mapM argmax y in
  Ok (zip_with subtract_at am y_pred).

End WithScalar.
Arguments cost_state R : clear implicits.
End Cost.

(** Concrete data for the cost functions: a batch of one sample followed
    by a batch of two samples, two classes each. *)

Module CostExamples.
Import NdArray Values Cost.
Local Open Scope nat_scope.

Definition half : Qc := qc 1 2.
Definition y_one : matrix Qc := [[1%Qc; 0%Qc]].
Definition y_pred_one : matrix Qc := [[half; half]].
Definition y_two : matrix Qc := [[1%Qc; 0%Qc]; [0%Qc; 1%Qc]].
Definition y_pred_two : matrix Qc := [[half; half]; [half; half]].

(** The four arrays as objects 0 to 3, and the class attribute as it is
    when the class is loaded. *)
Definition nll_start : cost_state Qc :=
  mkCostState
    (<[3 := VMatrix y_pred_two]>
       (<[2 := VMatrix y_two]>
          (<[1 := VMatrix y_pred_one]>
             (<[0 := VMatrix y_one]> ∅))))
    None.

End CostExamples.

(** ** Layer objects, their parent and child links, and back-propagation

    Layer objects live in a heap and refer to each other by reference.
    Each object carries the [_derivative] method of its class together
    with the attributes that method reads and writes; a call of the method
    writes the attributes back. The class attribute
    [CostLayer._batch_range] is part of the state. The timing decorator
    around [bp] returns the result of the function it wraps. *)

Module Chain.
Import NdArray Values Cost.
Local Open Scope nat_scope.
Section WithScalar.
Context {R : Type} `{Scalar R}.
Context {P : Type}.

(** [_cost_function_name] and [_cost_function] of a CostLayer; the
    function is called in gradient form and may fill the class
    attribute. *)
Record cost_fields : Type := mkCostFields {
  _cost_function_name : string;
  _cost_function :
    option (list nat) -> value R -> value R -> option (list nat) * result (value R)
}.

Record layer : Type := mkLayer {
  class_name : string;
  is_SubLayer : bool;
  parent : option nat;
  child : option nat;
  _root : option nat;
  cost : option cost_fields;
  fields : P;
  _derivative : P -> value R -> option (value R) -> P * result (value R)
}.

Record world : Type := mkWorld {
  objects : gmap nat layer;
  batch_range : option (list nat)
}.

Definition set_fields (o : layer) (p : P) : layer :=
  mkLayer (class_name o) (is_SubLayer o) (parent o) (child o) (_root o) (cost o)
          p (_derivative o).

Definition set_parent (o : layer) (q : option nat) : layer :=
  mkLayer (class_name o) (is_SubLayer o) q (child o) (_root o) (cost o)
          (fields o) (_derivative o).

Definition set_child (o : layer) (c : option nat) : layer :=
  mkLayer (class_name o) (is_SubLayer o) (parent o) c (_root o) (cost o)
          (fields o) (_derivative o).

Definition set__root (o : layer) (r : option nat) : layer :=
  mkLayer (class_name o) (is_SubLayer o) (parent o) (child o) r (cost o)
          (fields o) (_derivative o).

Definition set_cost (o : layer) (c : option cost_fields) : layer :=
  mkLayer (class_name o) (is_SubLayer o) (parent o) (child o) (_root o) c
          (fields o) (_derivative o).

(** Following a reference; a reference always leads to an object, so the
    error does not occur in a state built by the constructors. *)
Definition get_object (l : nat) : eff world layer :=
  fun w =>
    match objects w !! l with
    | Some o => (w, Ok o)
    | None => (w, Raise KeyError)
    end.

(** Following an attribute that may hold [None]. *)
Definition get_attr (r : option nat) : eff world layer :=
  match r with
  | Some l => get_object l
  | None => eraise AttributeError
  end.

(** [name]: [str(self)], which a CostLayer overrides. *)
Definition name (o : layer) : string :=
  match cost o with
  | Some c => _cost_function_name c
  | None => class_name o
  end.

(** [derivative(y, delta)]: the call of the object's [_derivative]. *)
Definition derivative (l : nat) (y : value R) (delta : option (value R))
  : eff world (value R) :=
  fun w =>
    match objects w !! l with
    | None => (w, Raise KeyError)
    | Some o =>
        let pr := _derivative o (fields o) y delta in
        (mkWorld (<[l := set_fields o (fst pr)]> (objects w)) (batch_range w), snd pr)
    end.

(** [c is not None and isinstance(c, SubLayer)]. *)
Definition is_sub_layer_ref (c : option nat) : eff world bool :=
  match c with
  | None => eret false
  | Some l => do! o := get_object l in eret (is_SubLayer o)
  end.

(** [prev_delta.dot(w.T)]. *)
Definition dot_T (prev_delta w : value R) : result (value R) :=
  let! wT := v_T w in v_dot prev_delta wT.

(** [r.derivative(y)] for an attribute [r] that may hold [None]. *)
Definition derivative_of (r : option nat) (y : value R) : eff world (value R) :=
  match r with
  | Some l => derivative l y None
  | None => eraise AttributeError
  end.

(** [self._derivative(y, prev_delta.dot(w.T) * root.derivative(y))] for a
    root reference [root]. *)
Definition chain_rule_through (self : nat) (root : option nat)
    (y w prev_delta : value R) : eff world (value R) :=
  do! d := elift (dot_T prev_delta w) in
  do! rd := derivative_of root y in
  do! a := elift (v_mul d rd) in
  derivative self y (Some a).

(** [Layer.bp]. *)
Definition bp (self : nat) (y w prev_delta : value R) : eff world (value R) :=
  do! me := get_object self in
  do! child_is_sub := is_sub_layer_ref (child me) in
  if child_is_sub then
    if negb (is_SubLayer me) then eret prev_delta
    else derivative self y (Some prev_delta)
  else if is_SubLayer me then chain_rule_through self (_root me) y w prev_delta
  else
    do! d := elift (dot_T prev_delta w) in
    do! s := derivative self y None in
    elift (v_mul d s).

(** The call of [self._cost_function(y, y_pred)]. *)
Definition call_cost (c : cost_fields) (y y_pred : value R) : eff world (value R) :=
  fun w =>
    let br := _cost_function c (batch_range w) y y_pred in
    (mkWorld (objects w) (fst br), snd br).

(** [CostLayer.bp_first]; only a CostLayer has the method. *)
Definition bp_first (self : nat) (y y_pred : value R) : eff world (value R) :=
  do! me := get_object self in
  match cost me with
  | None => eraise AttributeError
  | Some c =>
      do! rt := get_attr (_root me) in
      if String.eqb (name rt) "Sigmoid"
         && String.eqb (_cost_function_name c) "Cross Entropy"
      then
        elift (let! a := v_sub (lit 1) y_pred in
               let! l := v_mul y a in
               let! b := v_sub (lit 1) y in
               let! r := v_mul b y_pred in
               v_sub l r)
      else if String.eqb (_cost_function_name c) "Log Likelihood" then
        do! g := call_cost c y y_pred in
        elift (v_div (v_neg g) (lit 4))
      else
        do! g := call_cost c y y_pred in
        do! rd := derivative_of (_root me) y_pred in
        elift (v_mul (v_neg g) rd)
  end.

(** The walk of the [root] property of a sub-layer, from its parent. The
    loop runs as long as it finds a parent; [None] is the walk cut off
    after [fuel] steps. *)
Fixpoint root_walk (fuel : nat) (objs : gmap nat layer) (p : nat)
  : option (result nat) :=
  match fuel with
  | 0 => None
  | S fuel' =>
      match objs !! p with
      | None => Some (Raise KeyError)
      | Some o =>
          match parent o with
          | None => Some (Ok p)
          | Some q => root_walk fuel' objs q
          end
      end
  end.

(** The [root] property: a layer that is not a sub-layer is its own root. *)
Definition root (fuel : nat) (w : world) (self : nat) : option (result nat) :=
  match objects w !! self with
  | None => Some (Raise KeyError)
  | Some me =>
      if is_SubLayer me then
        match parent me with
        | None => Some (Raise AttributeError)
        | Some p => root_walk fuel (objects w) p
        end
      else Some (Ok self)
  end.

(** The setter of [root]: a sub-layer stores the reference in [_root]. *)
Definition root_setter (self : nat) (value : option nat) : eff world unit :=
  fun w =>
    match objects w !! self with
    | None => (w, Raise KeyError)
    | Some me =>
        if is_SubLayer me then
          (mkWorld (<[self := set__root me value]> (objects w)) (batch_range w), Ok tt)
        else (w, Raise BuildLayerError)
    end.

(** [Layer.__init__] for a class with the given [_derivative]: a new object
    without links. *)
Definition Layer_init (cls : string) (p : P)
    (d : P -> value R -> option (value R) -> P * result (value R))
  : eff world nat :=
  fun w =>
    let l := fresh (dom (objects w)) in
    (mkWorld (<[l := mkLayer cls false None None None None p d]> (objects w))
             (batch_range w),
     Ok l).

(** [SubLayer.__init__]: the new object is linked below [parent], and
    [_root] is [None]. *)
Definition SubLayer_init (cls : string) (parent_ref : option nat) (p : P)
    (d : P -> value R -> option (value R) -> P * result (value R))
  : eff world nat :=
  fun w =>
    let l := fresh (dom (objects w)) in
    let objs := <[l := mkLayer cls true parent_ref None None None p d]> (objects w) in
    match parent_ref with
    | None => (mkWorld objs (batch_range w), Raise AttributeError)
    | Some q =>
        match objs !! q with
        | None => (mkWorld objs (batch_range w), Raise KeyError)
        | Some po =>
            (mkWorld (<[q := set_child po (Some l)]> objs) (batch_range w), Ok l)
        end
    end.

(** The methods of the classes. *)

Definition pure_method (f : value R -> option (value R) -> result (value R))
  : P -> value R -> option (value R) -> P * result (value R) :=
  fun p y delta => (p, f y delta).

(** Tanh: [1 - y ** 2]. *)
Definition Tanh_derivative (y : value R) (_ : option (value R)) : result (value R) :=
  v_sub (lit 1) (v_map (fun a => s_mul a a) y).

(** Sigmoid and Softmax: [y * (1 - y)]. *)
Definition Sigmoid_derivative (y : value R) (_ : option (value R)) : result (value R) :=
  let! a := v_sub (lit 1) y in v_mul y a.

(** ELU: [y + 1] where [y < 0] and 1 elsewhere, on an array. *)
Definition ELU_derivative (y : value R) (_ : option (value R)) : result (value R) :=
  match y with
  | VScalar _ => Raise AttributeError
  | _ => Ok (v_map (fun a => if s_ltb a s_zero then s_add a s_one else s_one) y)
  end.

(** ReLU: [y > 0]. *)
Definition ReLU_derivative (y : value R) (_ : option (value R)) : result (value R) :=
  Ok (v_gt0 y).

(** Identical: 1. *)
Definition Identical_derivative (y : value R) (_ : option (value R))
  : result (value R) :=
  Ok (lit 1).

(** SubLayer, for a class that does not override it. *)
Definition SubLayer_derivative (y : value R) (_ : option (value R))
  : result (value R) :=
  Raise NotImplementedError.

(** Dropout: [self._prob_inv * delta]. *)
Definition Dropout_derivative (prob_inv : R) (y : value R) (delta : option (value R))
  : result (value R) :=
  match delta with
  | None => Raise TypeError
  | Some d => v_mul (VScalar prob_inv) d
  end.

(** CostLayer. *)
Definition CostLayer_derivative (y : value R) (_ : option (value R))
  : result (value R) :=
  Raise LayerError.

(** [Dropout.__init__]. *)
Definition Dropout_init (parent_ref : option nat) (prob : R) (p : P) : eff world nat :=
  if s_ltb prob s_zero || negb (s_ltb prob s_one) then eraise BuildLayerError
  else SubLayer_init "Dropout" parent_ref p
         (pure_method (Dropout_derivative (s_div s_one (s_sub s_one prob)))).

(** [_available_cost_functions]. *)
Definition without_class_state (f : value R -> value R -> result (value R))
  : option (list nat) -> value R -> value R -> option (list nat) * result (value R) :=
  fun br y y_pred => (br, f y y_pred).

Definition available_cost_functions
  : list (string *
          (option (list nat) -> value R -> value R
           -> option (list nat) * result (value R))) :=
  [ ("MSE"%string, without_class_state _mse);
    ("SVM"%string, without_class_state _svm);
    ("Cross Entropy"%string, without_class_state _cross_entropy);
    ("Log Likelihood"%string, _log_likelihood) ].

Definition lookup_cost (n : string)
  : option (option (list nat) -> value R -> value R
            -> option (list nat) * result (value R)) :=
  snd <$> List.find (fun kv => String.eqb (fst kv) n) available_cost_functions.

(** [CostLayer.__init__]. *)
Definition CostLayer_init (parent_ref : option nat) (cost_function : string) (p : P)
  : eff world nat :=
  do! l := SubLayer_init "CostLayer" parent_ref p (pure_method CostLayer_derivative) in
  match lookup_cost cost_function with
  | None => eraise LayerError
  | Some f =>
      do! me := get_object l in
      fun w =>
        (mkWorld (<[l := set_cost me (Some (mkCostFields cost_function f))]> (objects w))
                 (batch_range w),
         Ok l)
  end.

(** The objects with every parent link replaced: object [l] gets the
    parent [f l]. *)
Definition reparent (f : nat -> option nat) (w : world) : world :=
  mkWorld (map_imap (fun l o => Some (set_parent o (f l))) (objects w))
          (batch_range w).

(** A method that does not look at parent links: run after the links
    were replaced, it does what it does before, and the links stay
    replaced. *)
Definition parent_blind (f : nat -> option nat) {A : Type} (m : eff world A) : Prop :=
  forall w, m (reparent f w) = (reparent f (fst (m w)), snd (m w)).

(** [self.child is not None and isinstance(self.child, SubLayer)], read off
    the state. *)
Definition has_sub_layer_child (w : world) (me : layer) : bool :=
  match child me with
  | None => false
  | Some c =>
      match objects w !! c with
      | Some co => is_SubLayer co
      | None => false
      end
  end.

(** [walks_to objs p r n]: following parent links from [p] reaches, after
    [n] links, the object [r] that has no parent. *)
Inductive walks_to (objs : gmap nat layer) : nat -> nat -> nat -> Prop :=
| walks_here (p : nat) (o : layer) :
    objs !! p = Some o -> parent o = None -> walks_to objs p p 0
| walks_up (p q r n : nat) (o : layer) :
    objs !! p = Some o -> parent o = Some q -> walks_to objs q r n ->
    walks_to objs p r (S n).

(** *** The three cases of [bp_first] as formulas *)

(** [y * (1 - y_pred) - (1 - y) * y_pred]. *)
Definition sigmoid_cross_entropy_delta (y y_pred : value R) : result (value R) :=
  let! a := v_sub (lit 1) y_pred in
  let! l := v_mul y a in
  let! b := v_sub (lit 1) y in
  let! r := v_mul b y_pred in
  v_sub l r.

(** Minus the loss gradient, divided by 4. *)
Definition negated_gradient_over_4 (c : cost_fields) (y y_pred : value R)
  : eff world (value R) :=
  do! g := call_cost c y y_pred in
  elift (v_div (v_neg g) (lit 4)).

(** The loss gradient divided by 4, without the sign. *)
Definition raw_gradient_over_4 (c : cost_fields) (y y_pred : value R)
  : eff world (value R) :=
  do! g := call_cost c y y_pred in
  elift (v_div g (lit 4)).

(** Minus the loss gradient times the derivative of the layer [r] at the
    prediction. *)
Definition negated_gradient_times_derivative (c : cost_fields) (r : option nat)
    (y y_pred : value R) : eff world (value R) :=
  do! g := call_cost c y y_pred in
  do! rd := derivative_of r y_pred in
  elift (v_mul (v_neg g) rd).

End WithScalar.
Arguments cost_fields R : clear implicits.
Arguments layer R P : clear implicits.
Arguments world R P : clear implicits.
End Chain.

(** Concrete layer chains. *)

Module ChainExamples.
Import NdArray Values Cost Chain.
Local Open Scope nat_scope.

Definition empty_world : world Qc unit := mkWorld ∅ None.

(** A Sigmoid layer (object 0) with a Dropout sub-layer (object 1), as the
    constructors leave them. *)
Definition short_chain : world Qc unit :=
  fst ((do! s := Layer_init "Sigmoid" tt (pure_method Sigmoid_derivative) in
        Dropout_init (Some s) (qc 1 2) tt) empty_world).

(** The same chain closed by a CostLayer (object 2) with the negative
    log-likelihood loss, as the constructors leave it. *)
Definition fresh_chain : world Qc unit :=
  fst (CostLayer_init (Some 1) "Log Likelihood" tt short_chain).

(** The chain after both sub-layers were given the Sigmoid layer as
    root. *)
Definition rooted_chain : world Qc unit :=
  fst ((do! _ := root_setter 1 (Some 0) in root_setter 2 (Some 0)) fresh_chain).

(** The short chain next to a Tanh layer (object 2) that the Dropout
    sub-layer was given as root. *)
Definition misrooted_chain : world Qc unit :=
  fst ((do! t := Layer_init "Tanh" tt (pure_method Tanh_derivative) in
        root_setter 1 (Some t)) short_chain).

Definition y_act : value Qc := VMatrix [[qc 1 2]].
Definition w_next : value Qc := VMatrix [[qc 2 1]].
Definition delta_next : value Qc := VMatrix [[1%Qc]].

Definition y_target : value Qc := VMatrix [[1%Qc; 0%Qc]].
Definition y_hat : value Qc := VMatrix [[qc 1 2; qc 1 2]].

(** The objects of the chains: the Dropout object with child [c] and root
    reference [r], the CostLayer object with root reference [r], and the
    Sigmoid object. *)
Definition dropout_object (c r : option nat) : layer Qc unit :=
  mkLayer "Dropout" true (Some 0) c r None tt
          (pure_method (Dropout_derivative (s_div s_one (s_sub s_one (qc 1 2))))).

Definition cost_object (r : option nat) : layer Qc unit :=
  mkLayer "CostLayer" true (Some 1) None r
          (Some (mkCostFields "Log Likelihood" _log_likelihood)) tt
          (pure_method CostLayer_derivative).

Definition sigmoid_object : layer Qc unit :=
  mkLayer "Sigmoid" false None (Some 1) None None tt (pure_method Sigmoid_derivative).

End ChainExamples.

(** ** Normalize

    The forward pass of the batch normalisation sub-layer on a two-axis
    input, as [Layer.activate] passes it. [np.sqrt] is a function of the
    scalar type. The learning rate and the optimizers, which the forward
    pass does not read, are left out of the object. *)

Class Sqrt (R : Type) : Type := s_sqrt : R -> R.

Module Norm.
Import NdArray Values.
Local Open Scope nat_scope.
Section WithScalar.
Context {R : Type} `{Scalar R} `{Sqrt R}.

Record Normalize : Type := mkNormalize {
  sample_mean : option (value R);
  sample_var : option (value R);
  running_mean : option (value R);
  running_var : option (value R);
  x_cache : option (value R);
  x_normalized_cache : option (value R);
  _eps : R;
  gamma : value R;
  beta : value R;
  _momentum : R
}.

Definition set_sample (st : Normalize) (m v : option (value R)) : Normalize :=
  mkNormalize m v (running_mean st) (running_var st) (x_cache st)
              (x_normalized_cache st) (_eps st) (gamma st) (beta st) (_momentum st).

Definition set_running (st : Normalize) (m v : option (value R)) : Normalize :=
  mkNormalize (sample_mean st) (sample_var st) m v (x_cache st)
              (x_normalized_cache st) (_eps st) (gamma st) (beta st) (_momentum st).

Definition set_running_mean (st : Normalize) (m : option (value R)) : Normalize :=
  set_running st m (running_var st).

Definition set_running_var (st : Normalize) (v : option (value R)) : Normalize :=
  set_running st (running_mean st) v.

Definition set_caches (st : Normalize) (x xn : option (value R)) : Normalize :=
  mkNormalize (sample_mean st) (sample_var st) (running_mean st) (running_var st)
              x xn (_eps st) (gamma st) (beta st) (_momentum st).

(** [np.zeros(n)] and [np.ones(n)]. *)
Definition zeros (n : nat) : value R := VVector (replicate n s_zero).
Definition ones (n : nat) : value R := VVector (replicate n s_one).

(** [Normalize.__init__] for [shape[1] = n]. *)
Definition Normalize_init (n : nat) (eps momentum : R) : Normalize :=
  mkNormalize None None None None None None eps (ones n) (zeros n) momentum.

(** [x.shape[1]] of a two-axis array. *)
Definition shape1 (x : matrix R) : nat := length (default [] (head x)).

(** The mean of a column and its variance, the mean of the squared
    deviations from the mean. *)
Definition mean (col : list R) : R := s_div (asum col) (s_of_nat (length col)).

Definition var (col : list R) : R :=
  mean (map (fun a => s_mul (s_sub a (mean col)) (s_sub a (mean col))) col).

(** [np.mean(x, axis=0, keepdims=True)] and [np.var(x, axis=0, keepdims=True)]. *)
Definition mean_axis0 (x : matrix R) : value R := VMatrix [map mean (mat_T x)].
Definition var_axis0 (x : matrix R) : value R := VMatrix [map var (mat_T x)].

(** [np.sqrt]. *)
Definition v_sqrt : value R -> value R := v_map s_sqrt.

(** An attribute used as an operand: [None] is no number. *)
Definition operand (o : option (value R)) : result (value R) :=
  match o with
  | Some v => Ok v
  | None => Raise TypeError
  end.

(** [(x - m) / np.sqrt(v + eps)]. *)
Definition normalized (eps : R) (x : matrix R) (m v : option (value R))
  : result (value R) :=
  let! m' := operand m in
  let! a := v_sub (VMatrix x) m' in
  let! v' := operand v in
  let! b := v_add v' (VScalar eps) in
  v_div a (v_sqrt b).

(** [gamma * x_normalized + beta]. *)
Definition scaled (st : Normalize) (xn : value R) : result (value R) :=
  let! g := v_mul (gamma st) xn in v_add g (beta st).

(** [momentum * running + (1 - momentum) * sample]. *)
Definition moving_average (momentum : R) (running sample : option (value R))
  : result (value R) :=
  let! r := operand running in
  let! a := v_mul (VScalar momentum) r in
  let! s := operand sample in
  let! b := v_mul (VScalar (s_sub s_one momentum)) s in
  v_add a b.

(** The first statement of [_activate]. *)
Definition init_running (x : matrix R) (st : Normalize) : Normalize :=
  match running_mean st, running_var st with
  | Some _, Some _ => st
  | _, _ => set_running st (Some (zeros (shape1 x))) (Some (zeros (shape1 x)))
  end.

Definition modify (f : Normalize -> Normalize) : eff Normalize unit :=
  fun st => (f st, Ok tt).

Definition read {A : Type} (f : Normalize -> A) : eff Normalize A :=
  fun st => (st, Ok (f st)).

(** [Normalize._activate]. *)
Definition _activate (x : matrix R) (predict : bool) : eff Normalize (value R) :=
  do! _ := modify (init_running x) in
  if negb predict then
    do! _ := modify (fun st => set_sample st (Some (mean_axis0 x)) (Some (var_axis0 x))) in
    do! st := read id in
    do! x_normalized := elift (normalized (_eps st) x (sample_mean st) (sample_var st)) in
    do! _ := modify (fun st => set_caches st (Some (VMatrix x)) (Some x_normalized)) in
    do! out := elift (scaled st x_normalized) in
    do! rm := elift (moving_average (_momentum st) (running_mean st) (sample_mean st)) in
    do! _ := modify (fun st => set_running_mean st (Some rm)) in
    do! rv := elift (moving_average (_momentum st) (running_var st) (sample_var st)) in
    do! _ := modify (fun st => set_running_var st (Some rv)) in
    eret out
  else
    do! st := read id in
    do! x_normalized := elift (normalized (_eps st) x (running_mean st) (running_var st)) in
    elift (scaled st x_normalized).

End WithScalar.
Arguments Normalize R : clear implicits.
End Norm.

(** Real numbers as scalars, with the square root of the reals. *)

Module RealScalar.

#[export] Instance R_Scalar : Scalar Rdefinitions.R := {
  s_zero := Rdefinitions.IZR 0;
  s_one := Rdefinitions.IZR 1;
  s_add := Rdefinitions.Rplus;
  s_sub := Rdefinitions.Rminus;
  s_mul := Rdefinitions.Rmult;
  s_div := Rdefinitions.Rdiv;
  s_opp := Rdefinitions.Ropp;
  s_eqb := fun a b => if RIneq.Req_dec_T a b then true else false;
  s_ltb := fun a b => if RIneq.Rlt_dec a b then true else false;
  s_of_nat := Raxioms.INR
}.

#[export] Instance R_Sqrt : Sqrt Rdefinitions.R := R_sqrt.sqrt.

End RealScalar.

(** Concrete data for Normalize: a sub-layer of two units as the
    constructor leaves it, one that has running estimates, and a batch of
    one sample. *)

Module NormExamples.
Import NdArray Values Norm RealScalar.
Local Open Scope nat_scope.

Definition r_of (z : Z) : Rdefinitions.R := Rdefinitions.IZR z.

(** [eps = 1e-8] and [momentum = 0.9], the defaults of the constructor. *)
Definition eps_default : Rdefinitions.R := Rdefinitions.Rdiv (r_of 1) (r_of 100000000).
Definition momentum_default : Rdefinitions.R := Rdefinitions.Rdiv (r_of 9) (r_of 10).

Definition norm_fresh : Normalize Rdefinitions.R :=
  Normalize_init 2 eps_default momentum_default.

Definition norm_trained : Normalize Rdefinitions.R :=
  set_running norm_fresh (Some (VMatrix [[r_of 1; r_of 2]]))
              (Some (VMatrix [[r_of 3; r_of 8]])).

Definition x_batch : matrix Rdefinitions.R := [[r_of 5; r_of 8]].

End NormExamples.

(** More concrete data for MaxPool: a 3x3 image and a 1x1 pooling node
    with stride 2, whose four windows leave the middle row and the middle
    column out. *)

Module PoolExamples.
Import NdArray Pool Examples.
Local Open Scope nat_scope.

Definition x_3x3 : tensor4 Qc :=
  [[ map (map zq) [[1; 2; 3]; [4; 5; 6]; [7; 8; 9]]%Z ]].

Definition pool_1x1_s2 : MaxPool (R := Qc) :=
  mkMaxPool 2 (1, 1) 2 2 false None None None.

(** One sample, one channel, a 5x5 image whose upper-left 2x2 window
    holds its maximum 7 three times. *)
Definition x_gap : tensor4 Qc :=
  [[ map (map zq) [[7; 7; 3; 4; 5]; [1; 7; 8; 9; 10]; [11; 12; 13; 14; 15];
                   [16; 17; 18; 19; 20]; [21; 22; 23; 24; 25]]%Z ]].

(** A 2x2 pooling node with stride 3 on a 5x5 input: the four windows
    are apart from each other. *)
Definition pool_2x2_s3 : MaxPool (R := Qc) :=
  mkMaxPool 3 (2, 2) 2 2 false None None None.

End PoolExamples.

(** ** More of the layer chain: the last sub-layer and what a method
    leaves in place *)

Module ChainMore.
Import NdArray Values Cost Chain.
Local Open Scope nat_scope.
Section WithScalar.
Context {R : Type} `{Scalar R}.
Context {P : Type}.

(** The loop of the [last_sub_layer] property, from a child. [None] is the
    walk cut off after [fuel] steps. *)
Fixpoint child_walk (fuel : nat) (objs : gmap nat (layer R P)) (c : nat)
  : option (result nat) :=
  match fuel with
  | 0 => None
  | S fuel' =>
      match objs !! c with
      | None => Some (Raise KeyError)
      | Some o =>
          match child o with
          | None => Some (Ok c)
          | Some c' => child_walk fuel' objs c'
          end
      end
  end.

(** The [last_sub_layer] property: [None] for a layer without child,
    otherwise the end of the chain of children. *)
Definition last_sub_layer (fuel : nat) (w : world R P) (self : nat)
  : option (result (option nat)) :=
  match objects w !! self with
  | None => Some (Raise KeyError)
  | Some me =>
      match child me with
      | None => Some (Ok None)
      | Some c =>
          match child_walk fuel (objects w) c with
          | None => None
          | Some (Ok l) => Some (Ok (Some l))
          | Some (Raise e) => Some (Raise e)
          end
      end
  end.

(** [descends_to objs c l n]: following child links from [c] reaches, after
    [n] links, the object [l] that has no child. *)
Inductive descends_to (objs : gmap nat (layer R P)) : nat -> nat -> nat -> Prop :=
| descends_here (c : nat) (o : layer R P) :
    objs !! c = Some o -> child o = None -> descends_to objs c c 0
| descends_down (c c' l n : nat) (o : layer R P) :
    objs !! c = Some o -> child o = Some c' -> descends_to objs c' l n ->
    descends_to objs c l (S n).

(** Two states hold the same objects with the same class, links, stored
    root, cost function and method; only the attributes that the methods
    of the classes keep for themselves may differ. *)
Definition same_structure (w w' : world R P) : Prop :=
  forall l : nat,
    match objects w !! l, objects w' !! l with
    | Some o, Some o' => o' = set_fields o (fields o')
    | None, None => True
    | _, _ => False
    end.

(** A method that keeps the structure of every state it runs in. *)
Definition keeps_structure {A : Type} (m : eff (world R P) A) : Prop :=
  forall w, same_structure w (fst (m w)).

End WithScalar.
End ChainMore.

(** ** Forward passes of ReLU and Dropout *)

(** Two more laws of an exact field, used for products with the rows of a
    diagonal matrix. *)
Class ScalarMulLaws (R : Type) `{Scalar R} : Prop := {
  s_mul_1_r : forall a : R, s_mul a s_one = a;
  s_mul_0_r : forall a : R, s_mul a s_zero = s_zero
}.

Module Forward.
Import NdArray Values Norm.
Local Open Scope nat_scope.
Section WithScalar.
Context {R : Type} `{Scalar R}.

(** [ReLU._activate]: [np.maximum(0, x)]. *)
Definition ReLU_activate (x : value R) : value R := v_map (s_max s_zero) x.

(** [np.eye(n)]. *)
Definition eye (n : nat) : matrix R :=
  map (fun k => map (fun j => s_of_bool (k =? j)) (seq 0 n)) (seq 0 n).

(** [np.diag(mask) * prob_inv] for a one-axis boolean [mask]: the
    boolean matrix with [mask] on its diagonal, times a number. *)
Definition scaled_diag (mask : list bool) (prob_inv : R) : matrix R :=
  imap (fun k _ =>
          imap (fun j mj => s_mul (s_of_bool ((k =? j) && mj)) prob_inv) mask)
       mask.

(** [Dropout._activate] on a two-axis input. The draw
    [np.random.random(n)] is an argument: its sample [j] is [u j]. *)
Definition Dropout_activate (prob prob_inv : R) (u : nat -> R) (x : matrix R)
    (predict : bool) : result (matrix R) :=
  let n := shape1 x in
  let _diag :=
    if negb predict then
      scaled_diag (map (fun j => negb (s_ltb (u j) prob)) (seq 0 n)) prob_inv
    else eye n in
  mat_dot x _diag.

End WithScalar.
End Forward.

(** ** Shapes that the Normalize forward pass works on *)

Module NormMore.
Import NdArray Values Norm.
Local Open Scope nat_scope.
Section WithScalar.
Context {R : Type} `{Scalar R}.

(** A one-axis array of [n] elements, or a two-axis array of one row of
    [n] elements: the shapes [(n,)] and [(1, n)]. *)
Definition row_of (n : nat) (v : value R) : Prop :=
  match v with
  | VVector l => length l = n
  | VMatrix [l] => length l = n
  | _ => False
  end.

(** The scale, the shift and the running estimates of a sub-layer of [n]
    units, once they are set, have one of these shapes. *)
Definition well_shaped (n : nat) (st : Normalize R) : Prop :=
  row_of n (gamma st) /\ row_of n (beta st) /\
  match running_mean st with Some v => row_of n v | None => True end /\
  match running_var st with Some v => row_of n v | None => True end.

End WithScalar.
End NormMore.

(** ** A cost function set by the user *)

Module CostSetter.
Import NdArray Values Cost Chain.
Local Open Scope nat_scope.
Section WithScalar.
Context {R : Type} `{Scalar R}.
Context {P : Type}.

(** [CostLayer.set_cost_function_derivative(func, name)]; only a CostLayer
    has the method. *)
Definition set_cost_function_derivative (self : nat)
    (func : option (list nat) -> value R -> value R
            -> option (list nat) * result (value R))
    (name : option string) : eff (world R P) unit :=
  fun w =>
    match objects w !! self with
    | None => (w, Raise KeyError)
    | Some me =>
        match cost me with
        | None => (w, Raise AttributeError)
        | Some _ =>
            let name := match name with
                        | None => "Custom Cost Function"%string
                        | Some n => n
                        end in
            (mkWorld (<[self := set_cost me (Some (mkCostFields name func))]> (objects w))
                     (batch_range w),
             Ok tt)
        end
    end.

End WithScalar.
End CostSetter.

(** * Properties *)

(** ** Shape validation of ConvLayer and ConvPoolLayer *)

Module ConvShapeFacts.
Import PyInt ConvShape.

Lemma py_mod_ok (a b : Z) : b <> 0 -> py_mod a b = Ok (a mod b).
Proof. intros Hb. unfold py_mod. destruct (Z.eqb_spec b 0); [contradiction | reflexivity]. Qed.

Lemma py_int_truediv_ok (a b : Z) : b <> 0 -> py_int_truediv a b = Ok (a ÷ b).
Proof. intros Hb. unfold py_int_truediv. destruct (Z.eqb_spec b 0); [contradiction | reflexivity]. Qed.

(** What the compatibility test of [ConvLayer.feed_shape] decides: the
    padded WIDTH is paired with the filter HEIGHT and the padded HEIGHT
    with the filter WIDTH. *)
Lemma ConvLayer_feed_shape_raises_iff (s p c H W f kh kw : Z) :
  s <> 0 ->
  ConvLayer_feed_shape s p (c, H, W) (f, kh, kw) = Raise BuildLayerError <->
  ((W + 2 * p - kh) mod s <> 0 \/ (H + 2 * p - kw) mod s <> 0).
Proof.
  intros Hs. unfold ConvLayer_feed_shape.
  rewrite !py_mod_ok, !py_int_truediv_ok by assumption. cbn [rbind].
  destruct (Z.eqb_spec ((W + 2 * p - kh) mod s) 0) as [E1 | E1]; cbn [negb rbind].
  - destruct (Z.eqb_spec ((H + 2 * p - kw) mod s) 0) as [E2 | E2]; cbn [negb].
    + split; [discriminate | intros [? | ?]; contradiction].
    + split; [auto | reflexivity].
  - split; [auto | reflexivity].
Qed.

Lemma ConvLayer_feed_shape_ok (s p c H W f kh kw : Z) (r : Z * Z * Z * Z) :
  ConvLayer_feed_shape s p (c, H, W) (f, kh, kw) = Ok r ->
  s <> 0 /\ r = (c, f, (H + 2 * p - kh) ÷ s + 1, (W + 2 * p - kw) ÷ s + 1).
Proof.
  unfold ConvLayer_feed_shape, py_mod, py_int_truediv.
  destruct (Z.eqb_spec s 0) as [-> | Hs]; cbn [rbind]; [discriminate |].
  destruct (negb (_ =? 0)); cbn [rbind].
  - discriminate.
  - destruct (negb (_ =? 0)); [discriminate |].
    intros [= <-]. split; [assumption | reflexivity].
Qed.

Lemma ConvPoolLayer_feed_shape_ok (s p c H W ph pw : Z) (r : Z * Z * Z * Z) :
  ConvPoolLayer_feed_shape s p (c, H, W) (ph, pw) = Ok r ->
  s <> 0 /\ r = (c, c, (H - ph) ÷ s + 1, (W - pw) ÷ s + 1).
Proof.
  unfold ConvPoolLayer_feed_shape, py_mod, py_int_truediv.
  destruct (Z.eqb_spec s 0) as [-> | Hs]; cbn [rbind]; [discriminate |].
  destruct (negb (_ =? 0)); cbn [rbind].
  - discriminate.
  - destruct (negb (_ =? 0)); [discriminate |].
    intros [= <-]. split; [assumption | reflexivity].
Qed.

(** C1 (the code departs from the claim). A 4x5 input with a 2x3 filter,
    stride 2 and no padding satisfies both conditions of the claim,
    (4 - 2) mod 2 = 0 and (5 - 3) mod 2 = 0, and the construction raises
    the build error; a 5x4 input with the same filter violates the height
    condition, (5 - 2) mod 2 = 1, and the construction succeeds. The same
    happens in [ConvPoolLayer]. *)
Theorem C1_feed_shape_pairs_width_with_filter_height :
  ((4 + 2 * 0 - 2) mod 2 = 0 /\ (5 + 2 * 0 - 3) mod 2 = 0 /\
   ConvLayer_init (ConvShape2 (1, 4, 5) (1, 2, 3)) 2 0 = Raise BuildLayerError /\
   ConvPoolLayer_init (PoolShape2 (1, 4, 5) (2, 3)) 2 0 = Raise BuildLayerError) /\
  ((5 + 2 * 0 - 2) mod 2 <> 0 /\
   ConvLayer_init (ConvShape2 (1, 5, 4) (1, 2, 3)) 2 0
     = Ok (mkConvLayer (ConvShape2 (1, 5, 4) (1, 2, 3)) 2 0
             (Some 1) (Some 1) (Some 2) (Some 1)) /\
   ConvPoolLayer_init (PoolShape2 (1, 5, 4) (2, 3)) 2 0
     = Ok (mkConvPoolLayer (PoolShape2 (1, 5, 4) (2, 3)) 2 0
             (Some 1) (Some 1) (Some 2) (Some 1))).
Proof. repeat split; try reflexivity. discriminate. Qed.

(** The sizes a constructed layer holds: the quotient of [int(a / s)]
    is truncated toward zero. *)
Lemma ConvLayer_init_out_size (c H W f kh kw s p : Z) (l : ConvLayer) :
  ConvLayer_init (ConvShape2 (c, H, W) (f, kh, kw)) s p = Ok l ->
  s <> 0 /\
  conv_out_h l = Some ((H + 2 * p - kh) ÷ s + 1) /\
  conv_out_w l = Some ((W + 2 * p - kw) ÷ s + 1).
Proof.
  unfold ConvLayer_init.
  destruct (ConvLayer_feed_shape s p (c, H, W) (f, kh, kw)) as [r | e] eqn:E;
    cbn [rbind]; [| discriminate].
  apply ConvLayer_feed_shape_ok in E as [Hs ->]. intros [= <-]. cbn.
  repeat split; assumption || reflexivity.
Qed.

Lemma ConvPoolLayer_init_out_size (c H W ph pw s p : Z) (l : ConvPoolLayer) :
  ConvPoolLayer_init (PoolShape2 (c, H, W) (ph, pw)) s p = Ok l ->
  s <> 0 /\
  pool_out_h l = Some ((H - ph) ÷ s + 1) /\
  pool_out_w l = Some ((W - pw) ÷ s + 1).
Proof.
  unfold ConvPoolLayer_init.
  destruct (ConvPoolLayer_feed_shape s p (c, H, W) (ph, pw)) as [r | e] eqn:E;
    cbn [rbind]; [| discriminate].
  apply ConvPoolLayer_feed_shape_ok in E as [Hs ->]. intros [= <-]. cbn.
  repeat split; assumption || reflexivity.
Qed.

(** An exact quotient is the same truncated and floored. *)
Lemma quot_exact_is_div (a s : Z) : s <> 0 -> a mod s = 0 -> a ÷ s = a / s.
Proof.
  intros Hs Hm. apply Z.div_exact in Hm; [| assumption].
  remember (a / s) as q eqn:Eq. rewrite Hm, Z.mul_comm. apply Z.quot_mul. assumption.
Qed.

(** C8, as stated, fails for a pooling layer that has padding. A 1x1
    input with a 3x3 window, stride 3 and padding 1 meets the invariant on
    both axes, (1 + 2*1 - 3) mod 3 = 0, so the test of [feed_shape]
    passes (the shape is square: it passes whichever way height and width
    are paired). The layer is constructed with [out_h] = [out_w] =
    int(-2 / 3) + 1 = 1, and the formula of the claim gives
    floor(-2 / 3) + 1 = 0. *)
Lemma C8_counterexample :
  0 < 3 /\ 0 <= 1 /\ (1 + 2 * 1 - 3) mod 3 = 0 /\
  ConvPoolLayer_init (PoolShape2 (1, 1, 1) (3, 3)) 3 1
    = Ok (mkConvPoolLayer (PoolShape2 (1, 1, 1) (3, 3)) 3 1
            (Some 1) (Some 1) (Some 1) (Some 1)) /\
  Some 1 <> Some ((1 - 3) / 3 + 1).
Proof. repeat split; try reflexivity; try lia. discriminate. Qed.

(** C8 (amended). A convolutional layer that is constructed and meets
    the invariant, (H + 2p - kh) mod s = 0 and (W + 2p - kw) mod s = 0,
    has out_h = floor((H + 2p - kh) / s) + 1 and
    out_w = floor((W + 2p - kw) / s) + 1: the quotients are exact. A
    pooling layer that is constructed has
    out_h = trunc((H - ph) / s) + 1 and out_w = trunc((W - pw) / s) + 1,
    the padding left out and the quotient truncated toward zero; this is
    the floor formula when the stride divides H - ph (W - pw), as it does
    under the invariant with no padding, and when the stride is positive
    and the window is not larger than the input. *)
Theorem C8_output_size_floor_when_exact_or_window_fits :
  (forall c H W f kh kw s p l,
     ConvLayer_init (ConvShape2 (c, H, W) (f, kh, kw)) s p = Ok l ->
     ((H + 2 * p - kh) mod s = 0 ->
      conv_out_h l = Some ((H + 2 * p - kh) / s + 1)) /\
     ((W + 2 * p - kw) mod s = 0 ->
      conv_out_w l = Some ((W + 2 * p - kw) / s + 1))) /\
  (forall c H W ph pw s p l,
     ConvPoolLayer_init (PoolShape2 (c, H, W) (ph, pw)) s p = Ok l ->
     pool_out_h l = Some ((H - ph) ÷ s + 1) /\
     pool_out_w l = Some ((W - pw) ÷ s + 1) /\
     ((H - ph) mod s = 0 -> pool_out_h l = Some ((H - ph) / s + 1)) /\
     ((W - pw) mod s = 0 -> pool_out_w l = Some ((W - pw) / s + 1)) /\
     (p = 0 -> (H + 2 * p - ph) mod s = 0 -> pool_out_h l = Some ((H - ph) / s + 1)) /\
     (p = 0 -> (W + 2 * p - pw) mod s = 0 -> pool_out_w l = Some ((W - pw) / s + 1)) /\
     (0 < s -> ph <= H -> pool_out_h l = Some ((H - ph) / s + 1)) /\
     (0 < s -> pw <= W -> pool_out_w l = Some ((W - pw) / s + 1))).
Proof.
  split.
  - intros c H W f kh kw s p l Hl.
    apply ConvLayer_init_out_size in Hl as (Hs & -> & ->).
    split; intros Hm; rewrite (quot_exact_is_div _ _ Hs Hm); reflexivity.
  - intros c H W ph pw s p l Hl.
    apply ConvPoolLayer_init_out_size in Hl as (Hs & -> & ->).
    split; [reflexivity |]. split; [reflexivity |].
    split; [intros Hm; rewrite (quot_exact_is_div _ _ Hs Hm); reflexivity |].
    split; [intros Hm; rewrite (quot_exact_is_div _ _ Hs Hm); reflexivity |].
    split.
    { intros -> Hm. replace (H + 2 * 0 - ph) with (H - ph) in Hm by lia.
      rewrite (quot_exact_is_div _ _ Hs Hm). reflexivity. }
    split.
    { intros -> Hm. replace (W + 2 * 0 - pw) with (W - pw) in Hm by lia.
      rewrite (quot_exact_is_div _ _ Hs Hm). reflexivity. }
    split; intros Hpos Hfit; rewrite Z.quot_div_nonneg by lia; reflexivity.
Qed.

Lemma C8_output_size_floor_when_exact_or_window_fits_witness :
  (exists l, ConvLayer_init (ConvShape2 (3, 7, 11) (4, 3, 5)) 2 1 = Ok l /\
             conv_out_h l = Some 4 /\ conv_out_w l = Some 5) /\
  (exists l, ConvPoolLayer_init (PoolShape2 (1, 5, 8) (2, 2)) 3 0 = Ok l /\
             pool_out_h l = Some 2 /\ pool_out_w l = Some 3).
Proof.
  split.
  - eexists. split; [reflexivity |].
    destruct (proj1 C8_output_size_floor_when_exact_or_window_fits
                3 7 11 4 3 5 2 1 _ eq_refl) as (Hh & Hw).
    split; [apply Hh; reflexivity | apply Hw; reflexivity].
  - eexists. split; [reflexivity |].
    destruct (proj2 C8_output_size_floor_when_exact_or_window_fits
                1 5 8 2 2 3 0 _ eq_refl) as (_ & _ & _ & _ & Hh & Hw & _).
    split; [apply Hh; reflexivity | apply Hw; reflexivity].
Defined.

End ConvShapeFacts.

(** ** Loops and traversals *)

Module LoopFacts.

Lemma rbind_ok {A B : Type} (r : result A) (k : A -> result B) (b : B) :
  rbind r k = Ok b <-> exists a, r = Ok a /\ k a = Ok b.
Proof.
  destruct r as [a | e]; cbn; split.
  - intros Hk. exists a. auto.
  - intros (a' & [= <-] & Hk). exact Hk.
  - discriminate.
  - intros (a' & [=] & _).
Qed.

Lemma mapM_ok {A B : Type} (f : A -> result B) (g : A -> B) (l : list A) :
  (forall a, a ∈ l -> f a = Ok (g a)) -> mapM f l = Ok (map g l).
Proof.
  induction l as [| a l IH]; intros Hf; cbn; [reflexivity |].
  rewrite Hf by left. cbn. rewrite IH; [reflexivity |].
  intros b Hb. apply Hf. right. exact Hb.
Qed.

Lemma imapM_ok {A B : Type} (f : nat -> A -> result B) (g : nat -> A -> B) (l : list A) :
  (forall i a, l !! i = Some a -> f i a = Ok (g i a)) -> imapM f l = Ok (imap g l).
Proof.
  intros Hf. unfold imapM.
  rewrite (mapM_ok _ (fun ia => g (fst ia) (snd ia))).
  - f_equal. clear Hf. revert g. induction l as [| a l IH]; intros g; [reflexivity |].
    cbn [length seq zip zip_with map imap]. f_equal.
    rewrite <- seq_shift, zip_with_fmap_l.
    specialize (IH (g ∘ S)). unfold zip in IH.
    rewrite <- IH. clear IH.
    generalize (seq 0 (length l)). intros s. revert l.
    induction s as [| x s IHs]; intros [| b l]; cbn; try reflexivity. f_equal. apply IHs.
  - intros [i a] Hin. cbn.
    apply list_elem_of_lookup in Hin as [k Hk].
    apply lookup_zip_with_Some in Hk as (i' & a' & [= <- <-] & Hi & Ha).
    apply Hf. apply lookup_seq in Hi as [-> _]. exact Ha.
Qed.

Lemma for_each_app {S I : Type} (l1 l2 : list I) (body : I -> S -> result S) (s : S) :
  for_each (l1 ++ l2) body s = let! s' := for_each l1 body s in for_each l2 body s'.
Proof.
  revert s. induction l1 as [| i l1 IH]; intros s; cbn; [reflexivity |].
  destruct (body i s) as [s' | e]; cbn; [apply IH | reflexivity].
Qed.

(** Two nested loops are one loop over the pairs in row-major order. *)
Lemma for_each_nested {S I J : Type} (l1 : list I) (l2 : list J)
    (body : I -> J -> S -> result S) (s : S) :
  for_each l1 (fun i => for_each l2 (body i)) s
  = for_each (list_prod l1 l2) (fun ij => body (fst ij) (snd ij)) s.
Proof.
  revert s. induction l1 as [| i l1 IH]; intros s; cbn; [reflexivity |].
  rewrite for_each_app.
  assert (E : for_each (map (fun y => (i, y)) l2) (fun ij => body (fst ij) (snd ij)) s
              = for_each l2 (body i) s).
  { clear IH. revert s. induction l2 as [| j l2 IH2]; intros s; cbn; [reflexivity |].
    destruct (body i j s); cbn; [apply IH2 | reflexivity]. }
  rewrite E. destruct (for_each l2 (body i) s); cbn; [apply IH | reflexivity].
Qed.

Lemma for_each_ext {S I : Type} (l : list I) (b1 b2 : I -> S -> result S) (s : S) :
  (forall i s, b1 i s = b2 i s) -> for_each l b1 s = for_each l b2 s.
Proof.
  intros E. revert s. induction l as [| i l IH]; intros s; cbn; [reflexivity |].
  rewrite E. destruct (b2 i s); cbn; [apply IH | reflexivity].
Qed.

(** A loop whose body always succeeds is a left fold. *)
Lemma for_each_total {S I : Type} (l : list I) (body : I -> S -> result S)
    (f : I -> S -> S) (s : S) :
  (forall i s, i ∈ l -> body i s = Ok (f i s)) ->
  for_each l body s = Ok (foldl (fun s i => f i s) s l).
Proof.
  revert s. induction l as [| i l IH]; intros s Hb; cbn; [reflexivity |].
  rewrite Hb by left. cbn. apply IH. intros j s' Hj. apply Hb. right. exact Hj.
Qed.

End LoopFacts.

(** ** MaxPool *)

Import NdArray Pool LoopFacts.
Local Open Scope nat_scope.

Ltac sbind :=
  cbn [mbind option_bind rbind fmap option_fmap option_map default from_option] in *.

Section PoolFallback.
Context {R : Type} `{Scalar R}.

(** *** Reading nested arrays *)

Lemma lookup_slice {A : Type} (a b : nat) (l : list A) (i : nat) :
  slice a b l !! i = if i <? b - a then l !! (a + i) else None.
Proof.
  unfold slice. destruct (Nat.ltb_spec i (b - a)) as [Hi | Hi].
  - rewrite lookup_take_lt by exact Hi. apply lookup_drop.
  - apply lookup_take_ge. exact Hi.
Qed.

Lemma lookup_map {A B : Type} (f : A -> B) (l : list A) (i : nat) :
  map f l !! i = f <$> l !! i.
Proof. exact (list_lookup_fmap f l i). Qed.

Lemma get4_Some (x : tensor4 R) (i j r c : nat) (v : R) :
  get4 x i j r c = Some v <->
  exists xi img row, x !! i = Some xi /\ xi !! j = Some img /\ img !! r = Some row /\
                     row !! c = Some v.
Proof.
  unfold get4. split.
  - intros Hg.
    destruct (x !! i) as [xi |] eqn:Ei; cbn in Hg; [| discriminate].
    destruct (xi !! j) as [img |] eqn:Ej; cbn in Hg; [| discriminate].
    destruct (img !! r) as [row |] eqn:Er; cbn in Hg; [| discriminate].
    exists xi, img, row. auto.
  - intros (xi & img & row & -> & Hj & Hr & Hc). cbn. rewrite Hj. cbn. rewrite Hr. exact Hc.
Qed.

Lemma rect4_lookup (n ch h w : nat) (x : tensor4 R) (i j r c : nat) :
  rect4 n ch h w x -> i < n -> j < ch -> r < h -> c < w ->
  exists xi img row v, x !! i = Some xi /\ xi !! j = Some img /\ img !! r = Some row /\
                       row !! c = Some v /\ length xi = ch /\ rect2 h w img /\
                       length row = w.
Proof.
  intros [Hn Hx] Hi Hj Hr Hc.
  assert (is_Some (x !! i)) as [xi Hxi] by (apply lookup_lt_is_Some_2; lia).
  pose proof (proj1 (Forall_lookup _ _) Hx i xi Hxi) as [Hch Himgs].
  assert (is_Some (xi !! j)) as [img Himg] by (apply lookup_lt_is_Some_2; lia).
  pose proof (proj1 (Forall_lookup _ _) Himgs j img Himg) as [Hh Hrows].
  assert (is_Some (img !! r)) as [row Hrow] by (apply lookup_lt_is_Some_2; lia).
  pose proof (proj1 (Forall_lookup _ _) Hrows r row Hrow) as Hw. cbn beta in Hw.
  assert (is_Some (row !! c)) as [v Hv] by (apply lookup_lt_is_Some_2; lia).
  exists xi, img, row, v. repeat split; assumption.
Qed.

Lemma rect4_get4 (n ch h w : nat) (x : tensor4 R) (i j r c : nat) :
  rect4 n ch h w x -> i < n -> j < ch -> r < h -> c < w ->
  is_Some (get4 x i j r c).
Proof.
  intros Hx Hi Hj Hr Hc.
  destruct (rect4_lookup _ _ _ _ _ i j r c Hx Hi Hj Hr Hc)
    as (xi & img & row & v & ? & ? & ? & ? & _).
  exists v. apply get4_Some. exists xi, img, row. auto.
Qed.

Lemma get4_zeros_like4 (x : tensor4 R) (i j r c : nat) :
  get4 (zeros_like4 x) i j r c = (fun _ => s_zero) <$> get4 x i j r c.
Proof.
  unfold get4, zeros_like4. rewrite lookup_map.
  destruct (x !! i) as [xi |]; cbn; [| reflexivity].
  rewrite lookup_map. destruct (xi !! j) as [img |]; cbn; [| reflexivity].
  rewrite lookup_map. destruct (img !! r) as [row |]; cbn; [| reflexivity].
  apply lookup_map.
Qed.

(** *** The slice assignment *)

Lemma get4_assign4 (dx : tensor4 R) (i j r0 c0 : nat) (m : matrix R) (i' j' r c : nat) :
  get4 (assign4 dx i j r0 c0 m) i' j' r c
  = (fun old =>
       default old
         (if (i =? i') && (j =? j') && (r0 <=? r) && (c0 <=? c)
          then mrow ← m !! (r - r0); (mrow : list R) !! (c - c0)
          else None)) <$> get4 dx i' j' r c.
Proof.
  unfold get4, assign4.
  destruct (Nat.eqb_spec i i') as [<- | Hi]; cbn [andb].
  2:{ rewrite list_lookup_alter_ne by exact Hi.
      destruct (dx !! i') as [xi |]; cbn; [| reflexivity].
      destruct (xi !! j') as [img |]; cbn; [| reflexivity].
      destruct (img !! r) as [row |]; cbn; [| reflexivity].
      destruct (row !! c); reflexivity. }
  rewrite list_lookup_alter_eq.
  destruct (dx !! i) as [xi |]; cbn; [| reflexivity].
  destruct (Nat.eqb_spec j j') as [<- | Hj]; cbn [andb].
  2:{ rewrite list_lookup_alter_ne by exact Hj.
      destruct (xi !! j') as [img |]; cbn; [| reflexivity].
      destruct (img !! r) as [row |]; cbn; [| reflexivity].
      destruct (row !! c); reflexivity. }
  rewrite list_lookup_alter_eq.
  destruct (xi !! j) as [img |]; cbn; [| reflexivity].
  unfold assign_window. rewrite list_lookup_imap.
  destruct (img !! r) as [row |]; cbn; [| reflexivity].
  rewrite list_lookup_imap.
  destruct (row !! c) as [v |]; cbn; [| reflexivity].
  destruct (r0 <=? r), (c0 <=? c); reflexivity.
Qed.


(** *** Windows *)

Lemma window_of_entry (x : tensor4 R) (i j r0 r1 c0 c1 : nat) (w : matrix R) (r c : nat) :
  window_of x i j r0 r1 c0 c1 = Ok w -> r0 <= r -> c0 <= c ->
  (wrow ← w !! (r - r0); (wrow : list R) !! (c - c0))
  = if (r <? r1) && (c <? c1) then get4 x i j r c else None.
Proof.
  unfold window_of, index, get4. intros Hw Hr Hc.
  destruct (x !! i) as [xi |]; sbind; [| discriminate].
  destruct (xi !! j) as [img |]; sbind; [| discriminate].
  injection Hw as <-.
  rewrite lookup_map, lookup_slice.
  destruct (Nat.ltb_spec (r - r0) (r1 - r0)) as [H1 | H1];
    destruct (Nat.ltb_spec r r1) as [H2 | H2]; try lia; cbn [andb]; [| reflexivity].
  replace (r0 + (r - r0)) with r by lia.
  destruct (img !! r) as [row |]; sbind; [| destruct (c <? c1); reflexivity].
  rewrite lookup_slice.
  destruct (Nat.ltb_spec (c - c0) (c1 - c0)) as [H3 | H3];
    destruct (Nat.ltb_spec c c1) as [H4 | H4]; try lia; [| reflexivity].
  replace (c0 + (c - c0)) with c by lia. reflexivity.
Qed.

Lemma amax_nonempty (l : list R) : l <> [] -> exists m, amax l = Ok m.
Proof. destruct l as [| a l]; [congruence | intros _; eexists; reflexivity]. Qed.

(** A window that starts inside a rectangular input has a maximum. *)
Lemma window_max_ok (n ch h w : nat) (x : tensor4 R) (sd ph pw i j k l : nat) :
  rect4 n ch h w x -> i < n -> j < ch -> k * sd < h -> l * sd < w -> 0 < ph -> 0 < pw ->
  exists win mx,
    window_of x i j (k * sd) (ph + k * sd) (l * sd) (pw + l * sd) = Ok win /\
    amax2 win = Ok mx /\ window_max x sd ph pw i j k l = Ok mx.
Proof.
  intros Hx Hi Hj Hk Hl Hph Hpw.
  destruct (rect4_lookup _ _ _ _ _ i j (k * sd) (l * sd) Hx Hi Hj Hk Hl)
    as (xi & img & row & v & Hxi & Himg & Hrow & Hv & _).
  unfold window_max, window_of, index. rewrite Hxi. cbn. rewrite Himg. cbn.
  eexists. 
  assert (Hne : concat (map (slice (l * sd) (pw + l * sd))
                          (slice (k * sd) (ph + k * sd) img)) <> []).
  { unfold slice at 2.
    replace (ph + k * sd - k * sd) with (S (ph - 1)) by lia.
    rewrite (drop_S _ _ _ Hrow). cbn.
    unfold slice at 1. replace (pw + l * sd - l * sd) with (S (pw - 1)) by lia.
    rewrite (drop_S _ _ _ Hv). cbn. discriminate. }
  destruct (amax_nonempty _ Hne) as [mx Hmx].
  exists mx. unfold amax2. rewrite Hmx. auto.
Qed.

Lemma delta_at_get4 (d : tensor4 R) (i j k l : nat) (v : R) :
  get4 d i j k l = Some v -> delta_at (Arr4 d) i j k l = Ok v.
Proof.
  intros (a & b & c & Ha & Hb & Hc & Hv)%get4_Some.
  unfold delta_at, index. rewrite Ha. cbn. rewrite Hb. cbn. rewrite Hc. cbn.
  rewrite Hv. reflexivity.
Qed.

(** The value a window's assignment puts at input position [(r, c)]:
    [(x[r, c] == max) * delta[k, l]] inside the window, nothing outside. *)
Lemma window_gradient_entry (n ch h w : nat) (x d : tensor4 R)
    (sd ph pw i j k l : nat) (dv : R) :
  rect4 n ch h w x -> i < n -> j < ch -> k * sd < h -> l * sd < w -> 0 < ph -> 0 < pw ->
  get4 d i j k l = Some dv ->
  exists g mx,
    window_gradient x (Arr4 d) sd ph pw i j k l = Ok g /\
    window_max x sd ph pw i j k l = Ok mx /\
    forall r c,
      (if (k * sd <=? r) && (l * sd <=? c)
       then grow ← g !! (r - k * sd); (grow : list R) !! (c - l * sd)
       else None)
      = if covers sd ph pw k l r c
        then (fun xv => s_mul (s_of_bool (s_eqb xv mx)) dv) <$> get4 x i j r c
        else None.
Proof.
  intros Hx Hi Hj Hk Hl Hph Hpw Hd.
  destruct (window_max_ok _ _ _ _ _ sd ph pw i j k l Hx Hi Hj Hk Hl Hph Hpw)
    as (win & mx & Hwin & Hmx & Hwm).
  unfold window_gradient. rewrite Hwin. sbind. rewrite Hmx. sbind.
  rewrite (delta_at_get4 _ _ _ _ _ _ Hd). sbind.
  eexists. exists mx. split; [reflexivity |]. split; [exact Hwm |].
  intros r c. unfold covers.
  destruct (Nat.leb_spec (k * sd) r) as [Hr | Hr]; cbn [andb]; [| reflexivity].
  destruct (Nat.leb_spec (l * sd) c) as [Hc | Hc]; cbn [andb].
  2:{ destruct (r <? ph + k * sd); reflexivity. }
  rewrite lookup_map.
  pose proof (window_of_entry _ _ _ _ _ _ _ _ r c Hwin Hr Hc) as E.
  destruct (win !! (r - k * sd)) as [wrow |]; sbind.
  - rewrite lookup_map, E.
    destruct (r <? ph + k * sd), (c <? pw + l * sd); reflexivity.
  - destruct (r <? ph + k * sd), (c <? pw + l * sd); cbn [andb] in E |- *;
      try reflexivity.
    rewrite <- E. reflexivity.
Qed.


(** *** The last writer of a sequence of assignments *)

Section LastWriter.
Context {S I V P : Type} (rd : S -> P -> option V) (f : I -> S -> S)
        (wr : I -> P -> option V).
Hypothesis rd_step :
  forall e s p, rd (f e s) p = (fun old => default old (wr e p)) <$> rd s p.

Lemma foldl_preserves_positions (L : list I) (s : S) (p : P) :
  is_Some (rd (foldl (fun s e => f e s) s L) p) <-> is_Some (rd s p).
Proof.
  revert s. induction L as [| e L IH]; intros s; cbn; [reflexivity |].
  rewrite IH, rd_step. apply fmap_is_Some.
Qed.

Lemma foldl_no_writer (L : list I) (s : S) (p : P) :
  (forall e, e ∈ L -> wr e p = None) ->
  rd (foldl (fun s e => f e s) s L) p = rd s p.
Proof.
  revert s. induction L as [| e L IH]; intros s Hno; cbn; [reflexivity |].
  rewrite IH by (intros e' He'; apply Hno; right; exact He').
  rewrite rd_step, (Hno e) by left. destruct (rd s p); reflexivity.
Qed.

Lemma foldl_last_writer (l1 l2 : list I) (e : I) (s : S) (p : P) (v : V) :
  wr e p = Some v ->
  (forall e', e' ∈ l2 -> wr e' p = None) ->
  rd (foldl (fun s e => f e s) s (l1 ++ e :: l2)) p = (fun _ => v) <$> rd s p.
Proof.
  intros He Hno. rewrite foldl_app. cbn.
  rewrite (foldl_no_writer l2 _ p Hno), rd_step, He.
  pose proof (foldl_preserves_positions l1 s p) as Hp.
  destruct (rd (foldl _ s l1) p) as [old |], (rd s p) as [old' |]; cbn; try reflexivity.
  - destruct Hp as [Hp _]. destruct Hp as [? [=]]. eauto.
  - destruct Hp as [_ Hp]. destruct Hp as [? [=]]. eauto.
Qed.

End LastWriter.

(** *** The order of the loop indices *)

Lemma list_prod_app_l {A B : Type} (a1 a2 : list A) (l2 : list B) :
  list_prod (a1 ++ a2) l2 = list_prod a1 l2 ++ list_prod a2 l2.
Proof.
  induction a1 as [| x a1 IH]; cbn; [reflexivity |].
  rewrite IH. apply app_assoc.
Qed.

Lemma list_prod_split {A B : Type} (a1 b1 : list A) (x : A) (a2 b2 : list B) (y : B) :
  list_prod (a1 ++ x :: b1) (a2 ++ y :: b2)
  = (list_prod a1 (a2 ++ y :: b2) ++ map (pair x) a2)
      ++ (x, y) :: (map (pair x) b2 ++ list_prod b1 (a2 ++ y :: b2)).
Proof.
  rewrite list_prod_app_l. cbn [list_prod]. rewrite map_app. cbn [map].
  rewrite <- !app_assoc. reflexivity.
Qed.

Lemma seq_split (n k : nat) :
  k < n -> seq 0 n = seq 0 k ++ k :: seq (S k) (n - S k).
Proof.
  intros Hk. replace n with (k + S (n - S k)) at 1 by lia.
  rewrite seq_app. reflexivity.
Qed.

Lemma for_range4 {S : Type} (n m p q : nat)
    (body : nat -> nat -> nat -> nat -> S -> result S) (s : S) :
  for_range n (fun i => for_range m (fun j => for_range p (fun k => for_range q (body i j k)))) s
  = for_each (list_prod (seq 0 n) (list_prod (seq 0 m) (list_prod (seq 0 p) (seq 0 q))))
      (fun e => body (fst e) (fst (snd e)) (fst (snd (snd e))) (snd (snd (snd e)))) s.
Proof.
  unfold for_range.
  rewrite <- (for_each_nested (seq 0 n) _
               (fun i e => body i (fst e) (fst (snd e)) (snd (snd e)))).
  apply for_each_ext. intros i s1.
  rewrite <- (for_each_nested (seq 0 m) _ (fun j e => body i j (fst e) (snd e))).
  apply for_each_ext. intros j s2.
  rewrite <- (for_each_nested (seq 0 p) _ (fun k l => body i j k l)).
  reflexivity.
Qed.


Lemma elem_of_list_prod_seq {B : Type} (n : nat) (L : list B) (i : nat) (e : B) :
  (i, e) ∈ list_prod (seq 0 n) L <-> i < n /\ e ∈ L.
Proof.
  rewrite !list_elem_of_In, in_prod_iff, in_seq.
  split; intros [? ?]; split; (lia || assumption).
Qed.

(** In the row-major order of a loop nest, what follows [(i, e)] has a
    larger first index, or the same first index and a later rest. *)
Lemma loop_split_cons {B : Type} (n i : nat) (L a b : list B) (e : B) :
  i < n -> L = a ++ e :: b ->
  exists a' b',
    list_prod (seq 0 n) L = a' ++ (i, e) :: b' /\
    forall i' e', (i', e') ∈ b' ->
      i' < n /\ e' ∈ L /\ ((i' = i /\ e' ∈ b) \/ i < i').
Proof.
  intros Hi ->. rewrite (seq_split n i Hi), list_prod_split.
  eexists _, _. split; [reflexivity |].
  intros i' e' [Hin | Hin]%elem_of_app.
  - apply list_elem_of_In, in_map_iff in Hin as (y & [= <- <-] & Hy).
    apply list_elem_of_In in Hy.
    split; [exact Hi |]. split; [| left; auto].
    apply elem_of_app. right. right. exact Hy.
  - apply list_elem_of_In, in_prod_iff in Hin as [Hi' He'].
    apply in_seq in Hi'. apply list_elem_of_In in He'.
    split; [lia |]. split; [exact He' | right; lia].
Qed.

Lemma loop_split_last (n i : nat) :
  i < n ->
  exists a b, seq 0 n = a ++ i :: b /\ forall i', i' ∈ b -> i' < n /\ i < i'.
Proof.
  intros Hi. rewrite (seq_split n i Hi). eexists _, _. split; [reflexivity |].
  intros i' Hin%list_elem_of_In%in_seq. lia.
Qed.


(** *** Shapes are preserved *)

Lemma rect4_alter2 (n ch h w : nat) (x : tensor4 R) (f : matrix R -> matrix R) (i j : nat) :
  rect4 n ch h w x ->
  (forall img, rect2 h w img -> rect2 h w (f img)) ->
  rect4 n ch h w (alter (alter f j) i x).
Proof.
  intros [Hn Hx] Hf. split; [rewrite length_alter; exact Hn |].
  apply Forall_alter; [exact Hx |]. intros xi _ [Hc Hi].
  split; [rewrite length_alter; exact Hc |].
  apply Forall_alter; [exact Hi |]. intros img _ Himg. apply Hf. exact Himg.
Qed.

Lemma rect4_set4 (n ch h w : nat) (x : tensor4 R) (i j k l : nat) (v : R) :
  rect4 n ch h w x -> rect4 n ch h w (set4 x i j k l v).
Proof.
  intros Hx. unfold set4. apply rect4_alter2; [exact Hx |].
  intros img [Hh Hw]. split; [rewrite length_alter; exact Hh |].
  apply Forall_alter; [exact Hw |]. intros row _ Hrow. cbn beta.
  rewrite length_insert. exact Hrow.
Qed.

Lemma rect4_assign4 (n ch h w : nat) (x : tensor4 R) (i j r0 c0 : nat) (m : matrix R) :
  rect4 n ch h w x -> rect4 n ch h w (assign4 x i j r0 c0 m).
Proof.
  intros Hx. unfold assign4. apply rect4_alter2; [exact Hx |].
  intros img [Hh Hw]. unfold assign_window. split; [rewrite length_imap; exact Hh |].
  apply Forall_lookup. intros r row Hrow.
  rewrite list_lookup_imap in Hrow.
  destruct (img !! r) as [row0 |] eqn:E; [| discriminate]. cbn in Hrow.
  injection Hrow as <-. rewrite length_imap.
  exact (proj1 (Forall_lookup _ _) Hw r row0 E).
Qed.

Lemma rect4_zeros4 (n ch h w : nat) : rect4 n ch h w (zeros4 (R:=R) n ch h w).
Proof.
  unfold zeros4. split; [apply length_replicate |].
  apply Forall_replicate. split; [apply length_replicate |].
  apply Forall_replicate. split; [apply length_replicate |].
  apply Forall_replicate. apply length_replicate.
Qed.

Lemma rect4_zeros_like4 (n ch h w : nat) (x : tensor4 R) :
  rect4 n ch h w x -> rect4 n ch h w (zeros_like4 x).
Proof.
  intros [Hn Hx]. unfold zeros_like4. split; [rewrite length_map; exact Hn |].
  apply Forall_map. eapply Forall_impl; [exact Hx |]. intros xi [Hc Hi]. cbn beta.
  split; [rewrite length_map; exact Hc |].
  apply Forall_map. eapply Forall_impl; [exact Hi |]. intros img [Hh Hw]. cbn beta.
  split; [rewrite length_map; exact Hh |].
  apply Forall_map. eapply Forall_impl; [exact Hw |]. intros row Hrow. cbn beta.
  rewrite length_map. exact Hrow.
Qed.

Lemma foldl_invariant {S I : Type} (P : S -> Prop) (f : I -> S -> S) (L : list I) (s : S) :
  P s -> (forall e s, P s -> P (f e s)) -> P (foldl (fun s e => f e s) s L).
Proof.
  intros Hs Hf. revert s Hs. induction L as [| e L IH]; intros s Hs; cbn; [exact Hs |].
  apply IH. apply Hf. exact Hs.
Qed.

(** *** The fallback path of the backward pass *)

Lemma shape4_rect (n ch h w : nat) (x : tensor4 R) :
  rect4 n ch h w x ->
  exists ch' h' w', shape4 x = (n, ch', h', w') /\ (0 < n -> ch' = ch).
Proof.
  intros [Hn Hx]. unfold shape4. rewrite Hn. eexists _, _, _. split; [reflexivity |].
  intros Hpos. destruct x as [| xi x]; cbn in *; [lia |].
  apply Forall_cons in Hx as [[Hch _] _]. exact Hch.
Qed.

Lemma derivative_original_spec (self : MaxPool) (n ch h w : nat) (x d : tensor4 R) :
  rect4 n ch h w x ->
  0 < fst (mp_pool self) -> 0 < snd (mp_pool self) ->
  (forall k, k < mp_out_h self -> k * mp_stride self < h) ->
  (forall l, l < mp_out_w self -> l * mp_stride self < w) ->
  (forall i j k l, i < n -> j < ch -> k < mp_out_h self -> l < mp_out_w self ->
                   is_Some (get4 d i j k l)) ->
  exists dx,
    derivative_original self x (Arr4 d) = Ok dx /\
    rect4 n ch h w dx /\
    (forall i j r c,
       i < n -> j < ch -> r < h -> c < w ->
       (forall k l, k < mp_out_h self -> l < mp_out_w self ->
          covers (mp_stride self) (fst (mp_pool self)) (snd (mp_pool self)) k l r c = false) ->
       get4 dx i j r c = Some s_zero) /\
    (forall i j r c k l,
       i < n -> j < ch -> r < h -> c < w -> k < mp_out_h self -> l < mp_out_w self ->
       covers (mp_stride self) (fst (mp_pool self)) (snd (mp_pool self)) k l r c = true ->
       (forall k' l', k' < mp_out_h self -> l' < mp_out_w self ->
          covers (mp_stride self) (fst (mp_pool self)) (snd (mp_pool self)) k' l' r c = true ->
          k' < k \/ (k' = k /\ l' <= l)) ->
       exists xv mx dv,
         get4 x i j r c = Some xv /\
         window_max x (mp_stride self) (fst (mp_pool self)) (snd (mp_pool self)) i j k l
           = Ok mx /\
         get4 d i j k l = Some dv /\
         get4 dx i j r c = Some (s_mul (s_of_bool (s_eqb xv mx)) dv)).
Proof.
  intros Hx Hph Hpw Hkh Hlw Hd.
  destruct (mp_pool self) as [ph pw] eqn:Epool. cbn [fst snd] in *.
  set (sd := mp_stride self) in *. set (oh := mp_out_h self) in *.
  set (ow := mp_out_w self) in *.
  destruct (shape4_rect _ _ _ _ _ Hx) as (ch' & h' & w' & Hshape & Hch').
  unfold derivative_original. rewrite Hshape, Epool. fold sd oh ow.
  rewrite for_range4. cbn beta.
  set (L := list_prod (seq 0 n) (list_prod (seq 0 ch') (list_prod (seq 0 oh) (seq 0 ow)))).
  set (G := fun e : nat * (nat * (nat * nat)) =>
              match window_gradient x (Arr4 d) sd ph pw (fst e) (fst (snd e))
                      (fst (snd (snd e))) (snd (snd (snd e))) with
              | Ok g => g
              | Raise _ => []
              end).
  set (f := fun (e : nat * (nat * (nat * nat))) (dx : tensor4 R) =>
              assign4 dx (fst e) (fst (snd e)) (fst (snd (snd e)) * sd)
                      (snd (snd (snd e)) * sd) (G e)).
  assert (Hrange : forall i j k l, (i, (j, (k, l))) ∈ L ->
                     i < n /\ j < ch /\ k < oh /\ l < ow).
  { intros i j k l Hin. unfold L in Hin.
    apply elem_of_list_prod_seq in Hin as [Hi Hin].
    apply elem_of_list_prod_seq in Hin as [Hj Hin].
    apply elem_of_list_prod_seq in Hin as [Hk Hl%list_elem_of_In%in_seq].
    rewrite <- Hch' by lia. lia. }
  assert (HG : forall i j k l, i < n -> j < ch -> k < oh -> l < ow ->
            exists mx dv,
              window_gradient x (Arr4 d) sd ph pw i j k l = Ok (G (i, (j, (k, l)))) /\
              window_max x sd ph pw i j k l = Ok mx /\
              get4 d i j k l = Some dv /\
              forall r c,
                (if (k * sd <=? r) && (l * sd <=? c)
                 then grow ← G (i, (j, (k, l))) !! (r - k * sd);
                      (grow : list R) !! (c - l * sd)
                 else None)
                = if covers sd ph pw k l r c
                  then (fun xv => s_mul (s_of_bool (s_eqb xv mx)) dv) <$> get4 x i j r c
                  else None).
  { intros i j k l Hi Hj Hk Hl.
    destruct (Hd i j k l Hi Hj Hk Hl) as [dv Hdv].
    destruct (window_gradient_entry _ _ _ _ x d sd ph pw i j k l dv Hx Hi Hj
                (Hkh k Hk) (Hlw l Hl) Hph Hpw Hdv) as (g & mx & Hg & Hmx & Hent).
    exists mx, dv. unfold G. cbn [fst snd]. rewrite Hg. auto. }
  rewrite (for_each_total L _ f).
  2:{ intros [i [j [k l]]] s Hin. cbn [fst snd].
      destruct (Hrange i j k l Hin) as (Hi & Hj & Hk & Hl).
      destruct (HG i j k l Hi Hj Hk Hl) as (mx & dv & Hg & _).
      rewrite Hg. reflexivity. }
  eexists. split; [reflexivity |].
  set (rd := fun (s : tensor4 R) (p : nat * (nat * (nat * nat))) =>
               get4 s (fst p) (fst (snd p)) (fst (snd (snd p))) (snd (snd (snd p)))).
  set (wr := fun (e p : nat * (nat * (nat * nat))) =>
               if (fst e =? fst p) && (fst (snd e) =? fst (snd p))
                  && (fst (snd (snd e)) * sd <=? fst (snd (snd p)))
                  && (snd (snd (snd e)) * sd <=? snd (snd (snd p)))
               then grow ← G e !! (fst (snd (snd p)) - fst (snd (snd e)) * sd);
                    (grow : list R) !! (snd (snd (snd p)) - snd (snd (snd e)) * sd)
               else None).
  assert (Hstep : forall e s p, rd (f e s) p = (fun old => default old (wr e p)) <$> rd s p).
  { intros e s p. unfold rd, f, wr. apply get4_assign4. }
  assert (Hwr : forall i j k l i' j' r c,
            i < n -> j < ch -> k < oh -> l < ow ->
            wr (i, (j, (k, l))) (i', (j', (r, c)))
            = if (i =? i') && (j =? j') && covers sd ph pw k l r c
              then match window_max x sd ph pw i j k l, get4 d i j k l with
                   | Ok mx, Some dv =>
                       (fun xv => s_mul (s_of_bool (s_eqb xv mx)) dv) <$> get4 x i j r c
                   | _, _ => None
                   end
              else None).
  { intros i j k l i' j' r c Hi Hj Hk Hl. unfold wr. cbn [fst snd].
    destruct (HG i j k l Hi Hj Hk Hl) as (mx & dv & _ & Hmx & Hdv & Hent).
    rewrite Hmx, Hdv. specialize (Hent r c).
    destruct (i =? i'), (j =? j'); cbn [andb]; try reflexivity.
    exact Hent. }
  split; [| split].
  - apply foldl_invariant; [apply rect4_zeros_like4; exact Hx |].
    intros e s Hs. apply rect4_assign4. exact Hs.
  - intros i j r c Hi Hj Hr Hc Hno.
    pose proof (foldl_no_writer rd f wr Hstep L (zeros_like4 x) (i, (j, (r, c)))) as E.
    unfold rd at 1 2 in E. cbn [fst snd] in E. rewrite E.
    + rewrite get4_zeros_like4.
      destruct (rect4_get4 _ _ _ _ _ i j r c Hx Hi Hj Hr Hc) as [xv ->]. reflexivity.
    + intros [i' [j' [k l]]] Hin.
      destruct (Hrange i' j' k l Hin) as (Hi' & Hj' & Hk & Hl).
      rewrite Hwr by assumption. rewrite (Hno k l Hk Hl).
      rewrite !andb_false_r. reflexivity.
  - intros i j r c k l Hi Hj Hr Hc Hk Hl Hcov Hlast.
    destruct (HG i j k l Hi Hj Hk Hl) as (mx & dv & _ & Hmx & Hdv & _).
    destruct (rect4_get4 _ _ _ _ _ i j r c Hx Hi Hj Hr Hc) as [xv Hxv].
    exists xv, mx, dv. repeat split; try assumption.
    destruct (loop_split_last ow l Hl) as (a1 & b1 & E1 & Hb1).
    destruct (loop_split_cons oh k (seq 0 ow) a1 b1 l Hk E1) as (a2 & b2 & E2 & Hb2).
    destruct (loop_split_cons ch' j _ a2 b2 (k, l) ltac:(rewrite Hch' by lia; exact Hj) E2)
      as (a3 & b3 & E3 & Hb3).
    destruct (loop_split_cons n i _ a3 b3 (j, (k, l)) Hi E3) as (a4 & b4 & E4 & Hb4).
    fold L in E4.
    pose proof (foldl_last_writer rd f wr Hstep a4 b4 (i, (j, (k, l))) (zeros_like4 x)
                  (i, (j, (r, c))) (s_mul (s_of_bool (s_eqb xv mx)) dv)) as E.
    rewrite <- E4 in E. unfold rd at 1 2 in E. cbn [fst snd] in E. rewrite E.
    + rewrite get4_zeros_like4, Hxv. reflexivity.
    + rewrite Hwr by assumption. rewrite !Nat.eqb_refl, Hcov, Hmx, Hdv, Hxv. reflexivity.
    + intros [i' [j' [k' l']]] Hin.
      assert (Hin' : (i', (j', (k', l'))) ∈ L).
      { rewrite E4. apply elem_of_app. right. right. exact Hin. }
      destruct (Hrange i' j' k' l' Hin') as (Hi' & Hj' & Hk' & Hl').
      rewrite Hwr by assumption.
      destruct (Nat.eqb_spec i' i) as [-> | Hne]; cbn [andb]; [| reflexivity].
      destruct (Nat.eqb_spec j' j) as [-> | Hne]; cbn [andb]; [| reflexivity].
      destruct (covers sd ph pw k' l' r c) eqn:Hcov'; [| reflexivity].
      exfalso.
      destruct (Hb4 _ _ Hin) as (_ & _ & [[_ Hin3] | Hlt]); [| lia].
      destruct (Hb3 _ _ Hin3) as (_ & _ & [[_ Hin2] | Hlt]); [| lia].
      destruct (Hlast k' l' Hk' Hl' Hcov') as [Hlt | [-> Hle]].
      * destruct (Hb2 _ _ Hin2) as (_ & _ & [[-> _] | Hlt2]); lia.
      * destruct (Hb2 _ _ Hin2) as (_ & _ & [[_ Hin1] | Hlt2]); [| lia].
        destruct (Hb1 _ Hin1). lia.
Qed.

End PoolFallback.

(** *** Reshaping *)

Section Chunks.
Context {A : Type}.
Implicit Types (l : list A) (ls : list (list A)).

Lemma length_chunks (cnt k : nat) l : length (chunks cnt k l) = cnt.
Proof. revert l. induction cnt as [| cnt IH]; intros l; cbn; [reflexivity | by rewrite IH]. Qed.

Lemma concat_chunks (cnt k : nat) l :
  length l = cnt * k -> concat (chunks cnt k l) = l.
Proof.
  revert l. induction cnt as [| cnt IH]; intros l Hl; cbn.
  - destruct l; [reflexivity | discriminate].
  - rewrite IH by (rewrite length_drop; lia). apply take_drop.
Qed.

Lemma Forall_length_chunks (cnt k : nat) l :
  length l = cnt * k -> Forall (fun c => length c = k) (chunks cnt k l).
Proof.
  revert l. induction cnt as [| cnt IH]; intros l Hl; cbn; constructor.
  - rewrite length_take. lia.
  - apply IH. rewrite length_drop. lia.
Qed.

Lemma chunks_concat (k : nat) ls :
  Forall (fun c => length c = k) ls -> chunks (length ls) k (concat ls) = ls.
Proof.
  induction 1 as [| c ls Hc _ IH]; cbn; [reflexivity |].
  rewrite take_app_length' by (symmetry; exact Hc).
  rewrite drop_app_length' by (symmetry; exact Hc).
  by rewrite IH.
Qed.

Lemma length_concat_uniform (k : nat) ls :
  Forall (fun c => length c = k) ls -> length (concat ls) = length ls * k.
Proof.
  induction 1 as [| c ls Hc _ IH]; cbn; [reflexivity |].
  rewrite length_app, IH, Hc. reflexivity.
Qed.

Lemma lookup_chunks (cnt k : nat) l (a : nat) :
  a < cnt -> chunks cnt k l !! a = Some (take k (drop (a * k) l)).
Proof.
  revert l a. induction cnt as [| cnt IH]; intros l a Ha; [lia |].
  destruct a as [| a]; cbn; [reflexivity |].
  rewrite IH by lia. rewrite drop_drop. reflexivity.
Qed.

Lemma lookup_concat_uniform (k : nat) ls (a b : nat) :
  Forall (fun c => length c = k) ls -> b < k ->
  concat ls !! (a * k + b) = (c ← ls !! a; (c : list A) !! b).
Proof.
  intros Hls Hb. revert a. induction Hls as [| c ls Hc _ IH]; intros a; cbn.
  - rewrite !lookup_nil. reflexivity.
  - destruct a as [| a]; cbn.
    + rewrite lookup_app_l by lia. reflexivity.
    + rewrite lookup_app_r by lia. rewrite <- IH. f_equal. lia.
Qed.

End Chunks.

Lemma concat_concat {A : Type} (l : list (list (list A))) :
  concat (concat l) = concat (map (@concat A) l).
Proof.
  induction l as [| x l IH]; cbn; [reflexivity |].
  rewrite concat_app, IH. reflexivity.
Qed.

Section Tiling.
Context {R : Type}.

Lemma Forall_chunks {A : Type} (P : A -> Prop) (cnt k : nat) (l : list A) :
  Forall P l -> Forall (Forall P) (chunks cnt k l).
Proof.
  revert l. induction cnt as [| cnt IH]; intros l Hl; cbn; constructor.
  - apply Forall_take. exact Hl.
  - apply IH. apply Forall_drop. exact Hl.
Qed.

Lemma map_id_Forall {A : Type} (f : A -> A) (l : list A) :
  Forall (fun a => f a = a) l -> map f l = l.
Proof. induction 1 as [| a l Ha _ IH]; cbn; [reflexivity | by rewrite Ha, IH]. Qed.

Lemma untile_tile_image (p q a1 a2 : nat) (img : matrix R) :
  rect2 (a1 * p) (a2 * q) img ->
  untile_image (tile_image p q a1 a2 img) = img.
Proof.
  intros [Hlen Hrows]. unfold untile_image, tile_image.
  rewrite map_map.
  rewrite (map_id_Forall _ (chunks a1 p img)).
  - apply concat_chunks. exact Hlen.
  - eapply Forall_impl; [apply (Forall_chunks _ a1 p img Hrows) |].
    intros grp Hgrp. cbn beta. rewrite map_map. apply map_id_Forall.
    eapply Forall_impl; [exact Hgrp |]. intros row Hrow. cbn beta in *.
    apply concat_chunks. exact Hrow.
Qed.

Lemma rect4_tile_image (p q a1 a2 : nat) (img : matrix R) :
  rect2 (a1 * p) (a2 * q) img -> rect4 a1 p a2 q (tile_image p q a1 a2 img).
Proof.
  intros [Hlen Hrows]. unfold tile_image. split.
  - rewrite length_map. apply length_chunks.
  - apply Forall_map.
    pose proof (Forall_length_chunks a1 p img Hlen) as H1.
    pose proof (Forall_chunks _ a1 p img Hrows) as H2.
    pose proof (List.Forall_and H1 H2) as H3. clear H1 H2.
    eapply Forall_impl; [exact H3 |]. intros grp [Hgl Hgr]. cbn beta in *.
    split; [rewrite length_map; exact Hgl |].
    apply Forall_map. eapply Forall_impl; [exact Hgr |]. intros row Hrow. cbn beta in *.
    split; [apply length_chunks | apply Forall_length_chunks; exact Hrow].
Qed.

Lemma rect2_untile_image (p q a1 a2 : nat) (g : tensor4 R) :
  rect4 a1 p a2 q g -> rect2 (a1 * p) (a2 * q) (untile_image g).
Proof.
  intros [Hlen Hg]. unfold untile_image. split.
  - rewrite (length_concat_uniform p).
    + rewrite length_map, Hlen. reflexivity.
    + apply Forall_map. eapply Forall_impl; [exact Hg |].
      intros grp [Hgl _]. cbn beta. rewrite length_map. exact Hgl.
  - apply Forall_concat. apply Forall_map. eapply Forall_impl; [exact Hg |].
    intros grp [_ Hgr]. cbn beta. apply Forall_map.
    eapply Forall_impl; [exact Hgr |]. intros rowg [Hl Hr]. cbn beta.
    rewrite (length_concat_uniform q _ Hr), Hl. reflexivity.
Qed.

Lemma flatten2_untile_image (g : tensor4 R) :
  flatten2 (untile_image g) = flatten4 g.
Proof.
  unfold flatten2, untile_image, flatten4, flatten3, flatten2.
  rewrite concat_concat, map_map. reflexivity.
Qed.

(** One axis of [reshape] after [flatten]. *)
Lemma unflatten_level {A B : Type} (flat : B -> list A) (un : list A -> B) (k : nat)
    (ls : list B) :
  Forall (fun b => length (flat b) = k /\ un (flat b) = b) ls ->
  length (concat (map flat ls)) = length ls * k /\
  map un (chunks (length ls) k (concat (map flat ls))) = ls.
Proof.
  intros Hls.
  assert (Hlen : Forall (fun c => length c = k) (map flat ls)).
  { apply Forall_map. eapply Forall_impl; [exact Hls |]. intros b [Hb _]. exact Hb. }
  split.
  - rewrite (length_concat_uniform k _ Hlen), length_map. reflexivity.
  - rewrite <- (length_map flat ls), (chunks_concat k _ Hlen), map_map.
    apply map_id_Forall. eapply Forall_impl; [exact Hls |]. intros b [_ Hb]. exact Hb.
Qed.

Lemma unflatten2_flatten2 (h w : nat) (m : matrix R) :
  rect2 h w m -> length (flatten2 m) = h * w /\ unflatten2 h w (flatten2 m) = m.
Proof.
  intros [Hh Hw]. unfold flatten2, unflatten2. split.
  - rewrite (length_concat_uniform w _ Hw), Hh. reflexivity.
  - rewrite <- Hh. apply chunks_concat. exact Hw.
Qed.

Lemma unflatten3_flatten3 (c h w : nat) (t : list (matrix R)) :
  length t = c -> Forall (rect2 h w) t ->
  length (flatten3 t) = c * (h * w) /\ unflatten3 c h w (flatten3 t) = t.
Proof.
  intros Hc Ht. unfold flatten3, unflatten3. rewrite <- Hc.
  apply unflatten_level. eapply Forall_impl; [exact Ht |].
  intros m Hm. apply unflatten2_flatten2. exact Hm.
Qed.

Lemma unflatten4_flatten4 (n c h w : nat) (x : tensor4 R) :
  rect4 n c h w x ->
  length (flatten4 x) = n * (c * (h * w)) /\ unflatten4 n c h w (flatten4 x) = x.
Proof.
  intros [Hn Hx]. unfold flatten4, unflatten4. rewrite <- Hn.
  apply unflatten_level. eapply Forall_impl; [exact Hx |].
  intros t [Hc Ht]. apply unflatten3_flatten3; assumption.
Qed.

Lemma unflatten5_flatten5 (m n c h w : nat) (x : list (tensor4 R)) :
  length x = m -> Forall (rect4 n c h w) x ->
  length (flatten5 x) = m * (n * (c * (h * w))) /\
  unflatten5 m n c h w (flatten5 x) = x.
Proof.
  intros Hm Hx. unfold flatten5, unflatten5. rewrite <- Hm.
  apply unflatten_level. eapply Forall_impl; [exact Hx |].
  intros t Ht. apply unflatten4_flatten4. exact Ht.
Qed.

Lemma unflatten6_flatten6 (k m n c h w : nat) (x : tensor6 R) :
  rect6 k m n c h w x ->
  length (flatten6 x) = k * (m * (n * (c * (h * w)))) /\
  unflatten6 k m n c h w (flatten6 x) = x.
Proof.
  intros [Hk Hx]. unfold flatten6, unflatten6. rewrite <- Hk.
  apply unflatten_level. eapply Forall_impl; [exact Hx |].
  intros t [Hm Ht]. apply unflatten5_flatten5; assumption.
Qed.

Lemma reshape4_flatten4 (n c h w : nat) (x : tensor4 R) :
  rect4 n c h w x -> reshape4 (n, c, h, w) (flatten4 x) = Ok x.
Proof.
  intros Hx. destruct (unflatten4_flatten4 _ _ _ _ _ Hx) as [Hlen Hun].
  unfold reshape4. rewrite Hlen, Nat.eqb_refl, Hun. reflexivity.
Qed.

Lemma reshape6_flatten6 (k m n c h w : nat) (x : tensor6 R) :
  rect6 k m n c h w x -> reshape6 k m n c h w (flatten6 x) = Ok x.
Proof.
  intros Hx. destruct (unflatten6_flatten6 _ _ _ _ _ _ _ Hx) as [Hlen Hun].
  unfold reshape6. rewrite Hlen, Nat.eqb_refl, Hun. reflexivity.
Qed.

(** The tiling of a whole array and its inverse. *)
Lemma rect6_tile (n ch p q a1 a2 : nat) (x : tensor4 R) :
  rect4 n ch (a1 * p) (a2 * q) x ->
  rect6 n ch a1 p a2 q (map (map (tile_image p q a1 a2)) x).
Proof.
  intros [Hn Hx]. split; [rewrite length_map; exact Hn |].
  apply Forall_map. eapply Forall_impl; [exact Hx |]. intros xi [Hc Hi]. cbn beta.
  split; [rewrite length_map; exact Hc |].
  apply Forall_map. eapply Forall_impl; [exact Hi |]. intros img Himg.
  apply rect4_tile_image. exact Himg.
Qed.

Lemma rect4_untile (n ch p q a1 a2 : nat) (t : tensor6 R) :
  rect6 n ch a1 p a2 q t ->
  rect4 n ch (a1 * p) (a2 * q) (map (map untile_image) t).
Proof.
  intros [Hn Ht]. split; [rewrite length_map; exact Hn |].
  apply Forall_map. eapply Forall_impl; [exact Ht |]. intros ti [Hc Hi]. cbn beta.
  split; [rewrite length_map; exact Hc |].
  apply Forall_map. eapply Forall_impl; [exact Hi |]. intros g Hg.
  apply rect2_untile_image. exact Hg.
Qed.

Lemma flatten4_untile (t : tensor6 R) :
  flatten4 (map (map untile_image) t) = flatten6 t.
Proof.
  unfold flatten4, flatten6, flatten5. rewrite map_map. f_equal.
  apply map_ext. intros ti. unfold flatten3. rewrite map_map. f_equal.
  apply map_ext. intros g. apply flatten2_untile_image.
Qed.

Lemma untile_tile (n ch p q a1 a2 : nat) (x : tensor4 R) :
  rect4 n ch (a1 * p) (a2 * q) x ->
  map (map untile_image) (map (map (tile_image p q a1 a2)) x) = x.
Proof.
  intros [_ Hx]. rewrite map_map. apply map_id_Forall.
  eapply Forall_impl; [exact Hx |]. intros xi [_ Hi]. cbn beta.
  rewrite map_map. apply map_id_Forall.
  eapply Forall_impl; [exact Hi |]. intros img Himg. apply untile_tile_image. exact Himg.
Qed.

(** The reshape of the fast path is the tiling. *)
Lemma reshape6_tiles (n ch p q a1 a2 : nat) (x : tensor4 R) :
  rect4 n ch (a1 * p) (a2 * q) x ->
  reshape6 n ch a1 p a2 q (flatten4 x) = Ok (map (map (tile_image p q a1 a2)) x).
Proof.
  intros Hx. rewrite <- (untile_tile _ _ _ _ _ _ _ Hx) at 1.
  rewrite flatten4_untile. apply reshape6_flatten6. apply rect6_tile. exact Hx.
Qed.

(** The reshape back to the input shape is the inverse of the tiling. *)
Lemma reshape4_untiles (n ch p q a1 a2 : nat) (t : tensor6 R) :
  rect6 n ch a1 p a2 q t ->
  reshape4 (n, ch, a1 * p, a2 * q) (flatten6 t) = Ok (map (map untile_image) t).
Proof.
  intros Ht. rewrite <- flatten4_untile. apply reshape4_flatten4.
  apply rect4_untile. exact Ht.
Qed.

End Tiling.

Section TileLookup.
Context {R : Type}.

Lemma get4_tile_image (p q a1 a2 : nat) (img : matrix R) (a b c d : nat) :
  a < a1 -> b < p -> c < a2 -> d < q ->
  get4 (tile_image p q a1 a2 img) a b c d
  = (row ← img !! (a * p + b); (row : list R) !! (c * q + d)).
Proof.
  intros Ha Hb Hc Hd. unfold get4, tile_image.
  rewrite lookup_map, lookup_chunks by exact Ha. sbind.
  rewrite lookup_map, lookup_take_lt, lookup_drop by exact Hb.
  destruct (img !! (a * p + b)) as [row |]; sbind; [| reflexivity].
  rewrite lookup_chunks by exact Hc. sbind.
  rewrite lookup_take_lt, lookup_drop by exact Hd. reflexivity.
Qed.

Lemma lookup_untile_image (p q a1 a2 : nat) (g : tensor4 R) (a b c d : nat) :
  rect4 a1 p a2 q g -> b < p -> d < q ->
  (row ← untile_image g !! (a * p + b); (row : list R) !! (c * q + d))
  = get4 g a b c d.
Proof.
  intros [Hlen Hg] Hb Hd. unfold untile_image, get4.
  rewrite (lookup_concat_uniform p) by
    first [ exact Hb
          | apply Forall_map; eapply Forall_impl; [exact Hg |];
            intros grp [Hgl _]; cbn beta; rewrite length_map; exact Hgl ].
  rewrite lookup_map.
  destruct (g !! a) as [grp |] eqn:Ega; sbind; [| reflexivity].
  rewrite lookup_map.
  destruct (grp !! b) as [rowg |] eqn:Egb; sbind; [| reflexivity].
  apply (lookup_concat_uniform q); [| exact Hd].
  pose proof (proj1 (Forall_lookup _ _) Hg a grp Ega) as [_ Hgrp].
  pose proof (proj1 (Forall_lookup _ _) Hgrp b rowg Egb) as [_ Hrow].
  exact Hrow.
Qed.



End TileLookup.

Section PoolForwardOriginal.
Context {R : Type} `{Scalar R}.

Lemma get4_set4 (out : tensor4 R) (i j k l : nat) (v : R) (i' j' k' l' : nat) :
  get4 (set4 out i j k l v) i' j' k' l'
  = (fun old =>
       default old
         (if (i =? i') && (j =? j') && (k =? k') && (l =? l') then Some v else None))
    <$> get4 out i' j' k' l'.
Proof.
  unfold get4, set4.
  destruct (Nat.eqb_spec i i') as [<- | Hi]; cbn [andb].
  2:{ rewrite list_lookup_alter_ne by exact Hi.
      destruct (out !! i') as [xi |]; sbind; [| reflexivity].
      destruct (xi !! j') as [img |]; sbind; [| reflexivity].
      destruct (img !! k') as [row |]; sbind; [| reflexivity].
      destruct (row !! l'); reflexivity. }
  rewrite list_lookup_alter_eq.
  destruct (out !! i) as [xi |]; sbind; [| reflexivity].
  destruct (Nat.eqb_spec j j') as [<- | Hj]; cbn [andb].
  2:{ rewrite list_lookup_alter_ne by exact Hj.
      destruct (xi !! j') as [img |]; sbind; [| reflexivity].
      destruct (img !! k') as [row |]; sbind; [| reflexivity].
      destruct (row !! l'); reflexivity. }
  rewrite list_lookup_alter_eq.
  destruct (xi !! j) as [img |]; sbind; [| reflexivity].
  destruct (Nat.eqb_spec k k') as [<- | Hk]; cbn [andb].
  2:{ rewrite list_lookup_alter_ne by exact Hk.
      destruct (img !! k') as [row |]; sbind; [| reflexivity].
      destruct (row !! l'); reflexivity. }
  rewrite list_lookup_alter_eq.
  destruct (img !! k) as [row |]; sbind; [| reflexivity].
  destruct (Nat.eqb_spec l l') as [<- | Hl].
  - destruct (row !! l) as [old |] eqn:E.
    + rewrite list_lookup_insert_eq by (apply lookup_lt_Some in E; exact E). reflexivity.
    + rewrite list_insert_ge by (apply lookup_ge_None in E; exact E).
      rewrite E. reflexivity.
  - rewrite list_lookup_insert_ne by exact Hl. destruct (row !! l'); reflexivity.
Qed.

Lemma get4_zeros4 (n ch h w i j k l : nat) :
  i < n -> j < ch -> k < h -> l < w ->
  get4 (zeros4 (R:=R) n ch h w) i j k l = Some s_zero.
Proof.
  intros Hi Hj Hk Hl. unfold get4, zeros4.
  rewrite lookup_replicate_2 by exact Hi. sbind.
  rewrite lookup_replicate_2 by exact Hj. sbind.
  rewrite lookup_replicate_2 by exact Hk. sbind.
  apply lookup_replicate_2. exact Hl.
Qed.

(** The fallback forward pass: every output cell holds the maximum of
    its window. *)
Lemma activate_original_spec (self : MaxPool) (n ch h w : nat) (x : tensor4 R) :
  rect4 n ch h w x ->
  0 < fst (mp_pool self) -> 0 < snd (mp_pool self) ->
  (forall k, k < mp_out_h self -> k * mp_stride self < h) ->
  (forall l, l < mp_out_w self -> l * mp_stride self < w) ->
  exists out ch',
    activate_original self x = Ok out /\
    (0 < n -> ch' = ch) /\
    rect4 n ch' (mp_out_h self) (mp_out_w self) out /\
    forall i j k l,
      i < n -> j < ch -> k < mp_out_h self -> l < mp_out_w self ->
      exists mx,
        window_max x (mp_stride self) (fst (mp_pool self)) (snd (mp_pool self)) i j k l
          = Ok mx /\
        get4 out i j k l = Some mx.
Proof.
  intros Hx Hph Hpw Hkh Hlw.
  destruct (mp_pool self) as [ph pw] eqn:Epool. cbn [fst snd] in *.
  set (sd := mp_stride self) in *. set (oh := mp_out_h self) in *.
  set (ow := mp_out_w self) in *.
  destruct (shape4_rect _ _ _ _ _ Hx) as (ch' & h' & w' & Hshape & Hch').
  unfold activate_original. rewrite Hshape, Epool. fold sd oh ow.
  rewrite for_range4. cbn beta.
  set (L := list_prod (seq 0 n) (list_prod (seq 0 ch') (list_prod (seq 0 oh) (seq 0 ow)))).
  set (M := fun e : nat * (nat * (nat * nat)) =>
              match window_max x sd ph pw (fst e) (fst (snd e))
                      (fst (snd (snd e))) (snd (snd (snd e))) with
              | Ok m => m
              | Raise _ => s_zero
              end).
  set (f := fun (e : nat * (nat * (nat * nat))) (out : tensor4 R) =>
              set4 out (fst e) (fst (snd e)) (fst (snd (snd e))) (snd (snd (snd e))) (M e)).
  assert (Hrange : forall i j k l, (i, (j, (k, l))) ∈ L ->
                     i < n /\ j < ch /\ k < oh /\ l < ow).
  { intros i j k l Hin. unfold L in Hin.
    apply elem_of_list_prod_seq in Hin as [Hi Hin].
    apply elem_of_list_prod_seq in Hin as [Hj Hin].
    apply elem_of_list_prod_seq in Hin as [Hk Hl%list_elem_of_In%in_seq].
    rewrite <- Hch' by lia. lia. }
  assert (HM : forall i j k l, i < n -> j < ch -> k < oh -> l < ow ->
            window_max x sd ph pw i j k l = Ok (M (i, (j, (k, l))))).
  { intros i j k l Hi Hj Hk Hl.
    destruct (window_max_ok _ _ _ _ x sd ph pw i j k l Hx Hi Hj (Hkh k Hk) (Hlw l Hl)
                Hph Hpw) as (win & mx & _ & _ & Hmx).
    unfold M. cbn [fst snd]. rewrite Hmx. reflexivity. }
  rewrite (for_each_total L _ f).
  2:{ intros [i [j [k l]]] s Hin. cbn [fst snd].
      destruct (Hrange i j k l Hin) as (Hi & Hj & Hk & Hl).
      pose proof (HM i j k l Hi Hj Hk Hl) as Hm. unfold window_max in Hm.
      destruct (window_of x i j (k * sd) (ph + k * sd) (l * sd) (pw + l * sd)) as [win |];
        sbind; [| discriminate].
      rewrite Hm. reflexivity. }
  eexists. exists ch'. split; [reflexivity |]. split; [exact Hch' |]. split.
  - apply foldl_invariant; [apply rect4_zeros4 |].
    intros e s Hs. apply rect4_set4. exact Hs.
  - intros i j k l Hi Hj Hk Hl.
    exists (M (i, (j, (k, l)))). split; [apply HM; assumption |].
    set (rd := fun (s : tensor4 R) (p : nat * (nat * (nat * nat))) =>
                 get4 s (fst p) (fst (snd p)) (fst (snd (snd p))) (snd (snd (snd p)))).
    set (wr := fun (e p : nat * (nat * (nat * nat))) =>
                 if (fst e =? fst p) && (fst (snd e) =? fst (snd p))
                    && (fst (snd (snd e)) =? fst (snd (snd p)))
                    && (snd (snd (snd e)) =? snd (snd (snd p)))
                 then Some (M e) else None).
    assert (Hstep : forall e s p,
              rd (f e s) p = (fun old => default old (wr e p)) <$> rd s p).
    { intros e s p. unfold rd, f, wr. apply get4_set4. }
    destruct (loop_split_last ow l Hl) as (a1 & b1 & E1 & Hb1).
    destruct (loop_split_cons oh k (seq 0 ow) a1 b1 l Hk E1) as (a2 & b2 & E2 & Hb2).
    destruct (loop_split_cons ch' j _ a2 b2 (k, l) ltac:(rewrite Hch' by lia; exact Hj) E2)
      as (a3 & b3 & E3 & Hb3).
    destruct (loop_split_cons n i _ a3 b3 (j, (k, l)) Hi E3) as (a4 & b4 & E4 & Hb4).
    fold L in E4.
    pose proof (foldl_last_writer rd f wr Hstep a4 b4 (i, (j, (k, l)))
                  (zeros4 n ch' oh ow) (i, (j, (k, l))) (M (i, (j, (k, l))))) as E.
    rewrite <- E4 in E. unfold rd at 1 2 in E. cbn [fst snd] in E. rewrite E.
    + rewrite get4_zeros4; [reflexivity | | | |]; try assumption.
      rewrite Hch' by lia. exact Hj.
    + unfold wr. cbn [fst snd]. rewrite !Nat.eqb_refl. reflexivity.
    + intros [i' [j' [k' l']]] Hin. unfold wr. cbn [fst snd].
      destruct (Nat.eqb_spec i' i) as [-> | Hne]; cbn [andb]; [| reflexivity].
      destruct (Nat.eqb_spec j' j) as [-> | Hne]; cbn [andb]; [| reflexivity].
      destruct (Nat.eqb_spec k' k) as [-> | Hne]; cbn [andb]; [| reflexivity].
      destruct (Nat.eqb_spec l' l) as [-> | Hne]; cbn [andb]; [| reflexivity].
      exfalso.
      destruct (Hb4 _ _ Hin) as (_ & _ & [[_ Hin3] | Hlt]); [| lia].
      destruct (Hb3 _ _ Hin3) as (_ & _ & [[_ Hin2] | Hlt]); [| lia].
      destruct (Hb2 _ _ Hin2) as (_ & _ & [[_ Hin1] | Hlt]); [| lia].
      destruct (Hb1 _ Hin1). lia.
Qed.

End PoolForwardOriginal.

Section PoolTheorems.
Context {R : Type} `{Scalar R}.

(** C10. On the fallback path of the backward pass every window is
    written into [dx] by assignment: an input position [(r, c)] that
    several windows cover ends up with the contribution
    [(x[r, c] == max(window)) * delta[k, l]] of the LAST window [(k, l)]
    of the loop order that covers it, whatever the earlier windows wrote
    there. *)
Theorem C10_fallback_last_window_overwrites
    (self : MaxPool) (n ch h w : nat) (x d y : tensor4 R) (wt : option (matrix R))
    (i j r c k l : nat) :
  mp_is_fc_base self = false ->
  mp_cache_method self = Some "original"%string ->
  mp_x_cache self = Some x ->
  rect4 n ch h w x ->
  rect4 n ch (mp_out_h self) (mp_out_w self) d ->
  0 < fst (mp_pool self) -> 0 < snd (mp_pool self) ->
  (forall k, k < mp_out_h self -> k * mp_stride self < h) ->
  (forall l, l < mp_out_w self -> l * mp_stride self < w) ->
  i < n -> j < ch -> r < h -> c < w -> k < mp_out_h self -> l < mp_out_w self ->
  covers (mp_stride self) (fst (mp_pool self)) (snd (mp_pool self)) k l r c = true ->
  (forall k' l', k' < mp_out_h self -> l' < mp_out_w self ->
     covers (mp_stride self) (fst (mp_pool self)) (snd (mp_pool self)) k' l' r c = true ->
     k' < k \/ (k' = k /\ l' <= l)) ->
  exists dx xv mx dv,
    MaxPool_derivative self y wt (DeltaArray (Arr4 d)) = Ok dx /\
    get4 x i j r c = Some xv /\
    window_max x (mp_stride self) (fst (mp_pool self)) (snd (mp_pool self)) i j k l = Ok mx /\
    get4 d i j k l = Some dv /\
    get4 dx i j r c = Some (s_mul (s_of_bool (s_eqb xv mx)) dv).
Proof.
  intros Hfc Hm Hxc Hx Hd Hph Hpw Hkh Hlw Hi Hj Hr Hc Hk Hl Hcov Hlast.
  destruct (derivative_original_spec self n ch h w x d Hx Hph Hpw Hkh Hlw)
    as (dx & Hdx & _ & _ & Hlastw).
  { intros i' j' k' l' Hi' Hj' Hk' Hl'. eapply rect4_get4; eassumption. }
  destruct (Hlastw i j r c k l Hi Hj Hr Hc Hk Hl Hcov Hlast)
    as (xv & mx & dv & Hxv & Hmx & Hdv & Hval).
  exists dx, xv, mx, dv. repeat split; try assumption.
  unfold MaxPool_derivative, incoming_delta. rewrite Hfc. sbind. rewrite Hm.
  cbn. rewrite Hxc. exact Hdx.
Qed.

End PoolTheorems.

Import Examples.

Lemma C10_fallback_last_window_overwrites_witness :
  exists dx,
    MaxPool_derivative (set_cache_method (set_x_cache pool_2x2_s1 x_ramp) "original")
      [] None (DeltaArray (Arr4 delta_3x3)) = Ok dx /\
    get4 dx 0 0 1 1 = Some (s_mul (s_of_bool (s_eqb (zq 6) (zq 11))) (zq 5)) /\
    window_max x_ramp 1 2 2 0 0 0 0 = Ok (zq 6).
Proof.
  destruct (C10_fallback_last_window_overwrites
              (set_cache_method (set_x_cache pool_2x2_s1 x_ramp) "original")
              1 1 4 4 x_ramp delta_3x3 [] None 0 0 1 1 1 1)
    as (dx & xv & mx & dv & Hdx & Hxv & Hmx & Hdv & Hval).
  - reflexivity.
  - reflexivity.
  - reflexivity.
  - split; [reflexivity | repeat constructor].
  - split; [reflexivity | repeat constructor].
  - cbn. lia.
  - cbn. lia.
  - cbn. intros k Hk. lia.
  - cbn. intros l Hl. lia.
  - lia.
  - lia.
  - lia.
  - lia.
  - cbn. lia.
  - cbn. lia.
  - reflexivity.
  - cbn [pool_2x2_s1 set_cache_method set_x_cache mp_out_h mp_out_w mp_stride mp_pool fst snd].
    intros k' l' Hk' Hl'.
    destruct k' as [| [| [| k']]]; [| | | lia];
      destruct l' as [| [| [| l']]]; try lia; cbn; intros; (lia || discriminate).
  - exists dx. split; [exact Hdx |].
    vm_compute in Hxv. vm_compute in Hmx. vm_compute in Hdv.
    injection Hxv as <-. injection Hmx as <-. injection Hdv as <-.
    split; [exact Hval | reflexivity].
Defined.

Section MaxFacts.
Context {R : Type} `{ScalarLaws R}.

(** [m] is a maximum of [l]: an element that none exceeds. *)
Lemma s_geb_trans (a b c : R) :
  s_ltb a b = false -> s_ltb b c = false -> s_ltb a c = false.
Proof.
  intros Hab Hbc. destruct (s_ltb a c) eqn:Hac; [| reflexivity].
  destruct (s_ltb b a) eqn:Hba.
  - rewrite (s_ltb_trans b a c Hba Hac) in Hbc. discriminate.
  - rewrite (s_ltb_total a b Hab Hba) in Hac. congruence.
Qed.

Lemma s_max_cases (a b : R) :
  (s_max a b = a \/ s_max a b = b) /\
  s_ltb (s_max a b) a = false /\ s_ltb (s_max a b) b = false.
Proof.
  unfold s_max. destruct (s_ltb a b) eqn:E.
  - split; [right; reflexivity |]. split; [| apply s_ltb_irrefl].
    destruct (s_ltb b a) eqn:E'; [| reflexivity].
    rewrite <- (s_ltb_irrefl a). symmetry. exact (s_ltb_trans a b a E E').
  - split; [left; reflexivity |]. split; [apply s_ltb_irrefl | exact E].
Qed.

Lemma foldl_s_max_spec (a : R) (l : list R) :
  foldl s_max a l ∈ a :: l /\
  forall v, v ∈ a :: l -> s_ltb (foldl s_max a l) v = false.
Proof.
  revert a. induction l as [| b l IH]; intros a; cbn.
  - split; [left |]. intros v Hv. apply list_elem_of_singleton in Hv as ->.
    apply s_ltb_irrefl.
  - destruct (IH (s_max a b)) as [Hin Hge].
    destruct (s_max_cases a b) as (Hcase & Hga & Hgb).
    split.
    + apply elem_of_cons in Hin as [Hin | Hin].
      * rewrite Hin. destruct Hcase as [-> | ->]; [left | right; left].
      * right. right. exact Hin.
    + intros v Hv.
      assert (Hm : s_ltb (foldl s_max (s_max a b) l) (s_max a b) = false)
        by (apply Hge; left).
      apply elem_of_cons in Hv as [-> | Hv]; [exact (s_geb_trans _ _ _ Hm Hga) |].
      apply elem_of_cons in Hv as [-> | Hv]; [exact (s_geb_trans _ _ _ Hm Hgb) |].
      apply Hge. right. exact Hv.
Qed.

Lemma amax_spec (l : list R) (m : R) :
  amax l = Ok m -> m ∈ l /\ forall v, v ∈ l -> s_ltb m v = false.
Proof.
  destruct l as [| a l]; cbn; [discriminate |]. intros [= <-]. apply foldl_s_max_spec.
Qed.

(** A maximum is unique. *)
Lemma max_unique (P : R -> Prop) (m1 m2 : R) :
  P m1 -> (forall v, P v -> s_ltb m1 v = false) ->
  P m2 -> (forall v, P v -> s_ltb m2 v = false) ->
  m1 = m2.
Proof.
  intros H1 G1 H2 G2. apply s_ltb_total; [apply G1 | apply G2]; assumption.
Qed.

End MaxFacts.

Lemma mapM_compose_rel {A B C : Type} (f : A -> result B) (g : B -> result C)
    (Rel : A -> C -> Prop) (l : list A) :
  (forall a, a ∈ l -> exists b c, f a = Ok b /\ g b = Ok c /\ Rel a c) ->
  exists m out, mapM f l = Ok m /\ mapM g m = Ok out /\ Forall2 Rel l out.
Proof.
  induction l as [| a l IH]; intros Hl.
  - exists [], []. repeat split; constructor.
  - destruct (Hl a ltac:(left)) as (b & c & Hb & Hc & Hr).
    destruct IH as (m & out & Hm & Hout & Hrel).
    { intros a' Ha'. apply Hl. right. exact Ha'. }
    exists (b :: m), (c :: out). cbn. rewrite Hb, Hm. cbn. rewrite Hc, Hout. cbn.
    repeat split. constructor; assumption.
Qed.

Lemma mapM_total_rel {A B : Type} (f : A -> result B) (Rel : A -> B -> Prop) (l : list A) :
  (forall a, a ∈ l -> exists b, f a = Ok b /\ Rel a b) ->
  exists out, mapM f l = Ok out /\ Forall2 Rel l out.
Proof.
  induction l as [| a l IH]; intros Hl.
  - exists []. split; constructor.
  - destruct (Hl a ltac:(left)) as (b & Hb & Hr).
    destruct IH as (out & Hout & Hrel).
    { intros a' Ha'. apply Hl. right. exact Ha'. }
    exists (b :: out). cbn. rewrite Hb, Hout. cbn. split; [reflexivity |].
    constructor; assumption.
Qed.

Section PoolGroup.
Context {R : Type} `{ScalarLaws R}.

Lemma foldl_zip_max_spec (a2 q : nat) (rest : list (matrix R)) (m0 : matrix R) :
  rect2 a2 q m0 -> Forall (rect2 a2 q) rest ->
  rect2 a2 q (foldl (zip_with (zip_with s_max)) m0 rest) /\
  forall c d, c < a2 -> d < q ->
    exists v,
      (row ← foldl (zip_with (zip_with s_max)) m0 rest !! c; (row : list R) !! d) = Some v /\
      (exists m, m ∈ m0 :: rest /\ (row ← m !! c; (row : list R) !! d) = Some v) /\
      (forall m u, m ∈ m0 :: rest -> (row ← m !! c; (row : list R) !! d) = Some u ->
                   s_ltb v u = false).
Proof.
  intros Hm0 Hrest. revert m0 Hm0.
  induction Hrest as [| m1 rest Hm1 _ IH]; intros m0 Hm0; cbn [foldl].
  - split; [exact Hm0 |]. intros c d Hc Hd.
    destruct Hm0 as [Hh Hw].
    assert (is_Some (m0 !! c)) as [row Hrow] by (apply lookup_lt_is_Some_2; lia).
    pose proof (proj1 (Forall_lookup _ _) Hw c row Hrow) as Hlen. cbn beta in Hlen.
    assert (is_Some (row !! d)) as [v Hv] by (apply lookup_lt_is_Some_2; lia).
    exists v. rewrite Hrow. sbind. split; [exact Hv |]. split.
    + exists m0. split; [left |]. rewrite Hrow. exact Hv.
    + intros m u Hin Hu. apply list_elem_of_singleton in Hin as ->.
      rewrite Hrow in Hu. sbind. rewrite Hv in Hu. injection Hu as <-.
      apply s_ltb_irrefl.
  - assert (Hz : rect2 a2 q (zip_with (zip_with s_max) m0 m1)).
    { destruct Hm0 as [Hh0 Hw0], Hm1 as [Hh1 Hw1]. split.
      - rewrite length_zip_with. lia.
      - apply Forall_lookup. intros c row Hrow.
        apply lookup_zip_with_Some in Hrow as (r0 & r1 & -> & Hr0 & Hr1).
        pose proof (proj1 (Forall_lookup _ _) Hw0 c r0 Hr0) as L0.
        pose proof (proj1 (Forall_lookup _ _) Hw1 c r1 Hr1) as L1. cbn beta in *.
        rewrite length_zip_with. lia. }
    destruct (IH _ Hz) as [Hrect Hspec]. split; [exact Hrect |].
    intros c d Hc Hd. destruct (Hspec c d Hc Hd) as (v & Hv & (m & Hmin & Hmv) & Hge).
    assert (Hzl : forall u,
              (row ← zip_with (zip_with s_max) m0 m1 !! c; (row : list R) !! d) = Some u ->
              exists u0 u1,
                (row ← m0 !! c; (row : list R) !! d) = Some u0 /\
                (row ← m1 !! c; (row : list R) !! d) = Some u1 /\ u = s_max u0 u1).
    { intros u Hu. rewrite lookup_zip_with in Hu.
      destruct (m0 !! c) as [r0 |]; sbind; [| discriminate].
      destruct (m1 !! c) as [r1 |]; sbind; [| discriminate].
      rewrite lookup_zip_with in Hu.
      destruct (r0 !! d) as [u0 |]; sbind; [| discriminate].
      destruct (r1 !! d) as [u1 |]; sbind; [| discriminate].
      injection Hu as <-. eauto. }
    assert (Hz01 : exists u0 u1,
              (row ← m0 !! c; (row : list R) !! d) = Some u0 /\
              (row ← m1 !! c; (row : list R) !! d) = Some u1 /\
              (row ← zip_with (zip_with s_max) m0 m1 !! c; (row : list R) !! d)
              = Some (s_max u0 u1)).
    { destruct Hz as [Hzh Hzw].
      assert (is_Some (zip_with (zip_with s_max) m0 m1 !! c)) as [row Hrow]
        by (apply lookup_lt_is_Some_2; lia).
      pose proof (proj1 (Forall_lookup _ _) Hzw c row Hrow) as Hlen. cbn beta in Hlen.
      assert (is_Some (row !! d)) as [u Hu] by (apply lookup_lt_is_Some_2; lia).
      destruct (Hzl u) as (u0 & u1 & Ea & Eb & ->).
      { rewrite Hrow. exact Hu. }
      exists u0, u1. rewrite Hrow. sbind. auto. }
    destruct Hz01 as (u0 & u1 & Hu0 & Hu1 & Hu01).
    destruct (s_max_cases u0 u1) as (Hcase & Hg0 & Hg1).
    exists v. split; [exact Hv |]. split.
    + apply elem_of_cons in Hmin as [-> | Hmin].
      * rewrite Hu01 in Hmv. injection Hmv as <-.
        destruct Hcase as [-> | ->].
        -- exists m0. split; [left | exact Hu0].
        -- exists m1. split; [right; left | exact Hu1].
      * exists m. split; [right; right; exact Hmin | exact Hmv].
    + intros m' u Hin Hu.
      assert (Hvz : s_ltb v (s_max u0 u1) = false)
        by (apply (Hge (zip_with (zip_with s_max) m0 m1)); [left | exact Hu01]).
      apply elem_of_cons in Hin as [-> | Hin].
      { rewrite Hu0 in Hu. injection Hu as <-. exact (s_geb_trans _ _ _ Hvz Hg0). }
      apply elem_of_cons in Hin as [-> | Hin].
      { rewrite Hu1 in Hu. injection Hu as <-. exact (s_geb_trans _ _ _ Hvz Hg1). }
      apply (Hge m'); [right; exact Hin | exact Hu].
Qed.


(** One row of tiles on the fast path: [amax_axis0] then [amax] of each
    row yields, for every tile column [c], a maximum of the tile. *)
Lemma pool_group_spec (p a2 q : nat) (grp : list (matrix R)) :
  length grp = p -> 0 < p -> 0 < q -> Forall (rect2 a2 q) grp ->
  exists m3 outrow,
    amax_axis0 grp = Ok m3 /\ mapM amax m3 = Ok outrow /\
    length outrow = a2 /\
    forall c, c < a2 ->
      exists r,
        outrow !! c = Some r /\
        (exists b d, (m ← grp !! b; row ← (m : matrix R) !! c; (row : list R) !! d) = Some r) /\
        (forall b d v,
           (m ← grp !! b; row ← (m : matrix R) !! c; (row : list R) !! d) = Some v ->
           s_ltb r v = false).
Proof.
  intros Hlen Hp Hq Hgrp.
  destruct grp as [| m0 rest]; [cbn in Hlen; lia |].
  apply Forall_cons in Hgrp as [Hm0 Hrest].
  destruct (foldl_zip_max_spec a2 q rest m0 Hm0 Hrest) as [Hrect Hspec].
  set (m3 := foldl (zip_with (zip_with s_max)) m0 rest) in *.
  destruct (mapM_total_rel amax (fun row r => amax row = Ok r) m3) as (outrow & Hout & Hrel).
  { intros row Hrow. destruct Hrect as [_ Hw].
    pose proof (proj1 (Forall_forall _ _) Hw row Hrow) as Hl. cbn beta in Hl.
    destruct row as [| v row]; [cbn in Hl; lia |]. eexists. split; reflexivity. }
  exists m3, outrow. split; [reflexivity |]. split; [exact Hout |].
  destruct Hrect as [Hh Hw].
  split; [rewrite <- (Forall2_length _ _ _ Hrel); exact Hh |].
  intros c Hc.
  assert (is_Some (m3 !! c)) as [row Hrow] by (apply lookup_lt_is_Some_2; lia).
  destruct (Forall2_lookup_l _ _ _ _ _ Hrel Hrow) as (r & Hr & Hamax).
  pose proof (proj1 (Forall_lookup _ _) Hw c row Hrow) as Hrl. cbn beta in Hrl.
  destruct (amax_spec _ _ Hamax) as [Hin Hge].
  exists r. split; [exact Hr |]. split.
  - apply list_elem_of_lookup in Hin as [d Hd].
    assert (Hdq : d < q) by (rewrite <- Hrl; eapply lookup_lt_Some; exact Hd).
    destruct (Hspec c d Hc Hdq) as (v & Hv & (m & Hmin & Hmv) & _).
    rewrite Hrow in Hv. sbind. rewrite Hd in Hv. injection Hv as <-.
    apply list_elem_of_lookup in Hmin as [b Hb].
    exists b, d. rewrite Hb. exact Hmv.
  - intros b d v Hv.
    destruct ((m0 :: rest) !! b) as [m |] eqn:Hb; sbind; [| discriminate].
    assert (Hdq : d < q).
    { destruct (m !! c) as [mrow |] eqn:Hmc; sbind; [| discriminate].
      assert (Hmrect : rect2 a2 q m).
      { apply (proj1 (Forall_lookup _ _) (Forall_cons_2 _ _ _ Hm0 Hrest) b m Hb). }
      destruct Hmrect as [_ Hmw].
      pose proof (proj1 (Forall_lookup _ _) Hmw c mrow Hmc) as Hl. cbn beta in Hl.
      rewrite <- Hl. eapply lookup_lt_Some. exact Hv. }
    destruct (Hspec c d Hc Hdq) as (v' & Hv' & _ & Hge').
    rewrite Hrow in Hv'. sbind.
    apply (s_geb_trans r v' v).
    + apply Hge. apply list_elem_of_lookup. exists d. exact Hv'.
    + apply (Hge' m); [apply list_elem_of_lookup; exists b; exact Hb | exact Hv].
Qed.

(** The fast forward pass on a tiled array: every output cell holds a
    maximum of its tile. *)
Lemma max_axis3_axis4_spec (n ch a1 p a2 q : nat) (x6 : tensor6 R) :
  rect6 n ch a1 p a2 q x6 -> 0 < p -> 0 < q ->
  exists out,
    max_axis3_axis4 x6 = Ok out /\
    rect4 n ch a1 a2 out /\
    forall i j a c, i < n -> j < ch -> a < a1 -> c < a2 ->
      exists r,
        get4 out i j a c = Some r /\
        (exists b d, get6 x6 i j a b c d = Some r) /\
        (forall b d v, get6 x6 i j a b c d = Some v -> s_ltb r v = false).
Proof.
  intros [Hn Hx6] Hp Hq.
  set (Rel := fun (grp : list (matrix R)) (outrow : list R) =>
                length outrow = a2 /\
                forall c, c < a2 ->
                  exists r,
                    outrow !! c = Some r /\
                    (exists b d, (m ← grp !! b; row ← (m : matrix R) !! c;
                                  (row : list R) !! d) = Some r) /\
                    (forall b d v,
                       (m ← grp !! b; row ← (m : matrix R) !! c; (row : list R) !! d)
                       = Some v -> s_ltb r v = false)).
  destruct (mapM_compose_rel (mapM (mapM amax_axis0)) (mapM (mapM (mapM amax)))
              (Forall2 (Forall2 Rel)) x6) as (m & out & Hm & Hout & Hrel).
  { intros ti Hti.
    pose proof (proj1 (Forall_forall _ _) Hx6 ti Hti) as [_ Hti4].
    destruct (mapM_compose_rel (mapM amax_axis0) (mapM (mapM amax)) (Forall2 Rel) ti)
      as (m & out & Hm & Hout & Hrel); [| eauto].
    intros g Hg.
    pose proof (proj1 (Forall_forall _ _) Hti4 g Hg) as [_ Hg4].
    destruct (mapM_compose_rel amax_axis0 (mapM amax) Rel g)
      as (m & out & Hm & Hout & Hrel); [| eauto].
    intros grp Hgrp.
    pose proof (proj1 (Forall_forall _ _) Hg4 grp Hgrp) as [Hgl Hgr].
    destruct (pool_group_spec p a2 q grp Hgl Hp Hq Hgr) as (m3 & outrow & ? & ? & ? & ?).
    exists m3, outrow. unfold Rel. auto. }
  exists out. unfold max_axis3_axis4. rewrite Hm. sbind. split; [exact Hout |].
  split.
  - split; [rewrite <- (Forall2_length _ _ _ Hrel); exact Hn |].
    apply Forall_lookup. intros i oi Hoi.
    destruct (Forall2_lookup_r _ _ _ _ _ Hrel Hoi) as (ti & Hti & Hrel2).
    pose proof (proj1 (Forall_lookup _ _) Hx6 i ti Hti) as [Hc Hti4].
    split; [rewrite <- (Forall2_length _ _ _ Hrel2); exact Hc |].
    apply Forall_lookup. intros j oij Hoij.
    destruct (Forall2_lookup_r _ _ _ _ _ Hrel2 Hoij) as (g & Hg & Hrel3).
    pose proof (proj1 (Forall_lookup _ _) Hti4 j g Hg) as [Ha Hg4].
    split; [rewrite <- (Forall2_length _ _ _ Hrel3); exact Ha |].
    apply Forall_lookup. intros a orow Horow.
    destruct (Forall2_lookup_r _ _ _ _ _ Hrel3 Horow) as (grp & Hgrp & [Hl _]).
    exact Hl.
  - intros i j a c Hi Hj Ha Hc.
    assert (is_Some (x6 !! i)) as [ti Hti] by (apply lookup_lt_is_Some_2; lia).
    pose proof (proj1 (Forall_lookup _ _) Hx6 i ti Hti) as [Hcl Hti4].
    assert (is_Some (ti !! j)) as [g Hg] by (apply lookup_lt_is_Some_2; lia).
    pose proof (proj1 (Forall_lookup _ _) Hti4 j g Hg) as [Hal Hg4].
    assert (is_Some (g !! a)) as [grp Hgrp] by (apply lookup_lt_is_Some_2; lia).
    destruct (Forall2_lookup_l _ _ _ _ _ Hrel Hti) as (oi & Hoi & Hrel2).
    destruct (Forall2_lookup_l _ _ _ _ _ Hrel2 Hg) as (oij & Hoij & Hrel3).
    destruct (Forall2_lookup_l _ _ _ _ _ Hrel3 Hgrp) as (orow & Horow & [_ Hspec]).
    destruct (Hspec c Hc) as (r & Hr & Hex & Hge).
    exists r. unfold get4, get6. rewrite Hoi, Hti. sbind. rewrite Hoij, Hg. sbind.
    unfold get4. rewrite Horow, Hgrp. sbind. auto.
Qed.

End PoolGroup.

Section ShapeReadOff.
Context {R : Type}.

Lemma get4_lt (n ch h w : nat) (x : tensor4 R) (i j r c : nat) (v : R) :
  rect4 n ch h w x -> get4 x i j r c = Some v -> i < n /\ j < ch /\ r < h /\ c < w.
Proof.
  intros [Hn Hx] (xi & img & row & Hxi & Himg & Hrow & Hv)%get4_Some.
  pose proof (proj1 (Forall_lookup _ _) Hx i xi Hxi) as [Hch Himgs].
  pose proof (proj1 (Forall_lookup _ _) Himgs j img Himg) as [Hh Hrows].
  pose proof (proj1 (Forall_lookup _ _) Hrows r row Hrow) as Hw. cbn beta in Hw.
  apply lookup_lt_Some in Hxi, Himg, Hrow, Hv. lia.
Qed.

(** The shape read off a rectangular nested array: it is a shape of the
    array, and it is the given one up to the first empty axis. *)
Lemma shape4_read_off (n ch h w : nat) (x : tensor4 R) :
  rect4 n ch h w x ->
  exists ch' h' w',
    shape4 x = (n, ch', h', w') /\ rect4 n ch' h' w' x /\
    (0 < n -> ch' = ch) /\ (0 < n -> 0 < ch -> h' = h) /\
    (0 < n -> 0 < ch -> 0 < h -> w' = w) /\
    (h' = h \/ h' = 0) /\ (w' = w \/ w' = 0).
Proof.
  intros [Hn Hx]. unfold shape4. cbv zeta. rewrite Hn.
  destruct x as [| xi x]; simpl.
  { exists 0, 0, 0. cbn in Hn. subst n. repeat split; try lia; auto; constructor. }
  pose proof (Forall_inv Hx) as [Hch Hxi]. rewrite Hch.
  destruct xi as [| img xi]; simpl.
  { exists 0, 0, 0. cbn in Hch. subst ch. repeat split; try lia; auto.
    eapply Forall_impl; [exact Hx |]. intros y [Hy _]. cbn beta.
    destruct y; [| discriminate]. split; [reflexivity | constructor]. }
  pose proof (Forall_inv Hxi) as [Hh Himg]. rewrite Hh.
  destruct img as [| row img]; simpl.
  { exists ch, 0, 0. cbn in Hh. subst h. repeat split; try lia; auto.
    eapply Forall_impl; [exact Hx |]. intros y [Hy Hys]. cbn beta.
    split; [exact Hy |]. eapply Forall_impl; [exact Hys |].
    intros m [Hm _]. destruct m; [| discriminate]. split; [reflexivity | constructor]. }
  pose proof (Forall_inv Himg) as Hw. cbn beta in Hw. rewrite Hw.
  exists ch, h, w. repeat split; auto.
Qed.

(** Axes under an empty axis carry no constraint. *)
Lemma rect4_change (n ch h w h2 w2 : nat) (x : tensor4 R) :
  rect4 n ch h w x ->
  (n = 0 \/ ch = 0 \/ (h = h2 /\ (h = 0 \/ w = w2))) ->
  rect4 n ch h2 w2 x.
Proof.
  intros [Hn Hx] Hd. split; [exact Hn |].
  destruct Hd as [-> | Hd].
  { destruct x; [constructor | discriminate]. }
  eapply Forall_impl; [exact Hx |]. intros xi [Hch Hxi]. cbn beta.
  split; [exact Hch |].
  destruct Hd as [-> | [<- Hd]].
  - destruct xi; [constructor | discriminate].
  - destruct Hd as [-> | <-]; [| exact Hxi].
    eapply Forall_impl; [exact Hxi |].
    intros m [Hm _]. destruct m; [| discriminate]. split; [reflexivity | constructor].
Qed.

Lemma elem_of_window (x : tensor4 R) (i j r0 r1 c0 c1 : nat) (win : matrix R) (v : R) :
  window_of x i j r0 r1 c0 c1 = Ok win ->
  v ∈ concat win <->
  exists r c, r0 <= r < r1 /\ c0 <= c < c1 /\ get4 x i j r c = Some v.
Proof.
  intros Hwin. split.
  - intros Hv. apply list_elem_of_In, in_concat in Hv as (row & Hrow & Hv).
    apply list_elem_of_In, list_elem_of_lookup in Hrow as [a Ha].
    apply list_elem_of_In, list_elem_of_lookup in Hv as [b Hb].
    pose proof (window_of_entry x i j r0 r1 c0 c1 win (r0 + a) (c0 + b) Hwin
                  ltac:(lia) ltac:(lia)) as E.
    replace (r0 + a - r0) with a in E by lia.
    replace (c0 + b - c0) with b in E by lia.
    rewrite Ha in E. sbind. rewrite Hb in E.
    destruct (Nat.ltb_spec (r0 + a) r1), (Nat.ltb_spec (c0 + b) c1);
      cbn [andb] in E; try discriminate.
    exists (r0 + a), (c0 + b). split; [lia |]. split; [lia |]. symmetry. exact E.
  - intros (r & c & Hr & Hc & Hv).
    pose proof (window_of_entry x i j r0 r1 c0 c1 win r c Hwin
                  ltac:(lia) ltac:(lia)) as E.
    destruct (Nat.ltb_spec r r1), (Nat.ltb_spec c c1); try lia. cbn [andb] in E.
    rewrite Hv in E.
    destruct (win !! (r - r0)) as [row |] eqn:Hrow; sbind; [| discriminate].
    apply list_elem_of_In, in_concat. exists row. split.
    + apply list_elem_of_In, list_elem_of_lookup. eauto.
    + apply list_elem_of_In, list_elem_of_lookup. eauto.
Qed.

Lemma get6_tile (n ch p q a1 a2 : nat) (x : tensor4 R) (i j a b c d : nat) :
  rect4 n ch (a1 * p) (a2 * q) x ->
  get6 (map (map (tile_image p q a1 a2)) x) i j a b c d
  = if (a <? a1) && (b <? p) && (c <? a2) && (d <? q)
    then get4 x i j (a * p + b) (c * q + d) else None.
Proof.
  intros Hx. unfold get6. rewrite lookup_map.
  destruct (x !! i) as [xi |] eqn:Hxi; sbind.
  2:{ unfold get4. rewrite Hxi. sbind. destruct (_ && _); reflexivity. }
  rewrite lookup_map.
  destruct (xi !! j) as [img |] eqn:Himg; sbind.
  2:{ unfold get4. rewrite Hxi. sbind. rewrite Himg. sbind.
      destruct (_ && _); reflexivity. }
  assert (Hrect : rect2 (a1 * p) (a2 * q) img).
  { destruct Hx as [_ Hx].
    pose proof (proj1 (Forall_lookup _ _) Hx i xi Hxi) as [_ Hi].
    exact (proj1 (Forall_lookup _ _) Hi j img Himg). }
  destruct ((a <? a1) && (b <? p) && (c <? a2) && (d <? q)) eqn:E.
  - apply andb_prop in E as [E Hd]. apply andb_prop in E as [E Hc].
    apply andb_prop in E as [Ha Hb].
    apply Nat.ltb_lt in Ha, Hb, Hc, Hd.
    rewrite get4_tile_image by assumption.
    unfold get4. rewrite Hxi. sbind. rewrite Himg. reflexivity.
  - destruct (get4 (tile_image p q a1 a2 img) a b c d) as [v |] eqn:Hv; [| reflexivity].
    exfalso. pose proof (rect4_tile_image p q a1 a2 img Hrect) as Ht.
    destruct (get4_lt _ _ _ _ _ _ _ _ _ _ Ht Hv) as (Ha & Hb & Hc & Hd).
    apply Nat.ltb_lt in Ha, Hb, Hc, Hd. rewrite Ha, Hb, Hc, Hd in E. discriminate.
Qed.

End ShapeReadOff.

Section PoolFastForward.
Context {R : Type} `{ScalarLaws R}.

(** The forward pass of a node whose square window equals the stride and
    tiles the input: the fast path is taken, the caches are set, and
    every output cell is a maximum of its tile. *)
Lemma activate_fast_spec (self : MaxPool) (n ch A B p : nat) (x : tensor4 R) :
  0 < p -> mp_pool self = (p, p) -> mp_stride self = p ->
  rect4 n ch (A * p) (B * p) x ->
  exists ch' A' B' out,
    MaxPool_activate self x
    = (set_cache_method
         (set_cache_x_reshaped (set_x_cache self x)
            (map (map (tile_image p p A' B')) x)) "reshape", Ok out) /\
    shape4 x = (n, ch', A' * p, B' * p) /\
    rect4 n ch' (A' * p) (B' * p) x /\
    rect4 n ch' A' B' out /\
    (0 < n -> ch' = ch) /\ (0 < n -> 0 < ch -> A' = A) /\
    (0 < n -> 0 < ch -> 0 < A -> B' = B) /\
    forall i j a c, i < n -> j < ch' -> a < A' -> c < B' ->
      exists r,
        get4 out i j a c = Some r /\
        (exists b d, b < p /\ d < p /\ get4 x i j (a * p + b) (c * p + d) = Some r) /\
        (forall b d v, b < p -> d < p ->
           get4 x i j (a * p + b) (c * p + d) = Some v -> s_ltb r v = false).
Proof.
  intros Hp Hpool Hsd Hx.
  destruct (shape4_read_off _ _ _ _ _ Hx)
    as (ch' & h' & w' & Hshape & Hrect & Hch & Hh & Hw & Hh0 & Hw0).
  assert (Eh : h' = h' / p * p).
  { destruct Hh0 as [-> | ->]; [rewrite Nat.div_mul by lia; reflexivity |].
    rewrite Nat.Div0.div_0_l. reflexivity. }
  assert (Ew : w' = w' / p * p).
  { destruct Hw0 as [-> | ->]; [rewrite Nat.div_mul by lia; reflexivity |].
    rewrite Nat.Div0.div_0_l. reflexivity. }
  set (A' := h' / p) in *. set (B' := w' / p) in *.
  assert (Hrect' : rect4 n ch' (A' * p) (B' * p) x) by (rewrite <- Eh, <- Ew; exact Hrect).
  destruct (max_axis3_axis4_spec n ch' A' p B' p _ (rect6_tile _ _ _ _ _ _ _ Hrect') Hp Hp)
    as (out & Hout & Hro & Hspec).
  exists ch', A', B', out. split; [| split; [| split; [| split; [| split; [| split; [| split]]]]]].
  - unfold MaxPool_activate.
    replace (mp_stride (set_x_cache self x)) with p by (symmetry; exact Hsd).
    replace (mp_pool (set_x_cache self x)) with (p, p) by (symmetry; exact Hpool).
    rewrite Hshape. rewrite !Nat.eqb_refl. cbn [andb].
    unfold tiles_test, nat_mod.
    destruct (Nat.eqb_spec p 0) as [-> | _]; [lia |]. sbind.
    rewrite Eh at 1. rewrite Nat.Div0.mod_mul. cbn [Nat.eqb]. sbind.
    rewrite Ew at 1. rewrite Nat.Div0.mod_mul. cbn [Nat.eqb].
    fold A' B'. rewrite (reshape6_tiles _ _ _ _ _ _ _ Hrect'). rewrite Hout. reflexivity.
  - rewrite Hshape, <- Eh, <- Ew. reflexivity.
  - exact Hrect'.
  - exact Hro.
  - exact Hch.
  - intros Hn Hc. specialize (Hh Hn Hc). unfold A'. rewrite Hh.
    apply Nat.div_mul. lia.
  - intros Hn Hc HA.
    assert (0 < A * p) by (apply Nat.mul_pos_pos; assumption).
    specialize (Hw Hn Hc ltac:(assumption)). unfold B'. rewrite Hw.
    apply Nat.div_mul. lia.
  - intros i j a c Hi Hj Ha Hc.
    destruct (Hspec i j a c Hi Hj Ha Hc) as (r & Hr & (b0 & d0 & Hbd) & Hge).
    exists r. split; [exact Hr |]. split.
    + rewrite (get6_tile _ _ _ _ _ _ _ _ _ _ _ _ _ Hrect') in Hbd.
      destruct (_ && _) eqn:E in Hbd; [| discriminate].
      apply andb_prop in E as [E Hd]. apply andb_prop in E as [E _].
      apply andb_prop in E as [_ Hb]. apply Nat.ltb_lt in Hb, Hd.
      exists b0, d0. auto.
    + intros b d v Hb Hd Hv. apply (Hge b d).
      rewrite (get6_tile _ _ _ _ _ _ _ _ _ _ _ _ _ Hrect').
      apply Nat.ltb_lt in Ha, Hb, Hc, Hd. rewrite Ha, Hb, Hc, Hd. exact Hv.
Qed.

End PoolFastForward.

Section PoolForwardAgree.
Context {R : Type} `{ScalarLaws R}.

(** The maximum of a tile, seen as the window of the fallback path. *)
Lemma window_max_tile (x : tensor4 R) (p i j a c : nat) (mx : R) :
  window_max x p p p i j a c = Ok mx ->
  (exists b d, b < p /\ d < p /\ get4 x i j (a * p + b) (c * p + d) = Some mx) /\
  (forall b d v, b < p -> d < p ->
     get4 x i j (a * p + b) (c * p + d) = Some v -> s_ltb mx v = false).
Proof.
  unfold window_max. intros Hmx.
  destruct (window_of x i j (a * p) (p + a * p) (c * p) (p + c * p)) as [win |] eqn:Hwin;
    sbind; [| discriminate].
  apply amax_spec in Hmx as [Hin Hge]. split.
  - apply (elem_of_window _ _ _ _ _ _ _ _ _ Hwin) in Hin as (r & cc & Hr & Hc & Hv).
    exists (r - a * p), (cc - c * p). split; [lia |]. split; [lia |].
    replace (a * p + (r - a * p)) with r by lia.
    replace (c * p + (cc - c * p)) with cc by lia. exact Hv.
  - intros b d v Hb Hd Hv. apply Hge.
    apply (elem_of_window _ _ _ _ _ _ _ _ _ Hwin).
    exists (a * p + b), (c * p + d). split; [lia |]. split; [lia | exact Hv].
Qed.


End PoolForwardAgree.

Lemma imapM_total_rel {A B : Type} (f : nat -> A -> result B) (Rel : nat -> A -> B -> Prop)
    (l : list A) :
  (forall i a, l !! i = Some a -> exists b, f i a = Ok b /\ Rel i a b) ->
  exists out,
    imapM f l = Ok out /\ length out = length l /\
    forall i a, l !! i = Some a -> exists b, out !! i = Some b /\ Rel i a b.
Proof.
  intros Hf. unfold imapM.
  destruct (mapM_total_rel (fun ia => f (fst ia) (snd ia))
              (fun ia b => Rel (fst ia) (snd ia) b) (zip (seq 0 (length l)) l))
    as (out & Hout & Hrel).
  { intros [i a] Hin. cbn [fst snd].
    apply list_elem_of_lookup in Hin as [k Hk].
    apply lookup_zip_with_Some in Hk as (i' & a' & [= <- <-] & Hi & Ha).
    apply lookup_seq in Hi as [-> _]. apply Hf. exact Ha. }
  exists out. split; [exact Hout |].
  assert (Hlen : length out = length l).
  { rewrite <- (Forall2_length _ _ _ Hrel), length_zip_with, length_seq. lia. }
  split; [exact Hlen |].
  intros i a Ha.
  assert (Hz : zip (seq 0 (length l)) l !! i = Some (i, a)).
  { apply lookup_zip_with_Some. exists i, a. split; [reflexivity |].
    split; [| exact Ha]. apply lookup_seq. split; [reflexivity |].
    eapply lookup_lt_Some. exact Ha. }
  destruct (Forall2_lookup_l _ _ _ _ _ Hrel Hz) as (b & Hb & Hr).
  exists b. auto.
Qed.

Lemma bindex_same {A : Type} (n : nat) (l : list A) (i : nat) (a : A) :
  length l = n -> l !! i = Some a -> bindex n l i = Ok a.
Proof.
  intros Hn Ha. unfold bindex. rewrite Hn, Nat.eqb_refl, Ha. reflexivity.
Qed.

(** [bzip3] on operands of one shape. *)
Lemma bzip3_total_rel {A B C : Type} (f : A -> B -> result C)
    (Rel : A -> B -> C -> Prop)
    (x : list (list (list A))) (y : list (list (list B))) :
  length y = length x ->
  (forall i xi yi, x !! i = Some xi -> y !! i = Some yi -> length yi = length xi) ->
  (forall i j xi yi xij yij,
     x !! i = Some xi -> y !! i = Some yi -> xi !! j = Some xij -> yi !! j = Some yij ->
     length yij = length xij) ->
  (forall i j a xi yi xij yij xa ya,
     x !! i = Some xi -> y !! i = Some yi -> xi !! j = Some xij -> yi !! j = Some yij ->
     xij !! a = Some xa -> yij !! a = Some ya ->
     exists c, f xa ya = Ok c /\ Rel xa ya c) ->
  exists out,
    bzip3 f x y = Ok out /\ length out = length x /\
    forall i xi, x !! i = Some xi ->
      exists yi oi, y !! i = Some yi /\ out !! i = Some oi /\ length oi = length xi /\
        forall j xij, xi !! j = Some xij ->
          exists yij oij, yi !! j = Some yij /\ oi !! j = Some oij /\
            length oij = length xij /\
            forall a xa, xij !! a = Some xa ->
              exists ya c, yij !! a = Some ya /\ oij !! a = Some c /\ Rel xa ya c.
Proof.
  intros H1 H2 H3 Hf. unfold bzip3.
  destruct (imapM_total_rel
              (fun i xi =>
                 let! yi := bindex (length x) y i in
                 imapM (fun j xij =>
                   let! yij := bindex (length xi) yi j in
                   imapM (fun a xa => let! ya := bindex (length xij) yij a in f xa ya)
                         xij) xi)
              (fun (i : nat) (xi : list (list A)) (oi : list (list C)) =>
                 exists yi : list (list B), y !! i = Some yi /\ length oi = length xi /\
                   forall (j : nat) (xij : list A), xi !! j = Some xij ->
                     exists (yij : list B) (oij : list C),
                       yi !! j = Some yij /\ oi !! j = Some oij /\
                       length oij = length xij /\
                       forall (a : nat) (xa : A), xij !! a = Some xa ->
                         exists ya c, yij !! a = Some ya /\ oij !! a = Some c /\
                                      Rel xa ya c) x)
    as (out & Hout & Hlen & Hspec).
  2:{ exists out. split; [exact Hout |]. split; [exact Hlen |].
      intros i xi Hxi. destruct (Hspec i xi Hxi) as (oi & Hoi & yi & Hyi & Hl & Hrest).
      exists yi, oi. auto. }
  intros i xi Hxi.
    assert (is_Some (y !! i)) as [yi Hyi].
    { apply lookup_lt_is_Some_2. rewrite H1. eapply lookup_lt_Some. exact Hxi. }
    rewrite (bindex_same _ _ _ _ H1 Hyi). sbind.
    pose proof (H2 i xi yi Hxi Hyi) as Hli.
    destruct (imapM_total_rel
                (fun j xij =>
                   let! yij := bindex (length xi) yi j in
                   imapM (fun a xa => let! ya := bindex (length xij) yij a in f xa ya) xij)
                (fun (j : nat) (xij : list A) (oij : list C) =>
                   exists yij : list B, yi !! j = Some yij /\ length oij = length xij /\
                     forall a xa, xij !! a = Some xa ->
                       exists ya c, yij !! a = Some ya /\ oij !! a = Some c /\ Rel xa ya c)
                xi) as (oi & Hoi & Hleni & Hspeci).
    { intros j xij Hxij.
      assert (is_Some (yi !! j)) as [yij Hyij].
      { apply lookup_lt_is_Some_2. rewrite Hli. eapply lookup_lt_Some. exact Hxij. }
      rewrite (bindex_same _ _ _ _ Hli Hyij). sbind.
      pose proof (H3 i j xi yi xij yij Hxi Hyi Hxij Hyij) as Hlj.
      destruct (imapM_total_rel
                  (fun a xa => let! ya := bindex (length xij) yij a in f xa ya)
                  (fun (a : nat) (xa : A) (c : C) =>
                     exists ya : B, yij !! a = Some ya /\ Rel xa ya c) xij)
        as (oij & Hoij & Hlenj & Hspecj).
      { intros a xa Hxa.
        assert (is_Some (yij !! a)) as [ya Hya].
        { apply lookup_lt_is_Some_2. rewrite Hlj. eapply lookup_lt_Some. exact Hxa. }
        rewrite (bindex_same _ _ _ _ Hlj Hya). sbind.
        destruct (Hf i j a xi yi xij yij xa ya Hxi Hyi Hxij Hyij Hxa Hya) as (c & Hc & Hr).
        exists c. split; [exact Hc |]. exists ya. auto. }
      exists oij. split; [exact Hoij |]. exists yij. split; [exact Hyij |].
      split; [exact Hlenj |].
      intros a xa Hxa. destruct (Hspecj a xa Hxa) as (c & Hc & ya & Hya & Hr).
      exists ya, c. auto. }
    exists oi. split; [exact Hoi |]. exists yi. split; [exact Hyi |].
    split; [exact Hleni |].
    intros j xij Hxij. destruct (Hspeci j xij Hxij) as (oij & Hoij & yij & Hyij & Hl & Hr).
    exists yij, oij. auto.
Qed.

Section PoolFastBackwardGroup.
Context {R : Type} `{Scalar R}.

Lemma mask_group_ok (B : nat) (xa : list (matrix R)) (ya : list R) :
  Forall (fun xb => length xb = B) xa -> length ya = B ->
  mask_group xa ya = Ok (mask_group_val xa ya).
Proof.
  intros Hxa Hya. unfold mask_group, mask_group_val. apply mapM_ok. intros xb Hxb.
  pose proof (proj1 (Forall_forall _ _) Hxa xb Hxb) as Hlen. cbn beta in Hlen.
  apply imapM_ok. intros c xd Hxd.
  assert (is_Some (ya !! c)) as [yc Hyc].
  { apply lookup_lt_is_Some_2. rewrite Hya, <- Hlen. eapply lookup_lt_Some. exact Hxd. }
  rewrite (bindex_same _ _ _ yc) by (try exact Hyc; lia). rewrite Hyc. reflexivity.
Qed.

Lemma scatter_group_ok (B : nat) (ma : list (list (list bool))) (da : list R) :
  Forall (fun mb => length mb = B) ma -> length da = B ->
  scatter_group ma da = Ok (scatter_group_val ma da).
Proof.
  intros Hma Hda. unfold scatter_group, scatter_group_val. apply mapM_ok. intros mb Hmb.
  pose proof (proj1 (Forall_forall _ _) Hma mb Hmb) as Hlen. cbn beta in Hlen.
  apply imapM_ok. intros c md Hmd.
  assert (is_Some (da !! c)) as [dc Hdc].
  { apply lookup_lt_is_Some_2. rewrite Hda, <- Hlen. eapply lookup_lt_Some. exact Hmd. }
  rewrite (bindex_same _ _ _ dc) by (try exact Hdc; lia). rewrite Hdc. reflexivity.
Qed.

Lemma length_filter_concat {A : Type} (P : A -> Prop) `{forall a, Decision (P a)}
    (ls : list (list A)) :
  length (filter P (concat ls)) = sum_list (map (fun l => length (filter P l)) ls).
Proof.
  induction ls as [| l ls IH]; cbn [concat map sum_list]; [reflexivity |].
  rewrite filter_app, length_app, IH. reflexivity.
Qed.

Lemma length_filter_map_true {A : Type} (f : A -> bool) (l : list A) :
  length (filter (fun m : bool => m = true) (map f l))
  = length (filter (fun a => f a = true) l).
Proof.
  induction l as [| a l IH]; cbn [map]; [reflexivity |].
  rewrite !filter_cons. destruct (decide (f a = true)) as [E | E].
  - cbn [length]. rewrite IH. reflexivity.
  - exact IH.
Qed.

(** The count that divides the gradient of tile column [c]: the number of
    elements of the tile equal to [yc]. *)
Lemma count_group_mask (xa : list (matrix R)) (ya : list R) (c : nat) (yc : R) :
  ya !! c = Some yc ->
  count_group (mask_group_val xa ya) c
  = length (filter (fun v => s_eqb v yc = true)
              (concat (map (fun xb => default [] (xb !! c)) xa))).
Proof.
  intros Hyc. unfold count_group, mask_group_val. rewrite length_filter_concat, !map_map. f_equal.
  apply map_ext. intros xb. rewrite list_lookup_imap.
  destruct (xb !! c) as [xd |]; cbn [fmap option_fmap option_map default from_option id].
  - rewrite Hyc. cbn [default from_option id]. apply length_filter_map_true.
  - reflexivity.
Qed.


Lemma dx_group_entry (xa : list (matrix R)) (ya da : list R) (b c dd : nat)
    (xb : matrix R) (xd : list R) (v yc dc : R) :
  xa !! b = Some xb -> xb !! c = Some xd -> xd !! dd = Some v ->
  ya !! c = Some yc -> da !! c = Some dc ->
  (gb ← dx_group_val xa ya da !! b; gc ← (gb : matrix R) !! c; (gc : list R) !! dd)
  = Some (s_div (if s_eqb v yc then dc else s_zero)
                (s_of_nat (count_group (mask_group_val xa ya) c))).
Proof.
  intros Hb Hc Hd Hyc Hdc.
  assert (Hm : mask_group_val xa ya !! b
               = Some (imap (fun c xd =>
                               map (fun v => s_eqb v (default s_zero (ya !! c))) xd) xb)).
  { unfold mask_group_val. rewrite lookup_map, Hb. reflexivity. }
  unfold dx_group_val, divide_group, scatter_group_val. rewrite !lookup_map, Hm. sbind.
  rewrite !list_lookup_imap, Hc. sbind.
  rewrite !lookup_map, Hd. sbind. rewrite Hyc, Hdc. reflexivity.
Qed.

Lemma dx_group_rect (p B q : nat) (xa : list (matrix R)) (ya da : list R) :
  length xa = p -> Forall (rect2 B q) xa ->
  length (dx_group_val xa ya da) = p /\ Forall (rect2 B q) (dx_group_val xa ya da).
Proof.
  intros Hp Hxa. unfold dx_group_val, divide_group, scatter_group_val, mask_group_val.
  split; [rewrite !length_map; exact Hp |].
  rewrite !map_map. apply Forall_map. eapply Forall_impl; [exact Hxa |].
  intros xb [Hl Hw]. cbn beta. split; [rewrite !length_imap; exact Hl |].
  apply Forall_lookup. intros c row Hrow.
  rewrite !list_lookup_imap in Hrow.
  destruct (xb !! c) as [xd |] eqn:Hxd; [| discriminate]. cbn in Hrow.
  injection Hrow as <-. rewrite !length_map.
  exact (proj1 (Forall_lookup _ _) Hw c xd Hxd).
Qed.

Lemma mask_group_val_lengths (B : nat) (xa : list (matrix R)) (ya : list R) :
  Forall (fun xb => length xb = B) xa ->
  Forall (fun mb => length mb = B) (mask_group_val xa ya).
Proof.
  intros Hxa. unfold mask_group_val. apply Forall_map.
  eapply Forall_impl; [exact Hxa |]. intros xb Hl. cbn beta.
  rewrite length_imap. exact Hl.
Qed.

End PoolFastBackwardGroup.

Section PoolFastBackward.
Context {R : Type} `{Scalar R}.

Lemma rect4_at (n ch h w : nat) (y : tensor4 R) (i : nat) (yi : list (matrix R)) :
  rect4 n ch h w y -> y !! i = Some yi ->
  i < n /\ length yi = ch /\ Forall (rect2 h w) yi.
Proof.
  intros [Hn Hy] Hyi. pose proof (proj1 (Forall_lookup _ _) Hy i yi Hyi) as [Hc Hi].
  apply lookup_lt_Some in Hyi. split; [lia | auto].
Qed.

Lemma rect2_at (h w : nat) (m : matrix R) (r : nat) (row : list R) :
  rect2 h w m -> m !! r = Some row -> r < h /\ length row = w.
Proof.
  intros [Hh Hw] Hrow. pose proof (proj1 (Forall_lookup _ _) Hw r row Hrow) as Hl.
  apply lookup_lt_Some in Hrow. split; [lia | exact Hl].
Qed.

Lemma rect6_at (n ch a1 b1 a2 b2 : nat) (t : tensor6 R) (i : nat) (ti : list (tensor4 R)) :
  rect6 n ch a1 b1 a2 b2 t -> t !! i = Some ti ->
  i < n /\ length ti = ch /\ Forall (rect4 a1 b1 a2 b2) ti.
Proof.
  intros [Hn Ht] Hti. pose proof (proj1 (Forall_lookup _ _) Ht i ti Hti) as [Hc Hi].
  apply lookup_lt_Some in Hti. split; [lia | auto].
Qed.

(** The fast path of the backward pass on the tiling of [x]: position
    [(a*p + b, c*q + d)] receives [delta[a, c]] if [x] equals [y[a, c]]
    there and zero otherwise, divided by the number of elements of the
    tile that equal [y[a, c]]. *)
Lemma derivative_reshape_spec (n ch A B p q : nat) (x y d : tensor4 R) :
  rect4 n ch (A * p) (B * q) x -> shape4 x = (n, ch, A * p, B * q) ->
  rect4 n ch A B y -> rect4 n ch A B d ->
  exists dx,
    derivative_reshape (map (map (tile_image p q A B)) x) y (Arr4 d) (Some x) = Ok dx /\
    rect4 n ch (A * p) (B * q) dx /\
    forall i j a b c dd, i < n -> j < ch -> a < A -> b < p -> c < B -> dd < q ->
      exists xv yv dv win,
        get4 x i j (a * p + b) (c * q + dd) = Some xv /\
        get4 y i j a c = Some yv /\ get4 d i j a c = Some dv /\
        window_of x i j (a * p) (p + a * p) (c * q) (q + c * q) = Ok win /\
        get4 dx i j (a * p + b) (c * q + dd)
        = Some (s_div (if s_eqb xv yv then dv else s_zero)
                  (s_of_nat (length (filter (fun v => s_eqb v yv = true) (concat win))))).
Proof.
  intros Hx Hshape Hy Hd.
  pose proof (rect6_tile _ _ _ _ _ _ _ Hx) as Hx6.
  set (x6 := map (map (tile_image p q A B)) x) in *.
  (* the mask *)
  destruct (bzip3_total_rel mask_group (fun xa ya m => m = mask_group_val xa ya) x6 y)
    as (mask & Hmask & Hml & Hmspec).
  { destruct Hy as [-> _], Hx6 as [-> _]. reflexivity. }
  { intros i xi yi Hxi Hyi.
    destruct (rect6_at _ _ _ _ _ _ _ _ _ Hx6 Hxi) as (_ & -> & _).
    destruct (rect4_at _ _ _ _ _ _ _ Hy Hyi) as (_ & -> & _). reflexivity. }
  { intros i j xi yi xij yij Hxi Hyi Hxij Hyij.
    destruct (rect6_at _ _ _ _ _ _ _ _ _ Hx6 Hxi) as (_ & _ & Fx).
    destruct (rect4_at _ _ _ _ _ _ _ Hy Hyi) as (_ & _ & Fy).
    destruct (proj1 (Forall_lookup _ _) Fx j xij Hxij) as [-> _].
    destruct (proj1 (Forall_lookup _ _) Fy j yij Hyij) as [-> _]. reflexivity. }
  { intros i j a xi yi xij yij xa ya Hxi Hyi Hxij Hyij Hxa Hya.
    destruct (rect6_at _ _ _ _ _ _ _ _ _ Hx6 Hxi) as (_ & _ & Fx).
    destruct (rect4_at _ _ _ _ _ _ _ Hy Hyi) as (_ & _ & Fy).
    destruct (proj1 (Forall_lookup _ _) Fx j xij Hxij) as [_ Fxa].
    destruct (proj1 (Forall_lookup _ _) Fxa a xa Hxa) as [_ Fxb].
    destruct (rect2_at _ _ _ _ _ (proj1 (Forall_lookup _ _) Fy j yij Hyij) Hya) as [_ Hyl].
    eexists. split; [| reflexivity].
    apply (mask_group_ok B); [| exact Hyl].
    eapply Forall_impl; [exact Fxb |]. intros xb [Hl _]. exact Hl. }
  (* the scattered and divided gradient *)
  destruct (bzip3_total_rel
              (fun ma da => let! g := scatter_group ma da in Ok (divide_group g ma))
              (fun ma da g => g = divide_group (scatter_group_val ma da) ma) mask d)
    as (dx6 & Hdx6 & Hdl & Hdspec).
  { rewrite Hml. destruct Hd as [-> _], Hx6 as [-> _]. reflexivity. }
  { intros i mi di Hmi Hdi.
    assert (is_Some (x6 !! i)) as [xi Hxi]
      by (apply lookup_lt_is_Some_2; rewrite <- Hml; eapply lookup_lt_Some; exact Hmi).
    destruct (Hmspec i xi Hxi) as (yi & oi & _ & Hoi & Hl & _).
    rewrite Hmi in Hoi. injection Hoi as <-. rewrite Hl.
    destruct (rect6_at _ _ _ _ _ _ _ _ _ Hx6 Hxi) as (_ & -> & _).
    destruct (rect4_at _ _ _ _ _ _ _ Hd Hdi) as (_ & -> & _). reflexivity. }
  { intros i j mi di mij dij Hmi Hdi Hmij Hdij.
    assert (is_Some (x6 !! i)) as [xi Hxi]
      by (apply lookup_lt_is_Some_2; rewrite <- Hml; eapply lookup_lt_Some; exact Hmi).
    destruct (Hmspec i xi Hxi) as (yi & oi & _ & Hoi & Hl & Hsp).
    rewrite Hmi in Hoi. injection Hoi as <-.
    assert (is_Some (xi !! j)) as [xij Hxij]
      by (apply lookup_lt_is_Some_2; rewrite <- Hl; eapply lookup_lt_Some; exact Hmij).
    destruct (Hsp j xij Hxij) as (yij & oij & _ & Hoij & Hlj & _).
    rewrite Hmij in Hoij. injection Hoij as <-. rewrite Hlj.
    destruct (rect6_at _ _ _ _ _ _ _ _ _ Hx6 Hxi) as (_ & _ & Fx).
    destruct (rect4_at _ _ _ _ _ _ _ Hd Hdi) as (_ & _ & Fd).
    destruct (proj1 (Forall_lookup _ _) Fx j xij Hxij) as [-> _].
    destruct (proj1 (Forall_lookup _ _) Fd j dij Hdij) as [-> _]. reflexivity. }
  { intros i j a mi di mij dij ma da Hmi Hdi Hmij Hdij Hma Hda.
    assert (is_Some (x6 !! i)) as [xi Hxi]
      by (apply lookup_lt_is_Some_2; rewrite <- Hml; eapply lookup_lt_Some; exact Hmi).
    destruct (Hmspec i xi Hxi) as (yi & oi & _ & Hoi & Hl & Hsp).
    rewrite Hmi in Hoi. injection Hoi as <-.
    assert (is_Some (xi !! j)) as [xij Hxij]
      by (apply lookup_lt_is_Some_2; rewrite <- Hl; eapply lookup_lt_Some; exact Hmij).
    destruct (Hsp j xij Hxij) as (yij & oij & _ & Hoij & Hlj & Hspj).
    rewrite Hmij in Hoij. injection Hoij as <-.
    assert (is_Some (xij !! a)) as [xa Hxa]
      by (apply lookup_lt_is_Some_2; rewrite <- Hlj; eapply lookup_lt_Some; exact Hma).
    destruct (Hspj a xa Hxa) as (ya & m & _ & Hm & ->).
    rewrite Hma in Hm. injection Hm as ->.
    destruct (rect6_at _ _ _ _ _ _ _ _ _ Hx6 Hxi) as (_ & _ & Fx).
    destruct (rect4_at _ _ _ _ _ _ _ Hd Hdi) as (_ & _ & Fd).
    destruct (proj1 (Forall_lookup _ _) Fx j xij Hxij) as [_ Fxa].
    destruct (proj1 (Forall_lookup _ _) Fxa a xa Hxa) as [_ Fxb].
    destruct (rect2_at _ _ _ _ _ (proj1 (Forall_lookup _ _) Fd j dij Hdij) Hda) as [_ Hdal].
    eexists. split; [| reflexivity].
    rewrite (scatter_group_ok B); [reflexivity | | exact Hdal].
    apply mask_group_val_lengths.
    eapply Forall_impl; [exact Fxb |]. intros xb [Hlb _]. exact Hlb. }
  (* every row of tiles of the gradient *)
  assert (Hgrp : forall i j a xi xij xa,
            x6 !! i = Some xi -> xi !! j = Some xij -> xij !! a = Some xa ->
            exists yi yij ya di dij da oi oij,
              y !! i = Some yi /\ yi !! j = Some yij /\ yij !! a = Some ya /\
              d !! i = Some di /\ di !! j = Some dij /\ dij !! a = Some da /\
              dx6 !! i = Some oi /\ oi !! j = Some oij /\
              oij !! a = Some (dx_group_val xa ya da) /\
              length oi = length xi /\ length oij = length xij).
  { intros i j a xi xij xa Hxi Hxij Hxa.
    destruct (Hmspec i xi Hxi) as (yi & mi & Hyi & Hmi & Hl & Hsp).
    destruct (Hsp j xij Hxij) as (yij & mij & Hyij & Hmij & Hlj & Hspj).
    destruct (Hspj a xa Hxa) as (ya & m & Hya & Hm & ->).
    destruct (Hdspec i mi Hmi) as (di & oi & Hdi & Hoi & Hlo & Hsd).
    destruct (Hsd j mij Hmij) as (dij & oij & Hdij & Hoij & Hloj & Hsdj).
    destruct (Hsdj a _ Hm) as (da & g & Hda & Hg & ->).
    exists yi, yij, ya, di, dij, da, oi, oij.
    repeat split; try assumption; try congruence. }

  assert (Hr6 : rect6 n ch A p B q dx6).
  { split; [rewrite Hdl, Hml; destruct Hx6 as [-> _]; reflexivity |].
    apply Forall_lookup. intros i oi Hoi.
    assert (is_Some (x6 !! i)) as [xi Hxi]
      by (apply lookup_lt_is_Some_2; rewrite <- Hml, <- Hdl; eapply lookup_lt_Some;
          exact Hoi).
    destruct (rect6_at _ _ _ _ _ _ _ _ _ Hx6 Hxi) as (_ & Hcl & Fx).
    destruct (Hmspec i xi Hxi) as (yi & mi & Hyi & Hmi & Hl & Hsp).
    destruct (Hdspec i mi Hmi) as (di & oi' & Hdi & Hoi' & Hlo & Hsd).
    rewrite Hoi in Hoi'. injection Hoi' as <-.
    split; [rewrite Hlo, Hl; exact Hcl |].
    apply Forall_lookup. intros j oij Hoij.
    assert (is_Some (xi !! j)) as [xij Hxij]
      by (apply lookup_lt_is_Some_2; rewrite <- Hl, <- Hlo; eapply lookup_lt_Some;
          exact Hoij).
    destruct (proj1 (Forall_lookup _ _) Fx j xij Hxij) as [Hal Fxa].
    destruct (Hsp j xij Hxij) as (yij & mij & Hyij & Hmij & Hlj & Hspj).
    destruct (Hsd j mij Hmij) as (dij & oij' & Hdij & Hoij' & Hloj & Hsdj).
    rewrite Hoij in Hoij'. injection Hoij' as <-.
    split; [rewrite Hloj, Hlj; exact Hal |].
    apply Forall_lookup. intros a g Hg.
    assert (is_Some (xij !! a)) as [xa Hxa]
      by (apply lookup_lt_is_Some_2; rewrite <- Hlj, <- Hloj; eapply lookup_lt_Some;
          exact Hg).
    destruct (proj1 (Forall_lookup _ _) Fxa a xa Hxa) as [Hpl Fxb].
    destruct (Hgrp i j a xi xij xa Hxi Hxij Hxa)
      as (? & ? & ya & ? & ? & da & oi2 & oij2 & _ & _ & _ & _ & _ & _ & Ho1 & Ho2 & Ho3 & _).
    rewrite Hoi in Ho1. injection Ho1 as <-. rewrite Hoij in Ho2. injection Ho2 as <-.
    rewrite Hg in Ho3. injection Ho3 as ->.
    apply dx_group_rect; assumption. }
  exists (map (map untile_image) dx6). split; [| split].
  - unfold derivative_reshape. rewrite Hmask. sbind. rewrite Hdx6. sbind.
    rewrite Hshape. apply reshape4_untiles. exact Hr6.
  - apply rect4_untile. exact Hr6.
  - intros i j a b c dd Hi Hj Ha Hb Hc Hdd.
    assert (Hr : a * p + b < A * p) by nia.
    assert (Hcc : c * q + dd < B * q) by nia.
    destruct (rect4_lookup _ _ _ _ x i j (a * p + b) (c * q + dd) Hx Hi Hj Hr Hcc)
      as (xi0 & img & row & xv & Hxi0 & Himg & Hrow & Hxv & _ & Himgr & _).
    destruct (rect4_lookup _ _ _ _ y i j a c Hy Hi Hj Ha Hc)
      as (yi & yij & ya & yv & Hyi & Hyij & Hya & Hyv & _).
    destruct (rect4_lookup _ _ _ _ d i j a c Hd Hi Hj Ha Hc)
      as (di & dij & da & dv & Hdi & Hdij & Hda & Hdv & _).
    assert (Hx6i : x6 !! i = Some (map (tile_image p q A B) xi0))
      by (unfold x6; rewrite lookup_map, Hxi0; reflexivity).
    assert (Hx6j : map (tile_image p q A B) xi0 !! j = Some (tile_image p q A B img))
      by (rewrite lookup_map, Himg; reflexivity).
    assert (Hxa : tile_image p q A B img !! a
                  = Some (map (chunks B q) (take p (drop (a * p) img)))).
    { unfold tile_image. rewrite lookup_map, lookup_chunks by exact Ha. reflexivity. }
    destruct (Hgrp i j a _ _ _ Hx6i Hx6j Hxa)
      as (yi' & yij' & ya' & di' & dij' & da' & oi & oij & E1 & E2 & E3 & E4 & E5 & E6
          & Ho1 & Ho2 & Ho3 & _).
    rewrite Hyi in E1. injection E1 as <-. rewrite Hyij in E2. injection E2 as <-.
    rewrite Hya in E3. injection E3 as <-.
    rewrite Hdi in E4. injection E4 as <-. rewrite Hdij in E5. injection E5 as <-.
    rewrite Hda in E6. injection E6 as <-.
    set (xa := map (chunks B q) (take p (drop (a * p) img))) in *.
    exists xv, yv, dv, (map (slice (c * q) (q + c * q)) (slice (a * p) (p + a * p) img)).
    split; [apply get4_Some; exists xi0, img, row; auto |].
    split; [apply get4_Some; exists yi, yij, ya; auto |].
    split; [apply get4_Some; exists di, dij, da; auto |].
    split; [unfold window_of, index; rewrite Hxi0; sbind; rewrite Himg; reflexivity |].
    (* the entry of the un-tiled gradient *)
    assert (Hrect_oij : rect4 A p B q oij).
    { destruct (rect6_at _ _ _ _ _ _ _ _ _ Hr6 Ho1) as (_ & _ & Fo).
      exact (proj1 (Forall_lookup _ _) Fo j oij Ho2). }
    transitivity (get4 oij a b c dd).
    { unfold get4 at 1. rewrite lookup_map, Ho1. sbind. rewrite lookup_map, Ho2. sbind.
      apply (lookup_untile_image p q A B); assumption. }
    unfold get4. rewrite Ho3. sbind.
    assert (Hxb : xa !! b = Some (chunks B q row)).
    { unfold xa. rewrite lookup_map, lookup_take_lt, lookup_drop, Hrow by exact Hb.
      reflexivity. }
    assert (Hxd : chunks B q row !! c = Some (take q (drop (c * q) row)))
      by (apply lookup_chunks; exact Hc).
    assert (Hv : take q (drop (c * q) row) !! dd = Some xv)
      by (rewrite lookup_take_lt, lookup_drop by exact Hdd; exact Hxv).
    rewrite (dx_group_entry xa ya da b c dd _ _ xv yv dv Hxb Hxd Hv Hyv Hdv).
    rewrite (count_group_mask xa ya c yv Hyv).
    do 4 f_equal. unfold xa, slice. rewrite map_map. do 2 f_equal.
    replace (p + a * p - a * p) with p by lia.
    replace (q + c * q - c * q) with q by lia.
    apply map_ext_in. intros r Hin.
    rewrite lookup_chunks by exact Hc. reflexivity.
Qed.

End PoolFastBackward.

(** ** The canonical rationals satisfy the scalar laws *)

Lemma Qc_of_nat_1 : s_of_nat (R := Qc) 1 = 1%Qc.
Proof. apply Qc_is_canon. reflexivity. Qed.

#[export] Instance Qc_ScalarLaws : ScalarLaws Qc.
Proof.
  split.
  - intros a b. cbn [s_eqb Qc_Scalar]. unfold Qc_eqb. rewrite (Qceq_alt a b).
    destruct (a ?= b)%Qc; split; congruence.
  - intros a. cbn [s_ltb Qc_Scalar]. unfold Qc_ltb.
    rewrite (proj1 (Qceq_alt a a) eq_refl). reflexivity.
  - intros a b c. cbn [s_ltb Qc_Scalar]. unfold Qc_ltb.
    destruct (a ?= b)%Qc eqn:E1; try discriminate.
    destruct (b ?= c)%Qc eqn:E2; try discriminate. intros _ _.
    assert (E3 : (a ?= c)%Qc = Lt).
    { apply Qclt_alt. apply (Qclt_trans a b c); apply Qclt_alt; assumption. }
    rewrite E3. reflexivity.
  - intros a b. cbn [s_ltb Qc_Scalar]. unfold Qc_ltb.
    destruct (a ?= b)%Qc eqn:E1; try discriminate.
    + intros _ _. apply Qceq_alt. exact E1.
    + intros _. assert (E2 : (b ?= a)%Qc = Lt).
      { apply Qclt_alt. apply Qcgt_alt in E1. exact E1. }
      rewrite E2. discriminate.
  - intros a. apply Qcplus_0_l.
  - intros a. apply Qcplus_0_r.
  - intros a. apply Qcmult_1_l.
  - intros a. apply Qcmult_0_l.
  - intros a. rewrite Qc_of_nat_1. cbn [s_div Qc_Scalar]. unfold Qcdiv.
    replace (/ 1)%Qc with 1%Qc by (apply Qc_is_canon; reflexivity).
    apply Qcmult_1_r.
  - intros n. cbn [s_div s_zero Qc_Scalar]. unfold Qcdiv. apply Qcmult_0_l.
Qed.

Section WindowGradients.
Context {R : Type} `{ScalarLaws R}.



End WindowGradients.

Section PoolPipelines.
Context {R : Type} `{ScalarLaws R}.

Lemma rect4_dims (n ch A B ch' A' B' : nat) (d : tensor4 R) :
  (0 < n -> ch' = ch) -> (0 < n -> 0 < ch -> A' = A) ->
  (0 < n -> 0 < ch -> 0 < A -> B' = B) ->
  rect4 n ch A B d -> rect4 n ch' A' B' d.
Proof.
  intros Hch HA HB Hd.
  destruct (Nat.eq_dec n 0) as [-> | Hn].
  { destruct Hd as [Hl _]. destruct d; [| discriminate]. split; [reflexivity | constructor]. }
  rewrite (Hch ltac:(lia)).
  apply (rect4_change _ _ _ _ _ _ _ Hd).
  destruct (Nat.eq_dec ch 0) as [-> | Hc]; [auto |].
  right. right. rewrite (HA ltac:(lia) ltac:(lia)). split; [reflexivity |].
  destruct (Nat.eq_dec A 0) as [-> | Ha]; [auto |].
  right. symmetry. apply HB; lia.
Qed.

(** Forward then backward on the fast path. Every position of the tile
    of output cell [(a, c)] receives [delta[a, c]] where [x] equals the
    tile maximum and zero elsewhere, divided by the number of positions
    of the tile that hold the maximum. *)
Lemma fast_backward_pointwise (self : MaxPool) (n ch A B p : nat) (x d : tensor4 R)
    (wt : option (matrix R)) :
  0 < p -> mp_pool self = (p, p) -> mp_stride self = p -> mp_is_fc_base self = false ->
  rect4 n ch (A * p) (B * p) x -> rect4 n ch A B d ->
  exists out dx,
    snd (MaxPool_activate self x) = Ok out /\
    mp_cache_method (fst (MaxPool_activate self x)) = Some "reshape"%string /\
    MaxPool_derivative (fst (MaxPool_activate self x)) out wt (DeltaArray (Arr4 d)) = Ok dx /\
    rect4 n ch (A * p) (B * p) dx /\
    forall i j a c, i < n -> j < ch -> a < A -> c < B ->
      exists win mx dv,
        window_of x i j (a * p) (p + a * p) (c * p) (p + c * p) = Ok win /\
        amax2 win = Ok mx /\
        get4 out i j a c = Some mx /\
        get4 d i j a c = Some dv /\
        forall b dd, b < p -> dd < p ->
          get4 dx i j (a * p + b) (c * p + dd)
          = (fun xv =>
               s_div (if s_eqb xv mx then dv else s_zero)
                 (s_of_nat (length (filter (fun v => s_eqb v mx = true) (concat win)))))
            <$> get4 x i j (a * p + b) (c * p + dd).
Proof.
  intros Hp Hpool Hsd Hfc Hx Hd.
  destruct (activate_fast_spec self n ch A B p x Hp Hpool Hsd Hx)
    as (ch' & A' & B' & out & Hact & Hshape & Hrect & Hro & Hch & HA' & HB' & Hfast).
  pose proof (rect4_dims _ _ _ _ _ _ _ d Hch HA' HB' Hd) as Hd'.
  destruct (derivative_reshape_spec n ch' A' B' p p x out d Hrect Hshape Hro Hd')
    as (dx & Hdx & Hrdx & Hpt).
  exists out, dx. rewrite Hact. cbn [fst snd].
  split; [reflexivity |]. split; [reflexivity |]. split; [| split].
  - unfold MaxPool_derivative, incoming_delta.
    cbn [set_cache_method set_cache_x_reshaped set_x_cache mp_is_fc_base mp_cache_method
         mp_cache_x_reshaped mp_x_cache].
    rewrite Hfc. sbind. cbn [String.eqb Ascii.eqb Bool.eqb]. exact Hdx.
  - destruct (Nat.eq_dec n 0) as [-> | Hn].
    { destruct Hrdx as [Hl _]. destruct dx; [| discriminate].
      split; [reflexivity | constructor]. }
    rewrite (Hch ltac:(lia)) in Hrdx.
    apply (rect4_change _ _ _ _ _ _ _ Hrdx).
    destruct (Nat.eq_dec ch 0) as [-> | Hc]; [auto |].
    right. right. rewrite (HA' ltac:(lia) ltac:(lia)). split; [reflexivity |].
    destruct (Nat.eq_dec A 0) as [-> | Ha]; [left; reflexivity |].
    right. rewrite (HB' ltac:(lia) ltac:(lia) ltac:(lia)). reflexivity.
  - intros i j a c Hi Hj Ha Hc.
    assert (Ech : ch' = ch) by (apply Hch; lia).
    assert (EA : A' = A) by (apply HA'; lia).
    assert (EB : B' = B) by (apply HB'; lia).
    subst ch' A' B'.
    destruct (window_max_ok _ _ _ _ x p p p i j a c Hx Hi Hj) as (win & mx & Hwin & Hmx & Hwm);
      try nia; try assumption.
    destruct (window_max_tile _ _ _ _ _ _ _ Hwm) as [Hex Hge].
    destruct (Hfast i j a c Hi Hj Ha Hc) as (r & Hr & Hex' & Hge').
    assert (Er : r = mx).
    { apply (max_unique
               (fun v => exists b d, b < p /\ d < p /\
                           get4 x i j (a * p + b) (c * p + d) = Some v)).
      - exact Hex'.
      - intros v (b & dd & Hb & Hdd & Hv). exact (Hge' b dd v Hb Hdd Hv).
      - exact Hex.
      - intros v (b & dd & Hb & Hdd & Hv). exact (Hge b dd v Hb Hdd Hv). }
    subst r.
    destruct (rect4_get4 _ _ _ _ d i j a c Hd Hi Hj Ha Hc) as [dv Hdv].
    exists win, mx, dv. repeat split; try assumption.
    intros b dd Hb Hdd.
    destruct (Hpt i j a b c dd Hi Hj Ha Hb Hc Hdd)
      as (xv & yv & dv' & win' & Hxv & Hyv & Hdv' & Hwin' & Hval).
    rewrite Hr in Hyv. injection Hyv as <-.
    rewrite Hdv in Hdv'. injection Hdv' as <-.
    rewrite Hwin in Hwin'. injection Hwin' as <-.
    rewrite Hval, Hxv. reflexivity.
Qed.


End PoolPipelines.

Section PoolClaims.
Context {R : Type} `{ScalarLaws R}.


(** Windows that are apart: with a stride of at least the window height
    and width, a position lies in one window at most. *)
Lemma covers_apart (sd ph pw k l k' l' r c : nat) :
  ph <= sd -> pw <= sd ->
  covers sd ph pw k l r c = true -> covers sd ph pw k' l' r c = true ->
  k' = k /\ l' = l.
Proof.
  unfold covers. intros Hph Hpw Hc Hc'.
  rewrite !andb_true_iff, !Nat.leb_le, !Nat.ltb_lt in Hc, Hc'.
  destruct Hc as (((H1 & H2) & H3) & H4). destruct Hc' as (((H1' & H2') & H3') & H4').
  assert (Hk : forall u v : nat, u * sd <= r -> r < ph + v * sd -> u <= v).
  { intros u v Hu Hv. destruct (Nat.le_gt_cases u v) as [| Hgt]; [assumption | exfalso; nia]. }
  assert (Hl : forall u v : nat, u * sd <= c -> c < pw + v * sd -> u <= v).
  { intros u v Hu Hv. destruct (Nat.le_gt_cases u v) as [| Hgt]; [assumption | exfalso; nia]. }
  pose proof (Hk _ _ H1 H2'). pose proof (Hk _ _ H1' H2).
  pose proof (Hl _ _ H3 H4'). pose proof (Hl _ _ H3' H4). lia.
Qed.

(** C3, as stated, fails on the fallback path when windows overlap. A
    2x2 window with stride 1 on the 4x4 image 1..16: the window of output
    cell (0, 0) is [[1, 2], [5, 6]], its single maximum 6 sits at input
    position (1, 1) and the upstream value is 1, and the gradient at
    (1, 1) is 0, not 1. On the image with the upper-left window
    [[1, 1], [1, 1]], tied four times, position (0, 1) of that window ends
    with 0, not with the upstream value 1. *)
Lemma C3_counterexample :
  (exists out dx,
     MaxPool_activate pool_2x2_s1 x_ramp
       = (set_cache_method (set_x_cache pool_2x2_s1 x_ramp) "original", Ok out) /\
     MaxPool_derivative (set_cache_method (set_x_cache pool_2x2_s1 x_ramp) "original")
       out None (DeltaArray (Arr4 delta_3x3)) = Ok dx /\
     window_of x_ramp 0 0 0 2 0 2 = Ok [[zq 1; zq 2]; [zq 5; zq 6]] /\
     get4 delta_3x3 0 0 0 0 = Some (zq 1) /\
     get4 dx 0 0 1 1 = Some (zq 0)) /\
  (exists out dx,
     MaxPool_activate pool_2x2_s1 x_tie
       = (set_cache_method (set_x_cache pool_2x2_s1 x_tie) "original", Ok out) /\
     MaxPool_derivative (set_cache_method (set_x_cache pool_2x2_s1 x_tie) "original")
       out None (DeltaArray (Arr4 delta_3x3)) = Ok dx /\
     window_of x_tie 0 0 0 2 0 2 = Ok [[zq 1; zq 1]; [zq 1; zq 1]] /\
     get4 delta_3x3 0 0 0 0 = Some (zq 1) /\
     get4 dx 0 0 0 1 = Some (zq 0)).
Proof.
  split; eexists; eexists.
  - split; [vm_compute; reflexivity |]. split; [vm_compute; reflexivity |].
    split; [reflexivity |]. split; [reflexivity |].
    vm_compute. first [reflexivity | f_equal; apply Qc_is_canon; reflexivity].
  - split; [vm_compute; reflexivity |]. split; [vm_compute; reflexivity |].
    split; [reflexivity |]. split; [reflexivity |].
    vm_compute. first [reflexivity | f_equal; apply Qc_is_canon; reflexivity].
Qed.

(** C3 (amended). The two backward paths treat tied maxima differently.
    Fast path (first part): in the tile of output cell [(a, c)] every
    position receives [delta[a, c]] if it holds the maximum and zero
    otherwise, DIVIDED by the number of positions of the tile that hold
    the maximum; with a single maximum that is the full upstream value.
    Fallback path (second part): a position holds what the window
    written LAST there has put, [(x == max) * delta[k, l]], with no
    division. Fallback path with windows apart (third part, stride at
    least the window height and width): every position of every window
    holds the full upstream value of the window if it is a maximum of the
    window, tied or not, and zero otherwise. *)
Theorem C3_fast_path_divides_ties_fallback_keeps_last_window :
  (forall (self : MaxPool) (n ch A B p : nat) (x d : tensor4 R) (wt : option (matrix R)),
     0 < p -> mp_pool self = (p, p) -> mp_stride self = p ->
     mp_is_fc_base self = false ->
     rect4 n ch (A * p) (B * p) x -> rect4 n ch A B d ->
     exists out dx,
       snd (MaxPool_activate self x) = Ok out /\
       mp_cache_method (fst (MaxPool_activate self x)) = Some "reshape"%string /\
       MaxPool_derivative (fst (MaxPool_activate self x)) out wt (DeltaArray (Arr4 d))
         = Ok dx /\
       forall i j a c, i < n -> j < ch -> a < A -> c < B ->
         exists win mx dv,
           window_of x i j (a * p) (p + a * p) (c * p) (p + c * p) = Ok win /\
           amax2 win = Ok mx /\
           get4 d i j a c = Some dv /\
           forall b dd, b < p -> dd < p ->
             exists xv,
               get4 x i j (a * p + b) (c * p + dd) = Some xv /\
               get4 dx i j (a * p + b) (c * p + dd)
               = Some (s_div (if s_eqb xv mx then dv else s_zero)
                         (s_of_nat (length (filter (fun v => s_eqb v mx = true)
                                              (concat win))))) /\
               (length (filter (fun v => s_eqb v mx = true) (concat win)) = 1 ->
                get4 dx i j (a * p + b) (c * p + dd)
                = Some (if s_eqb xv mx then dv else s_zero))) /\
  (forall (self : MaxPool) (n ch h w : nat) (x d y : tensor4 R) (wt : option (matrix R))
          (i j r c k l : nat),
     mp_is_fc_base self = false ->
     mp_cache_method self = Some "original"%string ->
     mp_x_cache self = Some x ->
     rect4 n ch h w x ->
     rect4 n ch (mp_out_h self) (mp_out_w self) d ->
     0 < fst (mp_pool self) -> 0 < snd (mp_pool self) ->
     (forall k, k < mp_out_h self -> k * mp_stride self < h) ->
     (forall l, l < mp_out_w self -> l * mp_stride self < w) ->
     i < n -> j < ch -> r < h -> c < w -> k < mp_out_h self -> l < mp_out_w self ->
     covers (mp_stride self) (fst (mp_pool self)) (snd (mp_pool self)) k l r c = true ->
     (forall k' l', k' < mp_out_h self -> l' < mp_out_w self ->
        covers (mp_stride self) (fst (mp_pool self)) (snd (mp_pool self)) k' l' r c = true ->
        k' < k \/ (k' = k /\ l' <= l)) ->
     exists dx xv mx dv,
       MaxPool_derivative self y wt (DeltaArray (Arr4 d)) = Ok dx /\
       get4 x i j r c = Some xv /\
       window_max x (mp_stride self) (fst (mp_pool self)) (snd (mp_pool self)) i j k l
         = Ok mx /\
       get4 d i j k l = Some dv /\
       get4 dx i j r c = Some (if s_eqb xv mx then dv else s_zero)) /\
  (forall (self : MaxPool) (n ch h w : nat) (x d y : tensor4 R) (wt : option (matrix R))
          (i j k l b dd : nat),
     mp_is_fc_base self = false ->
     mp_cache_method self = Some "original"%string ->
     mp_x_cache self = Some x ->
     rect4 n ch h w x ->
     rect4 n ch (mp_out_h self) (mp_out_w self) d ->
     0 < fst (mp_pool self) -> 0 < snd (mp_pool self) ->
     (forall k, k < mp_out_h self -> k * mp_stride self < h) ->
     (forall l, l < mp_out_w self -> l * mp_stride self < w) ->
     fst (mp_pool self) <= mp_stride self -> snd (mp_pool self) <= mp_stride self ->
     i < n -> j < ch -> k < mp_out_h self -> l < mp_out_w self ->
     b < fst (mp_pool self) -> dd < snd (mp_pool self) ->
     k * mp_stride self + b < h -> l * mp_stride self + dd < w ->
     exists dx xv mx dv,
       MaxPool_derivative self y wt (DeltaArray (Arr4 d)) = Ok dx /\
       get4 x i j (k * mp_stride self + b) (l * mp_stride self + dd) = Some xv /\
       window_max x (mp_stride self) (fst (mp_pool self)) (snd (mp_pool self)) i j k l
         = Ok mx /\
       get4 d i j k l = Some dv /\
       get4 dx i j (k * mp_stride self + b) (l * mp_stride self + dd)
       = Some (if s_eqb xv mx then dv else s_zero)).
Proof.
  assert (Hlastwin :
    forall (self : MaxPool) (n ch h w : nat) (x d y : tensor4 R) (wt : option (matrix R))
           (i j r c k l : nat),
      mp_is_fc_base self = false ->
      mp_cache_method self = Some "original"%string ->
      mp_x_cache self = Some x ->
      rect4 n ch h w x ->
      rect4 n ch (mp_out_h self) (mp_out_w self) d ->
      0 < fst (mp_pool self) -> 0 < snd (mp_pool self) ->
      (forall k, k < mp_out_h self -> k * mp_stride self < h) ->
      (forall l, l < mp_out_w self -> l * mp_stride self < w) ->
      i < n -> j < ch -> r < h -> c < w -> k < mp_out_h self -> l < mp_out_w self ->
      covers (mp_stride self) (fst (mp_pool self)) (snd (mp_pool self)) k l r c = true ->
      (forall k' l', k' < mp_out_h self -> l' < mp_out_w self ->
         covers (mp_stride self) (fst (mp_pool self)) (snd (mp_pool self)) k' l' r c = true ->
         k' < k \/ (k' = k /\ l' <= l)) ->
      exists dx xv mx dv,
        MaxPool_derivative self y wt (DeltaArray (Arr4 d)) = Ok dx /\
        get4 x i j r c = Some xv /\
        window_max x (mp_stride self) (fst (mp_pool self)) (snd (mp_pool self)) i j k l
          = Ok mx /\
        get4 d i j k l = Some dv /\
        get4 dx i j r c = Some (if s_eqb xv mx then dv else s_zero)).
  { intros self n ch h w x d y wt i j r c k l
      Hfc Hm Hxc Hx Hd Hph Hpw Hkh Hlw Hi Hj Hr Hc Hk Hl Hcov Hlast.
    destruct (derivative_original_spec self n ch h w x d Hx Hph Hpw Hkh Hlw)
      as (dx & Hdx & _ & _ & Hlastw).
    { intros i' j' k' l' Hi' Hj' Hk' Hl'. eapply rect4_get4; eassumption. }
    destruct (Hlastw i j r c k l Hi Hj Hr Hc Hk Hl Hcov Hlast)
      as (xv & mx & dv & Hxv & Hmx & Hdv & Hval).
    exists dx, xv, mx, dv. repeat split; try assumption.
    + unfold MaxPool_derivative, incoming_delta. rewrite Hfc. sbind. rewrite Hm.
      cbn. rewrite Hxc. exact Hdx.
    + rewrite Hval. destruct (s_eqb xv mx); cbn [s_of_bool];
        [rewrite s_mul_1_l | rewrite s_mul_0_l]; reflexivity. }
  split; [| split].
  - intros self n ch A B p x d wt Hp Hpool Hsd Hfc Hx Hd.
    destruct (fast_backward_pointwise self n ch A B p x d wt Hp Hpool Hsd Hfc Hx Hd)
      as (out & dx & Hout & Hmeth & Hdx & Hrdx & Hpt).
    exists out, dx. repeat split; try assumption.
    intros i j a c Hi Hj Ha Hc.
    destruct (Hpt i j a c Hi Hj Ha Hc) as (win & mx & dv & Hwin & Hmx & _ & Hdv & Hf).
    exists win, mx, dv. repeat split; try assumption.
    intros b dd Hb Hdd.
    destruct (rect4_get4 _ _ _ _ x i j (a * p + b) (c * p + dd) Hx Hi Hj
                ltac:(nia) ltac:(nia)) as [xv Hxv].
    exists xv. split; [exact Hxv |]. rewrite (Hf b dd Hb Hdd), Hxv. cbn.
    split; [reflexivity |]. intros ->. rewrite s_div_1_r. reflexivity.
  - exact Hlastwin.
  - intros self n ch h w x d y wt i j k l b dd
      Hfc Hm Hxc Hx Hd Hph Hpw Hkh Hlw Hsh Hsw Hi Hj Hk Hl Hb Hdd Hr Hc.
    assert (Hcov : covers (mp_stride self) (fst (mp_pool self)) (snd (mp_pool self)) k l
                     (k * mp_stride self + b) (l * mp_stride self + dd) = true).
    { unfold covers. rewrite !andb_true_iff, !Nat.leb_le, !Nat.ltb_lt. lia. }
    apply (Hlastwin self n ch h w x d y wt i j _ _ k l); try assumption.
    intros k' l' Hk' Hl' Hcov'.
    destruct (covers_apart _ _ _ _ _ _ _ _ _ Hsh Hsw Hcov Hcov') as [-> ->].
    right. split; [reflexivity | apply Nat.le_refl].
Qed.

End PoolClaims.


Lemma C3_fast_path_divides_ties_fallback_keeps_last_window_witness :
  (exists out dx,
     snd (MaxPool_activate pool_2x2_s2 x_tie) = Ok out /\
     MaxPool_derivative (fst (MaxPool_activate pool_2x2_s2 x_tie)) out None
       (DeltaArray (Arr4 delta_2x2)) = Ok dx /\
     get4 dx 0 0 0 0 = Some (qc 1 4)) /\
  (exists dx,
     MaxPool_derivative (set_cache_method (set_x_cache pool_2x2_s1 x_tie) "original")
       [] None (DeltaArray (Arr4 delta_3x3)) = Ok dx /\
     get4 dx 0 0 0 0 = Some (zq 1)) /\
  (exists dx,
     MaxPool_derivative (fst (MaxPool_activate PoolExamples.pool_2x2_s3 PoolExamples.x_gap))
       [] None (DeltaArray (Arr4 delta_2x2)) = Ok dx /\
     get4 dx 0 0 0 1 = Some (zq 1)).
Proof.
  split; [| split].
  - destruct (proj1 C3_fast_path_divides_ties_fallback_keeps_last_window
                pool_2x2_s2 1 1 2 2 2 x_tie delta_2x2 None)
      as (out & dx & Hout & _ & Hdx & Hpt).
    + lia.
    + reflexivity.
    + reflexivity.
    + reflexivity.
    + split; [reflexivity | repeat constructor].
    + split; [reflexivity | repeat constructor].
    + exists out, dx. split; [exact Hout |]. split; [exact Hdx |].
      destruct (Hpt 0 0 0 0) as (win & mx & dv & Hwin & Hmx & Hdv & Hb); try lia.
      destruct (Hb 0 0) as (xv & Hxv & Hval & _); try lia.
      vm_compute in Hwin. injection Hwin as <-.
      vm_compute in Hmx. injection Hmx as <-.
      vm_compute in Hdv. injection Hdv as <-.
      vm_compute in Hxv. injection Hxv as <-.
      etransitivity; [exact Hval |]. f_equal; apply Qc_is_canon; reflexivity.
  - destruct (proj1 (proj2 C3_fast_path_divides_ties_fallback_keeps_last_window)
                (set_cache_method (set_x_cache pool_2x2_s1 x_tie) "original")
                1 1 4 4 x_tie delta_3x3 [] None 0 0 0 0 0 0)
      as (dx & xv & mx & dv & Hdx & Hxv & Hmx & Hdv & Hval).
    + reflexivity.
    + reflexivity.
    + reflexivity.
    + split; [reflexivity | repeat constructor].
    + split; [reflexivity | repeat constructor].
    + cbn. lia.
    + cbn. lia.
    + cbn. intros k Hk. lia.
    + cbn. intros l Hl. lia.
    + lia.
    + lia.
    + lia.
    + lia.
    + cbn. lia.
    + cbn. lia.
    + reflexivity.
    + cbn [pool_2x2_s1 set_cache_method set_x_cache mp_out_h mp_out_w mp_stride mp_pool
           fst snd].
      intros k' l' Hk' Hl'.
      destruct k' as [| [| [| k']]]; [| | | lia];
        destruct l' as [| [| [| l']]]; try lia; cbn; intros; (lia || discriminate).
    + exists dx. split; [exact Hdx |].
      vm_compute in Hxv. injection Hxv as <-.
      vm_compute in Hmx. injection Hmx as <-.
      vm_compute in Hdv. injection Hdv as <-.
      exact Hval.
  - destruct (proj2 (proj2 C3_fast_path_divides_ties_fallback_keeps_last_window)
                (fst (MaxPool_activate PoolExamples.pool_2x2_s3 PoolExamples.x_gap))
                1 1 5 5 PoolExamples.x_gap delta_2x2 [] None 0 0 0 0 0 1)
      as (dx & xv & mx & dv & Hdx & Hxv & Hmx & Hdv & Hval).
    + reflexivity.
    + vm_compute. reflexivity.
    + vm_compute. reflexivity.
    + split; [reflexivity | repeat constructor].
    + split; [reflexivity | repeat constructor].
    + vm_compute. lia.
    + vm_compute. lia.
    + intros k Hk. vm_compute in Hk. change (k * 3 < 5). lia.
    + intros l Hl. vm_compute in Hl. change (l * 3 < 5). lia.
    + vm_compute. lia.
    + vm_compute. lia.
    + lia.
    + lia.
    + vm_compute. lia.
    + vm_compute. lia.
    + vm_compute. lia.
    + vm_compute. lia.
    + vm_compute. lia.
    + vm_compute. lia.
    + exists dx. split; [exact Hdx |].
      vm_compute in Hxv. injection Hxv as <-.
      vm_compute in Hmx. injection Hmx as <-.
      vm_compute in Hdv. injection Hdv as <-.
      vm_compute in Hval. etransitivity; [exact Hval |].
      f_equal; apply Qc_is_canon; reflexivity.
Defined.

(** * The negative log-likelihood gradient *)

Module CostFacts.
Import Values Cost.

Section Gradient.
Context {R : Type} `{Scalar R}.

Lemma argmax_from_lt (l : list R) (best : R) (bi i : nat) :
  bi < i -> argmax_from best bi i l < i + length l.
Proof.
  revert best bi i. induction l as [| a l IH]; intros best bi i Hb; cbn; [lia |].
  destruct (s_ltb best a).
  - specialize (IH a i (S i)). lia.
  - specialize (IH best bi (S i)). lia.
Qed.

Lemma argmax_lt (l : list R) (c : nat) : argmax l = Ok c -> c < length l.
Proof.
  destruct l as [| a l]; cbn; [discriminate |].
  intros [= <-]. pose proof (argmax_from_lt l a 0 1). lia.
Qed.

Lemma mapM_Forall2 {A B : Type} (f : A -> result B) (l : list A) (out : list B) :
  mapM f l = Ok out -> Forall2 (fun a b => f a = Ok b) l out.
Proof.
  revert out. induction l as [| a l IH]; intros out; cbn.
  - intros [= <-]. constructor.
  - destruct (f a) as [b | e] eqn:Ha; cbn; [| discriminate].
    destruct (mapM f l) as [bs | e]; cbn; [| discriminate].
    intros [= <-]. constructor; [exact Ha | apply IH; reflexivity].
Qed.

Lemma subtract_at_insert (row : list R) (c : nat) (v : R) :
  row !! c = Some v -> <[c := s_sub v s_one]> row = subtract_at c row.
Proof.
  intros Hc. unfold subtract_at. apply list_eq. intros j.
  rewrite list_lookup_imap.
  destruct (decide (j = c)) as [-> | Hne].
  - rewrite list_lookup_insert_eq by (eapply lookup_lt_Some; exact Hc).
    rewrite Hc. cbn. rewrite Nat.eqb_refl. reflexivity.
  - rewrite list_lookup_insert_ne by congruence.
    destruct (row !! j) as [u |]; cbn; [| reflexivity].
    destruct (Nat.eqb_spec j c); [contradiction | reflexivity].
Qed.

Lemma fancy_get_cons (m : matrix R) (rc : nat * nat) (idx : list (nat * nat)) :
  fancy_get m (rc :: idx)
  = let! v := (let! row := index m (fst rc) in index row (snd rc)) in
    let! vs := fancy_get m idx in Ok (v :: vs).
Proof. reflexivity. Qed.

(** Reading one element of each row, the rows taken in order. *)
Lemma fancy_get_rows (pre rows : matrix R) (am : list nat) :
  Forall2 (fun c row => c < length row) am rows ->
  fancy_get (pre ++ rows) (zip (seq (length pre) (length rows)) am)
  = Ok (zip_with (fun c row => default s_zero (row !! c)) am rows).
Proof.
  intros Hb. revert pre. induction Hb as [| c row am rows Hc Hb IH]; intros pre.
  - reflexivity.
  - cbn [length seq zip zip_with]. rewrite fancy_get_cons. cbn [fst snd].
    unfold index at 1. rewrite list_lookup_middle by reflexivity. cbn [rbind].
    unfold index at 1.
    destruct (lookup_lt_is_Some_2 row c Hc) as [v Hv]. rewrite Hv. cbn [rbind default].
    specialize (IH (pre ++ [row])). rewrite length_app in IH.
    change (length [row]) with 1 in IH.
    rewrite Nat.add_1_r, <- app_assoc in IH.
    change ([row] ++ rows) with (row :: rows) in IH.
    rewrite IH. reflexivity.
Qed.

Lemma fancy_set_cons (m : matrix R) (r c : nat) (idx : list (nat * nat)) (v : R)
    (vals : list R) :
  fancy_set m ((r, c) :: idx) (v :: vals)
  = fancy_set (alter (fun row => <[c := v]> row) r m) idx vals.
Proof. reflexivity. Qed.

(** Writing one element of each row, the rows taken in order. *)
Lemma fancy_set_rows (pre rows : matrix R) (am : list nat) (vals : list R) :
  length am = length rows -> length vals = length rows ->
  fancy_set (pre ++ rows) (zip (seq (length pre) (length rows)) am) vals
  = pre ++ zip_with (fun cv row => <[fst cv := snd cv]> row) (zip am vals) rows.
Proof.
  revert pre am vals. induction rows as [| row rows IH]; intros pre am vals Ha Hv.
  - destruct am; [| discriminate]. reflexivity.
  - destruct am as [| c am]; [discriminate |]. destruct vals as [| v vals]; [discriminate |].
    cbn [length seq zip zip_with]. rewrite fancy_set_cons.
    assert (alter (fun r => <[c := v]> r) (length pre) (pre ++ row :: rows)
            = (pre ++ [<[c := v]> row]) ++ rows) as ->.
    { rewrite <- app_assoc. cbn [app].
      apply list_eq. intros j.
      destruct (decide (j = length pre)) as [-> | Hne].
      - rewrite list_lookup_alter_eq, !list_lookup_middle by reflexivity. reflexivity.
      - rewrite list_lookup_alter_ne by congruence.
        destruct (decide (j < length pre)).
        + rewrite !lookup_app_l by lia. reflexivity.
        + rewrite !lookup_app_r by lia.
          destruct (j - length pre) as [| k] eqn:E; [lia | reflexivity]. }
    specialize (IH (pre ++ [<[c := v]> row]) am vals).
    rewrite length_app in IH. change (length [<[c := v]> row]) with 1 in IH.
    rewrite Nat.add_1_r in IH.
    cbn [length] in Ha, Hv.
    rewrite IH by lia. rewrite <- app_assoc. reflexivity.
Qed.

(** With one row index per row, in order, the in-place subtraction
    decreases the addressed element of each row. *)
Lemma fancy_isub_rows (m : matrix R) (am : list nat) :
  Forall2 (fun c row => c < length row) am m ->
  fancy_isub m (seq 0 (length m)) am s_one = Ok (zip_with subtract_at am m).
Proof.
  intros Hb. unfold fancy_isub, bcast_index.
  pose proof (Forall2_length _ _ _ Hb) as Hlen.
  rewrite length_seq.
  destruct (Nat.eqb_spec (length m) (length am)) as [_ | Hne]; [| congruence].
  cbn [rbind].
  pose proof (fancy_get_rows [] m am Hb) as Hget. cbn [app length] in Hget.
  rewrite Hget. cbn [rbind]. f_equal.
  pose proof (fancy_set_rows [] m am
                (map (fun a => s_sub a s_one)
                     (zip_with (fun c row => default s_zero (row !! c)) am m))) as Hset.
  cbn [app length] in Hset. rewrite Hset.
  2: exact Hlen.
  2: { rewrite length_map, length_zip_with. lia. }
  clear Hget Hset Hlen. induction Hb as [| c row am rows Hc Hb IH]; [reflexivity |].
  cbn [zip_with map zip fst snd]. f_equal; [| exact IH].
  destruct (lookup_lt_is_Some_2 row c Hc) as [v Hv]. rewrite Hv. cbn [default].
  apply subtract_at_insert. exact Hv.
Qed.

(** On a call whose cached batch range is empty or fits the batch, the
    gradient is the prediction with 1 subtracted at each row's true
    class. *)
Lemma log_likelihood_fitting_cache (br : option (list nat)) (y y_pred : matrix R) :
  br = None \/ br = Some (seq 0 (length y_pred)) ->
  Forall2 (fun a b => length a = length b) y y_pred ->
  _log_likelihood br (VMatrix y) (VMatrix y_pred)
  = (Some (seq 0 (length y_pred)),
     let! g := true_class_gradient y y_pred in Ok (VMatrix g)).
Proof.
  intros Hbr Hshape. unfold _log_likelihood.
  assert (batch_range_of br (VMatrix y_pred) = Ok (seq 0 (length y_pred))) as ->.
  { destruct Hbr as [-> | ->]; reflexivity. }
  f_equal. unfold true_class_gradient, argmax_axis1.
  destruct (mapM argmax y) as [am | e] eqn:Ham; cbn [rbind]; [| reflexivity].
  cbn [v_copy isub_true_class rbind].
  rewrite fancy_isub_rows; [reflexivity |].
  apply mapM_Forall2 in Ham. clear Hbr.
  revert am Ham. induction Hshape as [| a b y yp Hab Hshape IH]; intros am Ham.
  - inversion Ham. constructor.
  - inversion Ham as [| ? c ? am' Hc Ham']; subst. constructor.
    + apply argmax_lt in Hc. lia.
    + apply IH. exact Ham'.
Qed.

(** The call on references allocates the result and leaves every array of
    the store as it was. *)
Lemma log_likelihood_ref_frame (st : cost_state R) (y y_pred l : nat) (v : value R) :
  arrays st !! l = Some v ->
  arrays (fst (_log_likelihood_ref st y y_pred)) !! l = Some v.
Proof.
  intros Hl. unfold _log_likelihood_ref.
  assert (l <> fresh (dom (arrays st))) as Hfresh.
  { intros ->. apply (is_fresh (dom (arrays st))).
    apply (elem_of_dom_2 (arrays st) _ v). exact Hl. }
  destruct (arrays st !! y) as [vy |]; [| exact Hl].
  destruct (arrays st !! y_pred) as [vp |]; [| exact Hl].
  destruct (batch_range_of _ vp) as [b | e]; [| exact Hl].
  destruct (argmax_axis1 vy) as [am | e]; [| exact Hl].
  destruct (v_copy vp) as [c | e]; [| exact Hl].
  destruct (isub_true_class b am c) as [c' | e]; cbn [fst arrays].
  - rewrite !lookup_insert_ne by congruence. exact Hl.
  - rewrite lookup_insert_ne by congruence. exact Hl.
Qed.

(** The call on references computes what the call on contents computes. *)
Lemma log_likelihood_ref_contents (st : cost_state R) (y y_pred : nat) (vy vp : value R) :
  arrays st !! y = Some vy -> arrays st !! y_pred = Some vp ->
  let r := _log_likelihood_ref st y y_pred in
  let r' := _log_likelihood (_batch_range st) vy vp in
  _batch_range (fst r) = fst r' /\
  match snd r with
  | Ok l => exists c, arrays (fst r) !! l = Some c /\ snd r' = Ok c
  | Raise e => snd r' = Raise e
  end.
Proof.
  intros Hy Hp. cbn zeta. unfold _log_likelihood_ref, _log_likelihood.
  rewrite Hy, Hp.
  destruct (batch_range_of _ vp) as [b | e]; [| split; reflexivity].
  destruct (argmax_axis1 vy) as [am | e]; cbn [rbind]; [| split; reflexivity].
  destruct (v_copy vp) as [c | e]; cbn [rbind]; [| split; reflexivity].
  destruct (isub_true_class b am c) as [c' | e]; cbn [fst snd arrays _batch_range].
  - split; [reflexivity |]. exists c'. rewrite lookup_insert_eq. split; reflexivity.
  - split; reflexivity.
Qed.

(** A cached batch range of another length, neither it nor the batch being
    of length 1, cannot be broadcast against the true-class indices. *)
Lemma log_likelihood_stale_cache_raises (b : list nat) (y y_pred : matrix R)
    (am : list nat) :
  mapM argmax y = Ok am ->
  length b <> length y -> length b <> 1 -> length y <> 1 ->
  _log_likelihood (Some b) (VMatrix y) (VMatrix y_pred) = (Some b, Raise IndexError).
Proof.
  intros Ham Hne Hb Hy. unfold _log_likelihood. cbn [batch_range_of argmax_axis1].
  rewrite Ham. cbn [rbind v_copy isub_true_class].
  apply mapM_Forall2, Forall2_length in Ham.
  unfold fancy_isub, bcast_index.
  destruct (Nat.eqb_spec (length b) (length am)) as [E | _]; [congruence |].
  destruct b as [| r [| r' b]]; cbn [length] in *; try lia; try reflexivity.
  all: destruct am as [| c [| c' am]]; cbn [length] in *; try lia; reflexivity.
Qed.

End Gradient.

Import CostExamples.

(** C9, the code on two successive gradient calls: the first call, on a
    batch of one sample, returns the prediction with 1 subtracted at the
    true class and leaves the batch range [0] in the class attribute. The
    second call, on a batch of two samples with true classes 0 and 1, uses
    that batch range: it subtracts 1 at both positions of the first row and
    nowhere in the second row, which is not the prediction with 1
    subtracted at each row's true class. Both calls return a new array and
    leave the predictions they were given as they were. *)
Theorem C9_cached_batch_range_misplaces_subtraction :
  let r1 := _log_likelihood_ref nll_start 0 1 in
  let r2 := _log_likelihood_ref (fst r1) 2 3 in
  (snd r1 = Ok 4 /\
   arrays (fst r1) !! 4 = Some (VMatrix [[qc (-1) 2; qc 1 2]]) /\
   true_class_gradient y_one y_pred_one = Ok [[qc (-1) 2; qc 1 2]] /\
   _batch_range (fst r1) = Some [0]) /\
  (snd r2 = Ok 5 /\
   arrays (fst r2) !! 5
   = Some (VMatrix [[qc (-1) 2; qc (-1) 2]; [qc 1 2; qc 1 2]]) /\
   true_class_gradient y_two y_pred_two
   = Ok [[qc (-1) 2; qc 1 2]; [qc 1 2; qc (-1) 2]]) /\
  (arrays (fst r2) !! 1 = Some (VMatrix y_pred_one) /\
   arrays (fst r2) !! 3 = Some (VMatrix y_pred_two)).
Proof.
  vm_compute. repeat split; reflexivity.
Qed.

End CostFacts.

(** * Layer chains: the root of a sub-layer and back-propagation *)

Module ChainFacts.
Import NdArray Values Cost Chain.

Section Effects.
Context {St : Type}.

Lemma ebind_ok {A B : Type} (m : eff St A) (k : A -> eff St B) (s s' : St) (a : A) :
  m s = (s', Ok a) -> ebind m k s = k a s'.
Proof. intros Hm. unfold ebind. rewrite Hm. reflexivity. Qed.

Lemma ebind_raise {A B : Type} (m : eff St A) (k : A -> eff St B) (s s' : St) (e : exn) :
  m s = (s', Raise e) -> ebind m k s = (s', Raise e).
Proof. intros Hm. unfold ebind. rewrite Hm. reflexivity. Qed.

End Effects.

Section Walk.
Context {R : Type} `{Scalar R} {P : Type}.
Implicit Types (w : world R P) (objs : gmap nat (layer R P)).

(** With more fuel than links to follow, the walk returns the object
    without parent. *)
Lemma root_walk_enough objs (p r n fuel : nat) :
  walks_to objs p r n -> n < fuel -> root_walk fuel objs p = Some (Ok r).
Proof.
  intros Hw. revert fuel. induction Hw as [p o Hp Hnone | p q r n o Hp Hq Hw IH];
    intros [| fuel] Hf; try lia; cbn [root_walk]; rewrite Hp.
  - rewrite Hnone. reflexivity.
  - rewrite Hq. apply IH. lia.
Qed.

Lemma walks_to_no_parent objs (p r n : nat) :
  walks_to objs p r n -> exists o, objs !! r = Some o /\ parent o = None.
Proof.
  induction 1 as [p o Hp Hnone | p q r n o Hp Hq Hw IH]; [eauto | exact IH].
Qed.

(** The object reached and the number of links are determined by the
    start. *)
Lemma walks_to_unique objs (p r r' n n' : nat) :
  walks_to objs p r n -> walks_to objs p r' n' -> r = r' /\ n = n'.
Proof.
  intros Hw. revert r' n'.
  induction Hw as [p o Hp Hnone | p q r n o Hp Hq Hw IH]; intros r' n' Hw'.
  - inversion Hw' as [? o' Hp' Hnone' | ? q' ? ? o' Hp' Hq' Hw'']; subst; [auto |].
    rewrite Hp in Hp'. injection Hp' as <-. congruence.
  - inversion Hw' as [? o' Hp' Hnone' | ? q' ? m o' Hp' Hq' Hw'']; subst.
    + rewrite Hp in Hp'. injection Hp' as <-. congruence.
    + rewrite Hp in Hp'. injection Hp' as <-.
      rewrite Hq in Hq'. injection Hq' as <-.
      destruct (IH _ _ Hw'') as [-> ->]. auto.
Qed.

Lemma bind_get_object {A : Type} (l : nat) (k : layer R P -> eff (world R P) A) w :
  ebind (get_object l) k w
  = match objects w !! l with
    | Some o => k o w
    | None => (w, Raise KeyError)
    end.
Proof. unfold ebind, get_object. destruct (objects w !! l); reflexivity. Qed.

Lemma bind_get_attr {A : Type} (r : option nat) (k : layer R P -> eff (world R P) A) w :
  ebind (get_attr r) k w
  = match r with
    | None => (w, Raise AttributeError)
    | Some l =>
        match objects w !! l with
        | Some o => k o w
        | None => (w, Raise KeyError)
        end
    end.
Proof. destruct r; [apply bind_get_object | reflexivity]. Qed.

End Walk.

Section Reparent.
Context {R : Type} `{Scalar R} {P : Type}.
Implicit Types (w : world R P).
Variable f : nat -> option nat.

Local Abbreviation blind m := (parent_blind (R:=R) (P:=P) f m).

Lemma lookup_reparent w (l : nat) :
  objects (reparent f w) !! l = (fun o => set_parent o (f l)) <$> objects w !! l.
Proof.
  unfold reparent. cbn [objects]. rewrite map_lookup_imap.
  destruct (objects w !! l); reflexivity.
Qed.

Lemma reparent_insert w (l : nat) (o : layer R P) :
  mkWorld (<[l := set_parent o (f l)]> (objects (reparent f w))) (batch_range w)
  = reparent f (mkWorld (<[l := o]> (objects w)) (batch_range w)).
Proof.
  unfold reparent. cbn [objects batch_range]. f_equal.
  rewrite map_imap_insert. reflexivity.
Qed.

Lemma parent_blind_ret {A : Type} (a : A) : blind (eret a).
Proof. intros w. reflexivity. Qed.

Lemma parent_blind_raise {A : Type} (e : exn) : blind (@eraise _ A e).
Proof. intros w. reflexivity. Qed.

Lemma parent_blind_lift {A : Type} (r : result A) : blind (elift r).
Proof. intros w. reflexivity. Qed.

Lemma parent_blind_bind {A B : Type} (m : eff (world R P) A) (k : A -> eff (world R P) B) :
  blind m -> (forall a, blind (k a)) -> blind (ebind m k).
Proof.
  intros Hm Hk w. unfold ebind. rewrite Hm.
  destruct (m w) as [w' [a | e]]; cbn [fst snd]; [apply Hk | reflexivity].
Qed.

Lemma parent_blind_derivative (l : nat) (y : value R) (delta : option (value R)) :
  blind (derivative l y delta).
Proof.
  intros w. unfold derivative. rewrite lookup_reparent.
  destruct (objects w !! l) as [o |]; cbn [fmap option_fmap option_map fst snd];
    [| reflexivity].
  f_equal. apply (reparent_insert w l (set_fields o _)).
Qed.

Lemma parent_blind_derivative_of (r : option nat) (y : value R) :
  blind (derivative_of r y).
Proof.
  destruct r; [apply parent_blind_derivative | apply parent_blind_raise].
Qed.

Lemma parent_blind_call_cost (c : cost_fields R) (y y_pred : value R) :
  blind (call_cost c y y_pred).
Proof. intros w. reflexivity. Qed.

Lemma parent_blind_is_sub_layer_ref (c : option nat) :
  blind (is_sub_layer_ref c).
Proof.
  intros w. destruct c as [l |]; [| reflexivity].
  unfold is_sub_layer_ref. rewrite !bind_get_object, lookup_reparent.
  destruct (objects w !! l) as [o |]; reflexivity.
Qed.

Lemma parent_blind_chain_rule_through (self : nat) (r : option nat)
    (y wt prev_delta : value R) :
  blind (chain_rule_through self r y wt prev_delta).
Proof.
  unfold chain_rule_through.
  repeat first [ apply parent_blind_bind; [| intros ?]
               | apply parent_blind_lift
               | apply parent_blind_derivative_of
               | apply parent_blind_derivative ].
Qed.

(** [bp] does not look at parent links. *)
Lemma parent_blind_bp (self : nat) (y wt prev_delta : value R) :
  blind (bp self y wt prev_delta).
Proof.
  intros w. unfold bp. rewrite !bind_get_object, lookup_reparent.
  destruct (objects w !! self) as [me |]; cbn [fmap option_fmap option_map];
    [| reflexivity].
  change (child (set_parent me (f self))) with (child me).
  change (is_SubLayer (set_parent me (f self))) with (is_SubLayer me).
  change (_root (set_parent me (f self))) with (_root me).
  revert w. apply parent_blind_bind; [apply parent_blind_is_sub_layer_ref |].
  intros [|].
  - destruct (is_SubLayer me); cbn [negb];
      [apply parent_blind_derivative | apply parent_blind_ret].
  - destruct (is_SubLayer me).
    + apply parent_blind_chain_rule_through.
    + repeat first [ apply parent_blind_bind; [| intros ?]
                   | apply parent_blind_lift
                   | apply parent_blind_derivative ].
Qed.

(** [bp_first] does not look at parent links. *)
Lemma parent_blind_bp_first (self : nat) (y y_pred : value R) :
  blind (bp_first self y y_pred).
Proof.
  intros w. unfold bp_first. rewrite !bind_get_object, lookup_reparent.
  destruct (objects w !! self) as [me |]; cbn [fmap option_fmap option_map];
    [| reflexivity].
  change (cost (set_parent me (f self))) with (cost me).
  change (_root (set_parent me (f self))) with (_root me).
  destruct (cost me) as [c |]; [| reflexivity].
  rewrite !bind_get_attr.
  destruct (_root me) as [r |]; [| reflexivity].
  rewrite lookup_reparent.
  destruct (objects w !! r) as [rt |]; cbn [fmap option_fmap option_map];
    [| reflexivity].
  change (name (set_parent rt (f r))) with (name rt).
  revert w.
  destruct (String.eqb (name rt) "Sigmoid" && _); [apply parent_blind_lift |].
  destruct (String.eqb (_cost_function_name c) "Log Likelihood").
  all: repeat first [ apply parent_blind_bind; [| intros ?]
                    | apply parent_blind_lift
                    | apply parent_blind_call_cost
                    | apply parent_blind_derivative_of ].
Qed.

End Reparent.

Section BackPropagation.
Context {R : Type} `{Scalar R} {P : Type}.
Implicit Types (w : world R P) (me : layer R P).

(** [bp] on a sub-layer: the child decides between the sub-layer's own
    derivative of [prev_delta] and the chain rule through the stored root
    reference. *)
Lemma bp_of_sub_layer w (self : nat) me (y wt prev_delta : value R) :
  objects w !! self = Some me ->
  is_SubLayer me = true ->
  (forall c, child me = Some c -> is_Some (objects w !! c)) ->
  bp self y wt prev_delta w
  = if has_sub_layer_child w me then derivative self y (Some prev_delta) w
    else chain_rule_through self (_root me) y wt prev_delta w.
Proof.
  intros Hself Hsub Hchild. unfold bp, has_sub_layer_child.
  rewrite bind_get_object, Hself, Hsub. cbn [negb].
  destruct (child me) as [c |] eqn:Hc.
  - destruct (Hchild c eq_refl) as [co Hco].
    unfold is_sub_layer_ref. unfold ebind at 1. rewrite bind_get_object, Hco.
    cbn [eret]. destruct (is_SubLayer co); reflexivity.
  - reflexivity.
Qed.

(** [bp_first] on a CostLayer whose stored root reference leads to the
    layer [rt]. *)
Lemma bp_first_with_root w (self r : nat) me (c : cost_fields R) (rt : layer R P)
    (y y_pred : value R) :
  objects w !! self = Some me ->
  cost me = Some c ->
  _root me = Some r ->
  objects w !! r = Some rt ->
  bp_first self y y_pred w
  = if String.eqb (name rt) "Sigmoid"
       && String.eqb (_cost_function_name c) "Cross Entropy"
    then (w, sigmoid_cross_entropy_delta y y_pred)
    else if String.eqb (_cost_function_name c) "Log Likelihood"
    then negated_gradient_over_4 c y y_pred w
    else negated_gradient_times_derivative c (Some r) y y_pred w.
Proof.
  intros Hself Hcost Hroot Hrt. unfold bp_first.
  rewrite bind_get_object, Hself, Hcost, bind_get_attr, Hroot, Hrt.
  destruct (String.eqb (name rt) "Sigmoid" && _); [reflexivity |].
  destruct (String.eqb (_cost_function_name c) "Log Likelihood"); reflexivity.
Qed.

(** [bp_first] on a CostLayer whose stored root reference was never set. *)
Lemma bp_first_without_root w (self : nat) me (c : cost_fields R) (y y_pred : value R) :
  objects w !! self = Some me ->
  cost me = Some c ->
  _root me = None ->
  bp_first self y y_pred w = (w, Raise AttributeError).
Proof.
  intros Hself Hcost Hroot. unfold bp_first.
  rewrite bind_get_object, Hself, Hcost, bind_get_attr, Hroot. reflexivity.
Qed.

(** The negative log-likelihood case on a batch that the cached batch
    range fits: minus the prediction with 1 subtracted at the true
    classes, divided by 4. *)
Lemma negated_gradient_over_4_log_likelihood w (y y_pred : matrix R) :
  batch_range w = None \/ batch_range w = Some (seq 0 (length y_pred)) ->
  Forall2 (fun a b => length a = length b) y y_pred ->
  snd (negated_gradient_over_4 (mkCostFields "Log Likelihood" _log_likelihood)
         (VMatrix y) (VMatrix y_pred) w)
  = let! g := true_class_gradient y y_pred in
    Ok (VMatrix (map (map (fun a => s_div (s_opp a) (s_of_nat 4))) g)).
Proof.
  intros Hbr Hshape. unfold negated_gradient_over_4, ebind, call_cost.
  cbn [_cost_function fst snd].
  rewrite (CostFacts.log_likelihood_fitting_cache _ _ _ Hbr Hshape). cbn [fst snd].
  destruct (true_class_gradient y y_pred) as [g | e]; cbn [rbind]; [| reflexivity].
  cbn [elift snd v_neg v_map v_div v_binop lit]. rewrite map_map. f_equal. f_equal.
  apply map_ext. intros row. rewrite map_map. reflexivity.
Qed.

(** C2 (amended): for a sub-layer node whose [bp] is [Layer.bp], the result
    depends on the child. When the child is itself a sub-layer, [bp]
    returns the node's own [_derivative(y, prev_delta)] with no weight
    transpose and no root derivative; when there is no child or the child
    is not a sub-layer, it returns
    [_derivative(y, prev_delta.dot(w.T) * _root.derivative(y))], where
    [_root] is the stored root reference. *)
Theorem C2_sub_layer_bp_depends_on_child w (self : nat) me (y wt prev_delta : value R) :
  objects w !! self = Some me ->
  is_SubLayer me = true ->
  (forall c, child me = Some c -> is_Some (objects w !! c)) ->
  bp self y wt prev_delta w
  = if has_sub_layer_child w me then derivative self y (Some prev_delta) w
    else chain_rule_through self (_root me) y wt prev_delta w.
Proof. exact (bp_of_sub_layer w self me y wt prev_delta). Qed.

(** C5 (amended): on a CostLayer whose stored root reference [_root] leads
    to a layer, [bp_first(y, y_pred)] returns
    [y * (1 - y_pred) - (1 - y) * y_pred] when the name of that layer is
    "Sigmoid" and the loss is "Cross Entropy"; otherwise, when the loss is
    "Log Likelihood", minus the loss gradient divided by 4; otherwise minus
    the loss gradient times [_root.derivative(y_pred)]. While [_root] holds
    [None] the call raises AttributeError. *)
Theorem C5_bp_first_three_cases w (self : nat) me (c : cost_fields R)
    (y y_pred : value R) :
  objects w !! self = Some me ->
  cost me = Some c ->
  (forall (r : nat) (rt : layer R P),
     _root me = Some r ->
     objects w !! r = Some rt ->
     bp_first self y y_pred w
     = if String.eqb (name rt) "Sigmoid"
          && String.eqb (_cost_function_name c) "Cross Entropy"
       then (w, sigmoid_cross_entropy_delta y y_pred)
       else if String.eqb (_cost_function_name c) "Log Likelihood"
       then negated_gradient_over_4 c y y_pred w
       else negated_gradient_times_derivative c (Some r) y y_pred w) /\
  (_root me = None -> bp_first self y y_pred w = (w, Raise AttributeError)).
Proof.
  intros Hself Hcost. split.
  - intros r rt Hroot Hrt. exact (bp_first_with_root w self r me c rt y y_pred
                                    Hself Hcost Hroot Hrt).
  - exact (bp_first_without_root w self me c y y_pred Hself Hcost).
Qed.

(** C7 (amended): the [root] property of a sub-layer is derived: it walks
    the parent links up to the ancestor that has no parent, and returns
    it once the walk is given more steps than there are links. [bp] and
    [bp_first] do not use that walk: they read the stored reference
    [_root], so replacing every parent link changes nothing in what they
    return, and [bp] on a sub-layer without sub-layer child is the chain
    rule through [_root]. *)
Theorem C7_root_walks_parents_bp_reads_stored_root w (f : nat -> option nat)
    (self p r n fuel : nat) me (y wt prev_delta y_pred : value R) :
  objects w !! self = Some me ->
  is_SubLayer me = true ->
  parent me = Some p ->
  walks_to (objects w) p r n ->
  n < fuel ->
  (forall c, child me = Some c -> is_Some (objects w !! c)) ->
  (root fuel w self = Some (Ok r) /\
   exists o, objects w !! r = Some o /\ parent o = None) /\
  (has_sub_layer_child w me = false ->
   bp self y wt prev_delta w = chain_rule_through self (_root me) y wt prev_delta w) /\
  bp self y wt prev_delta (reparent f w)
  = (reparent f (fst (bp self y wt prev_delta w)), snd (bp self y wt prev_delta w)) /\
  bp_first self y y_pred (reparent f w)
  = (reparent f (fst (bp_first self y y_pred w)), snd (bp_first self y y_pred w)).
Proof.
  intros Hself Hsub Hparent Hwalk Hfuel Hchild. repeat split.
  - unfold root. rewrite Hself, Hsub, Hparent.
    exact (root_walk_enough _ _ _ _ _ Hwalk Hfuel).
  - exact (walks_to_no_parent _ _ _ _ Hwalk).
  - intros Hno. rewrite (bp_of_sub_layer w self me) by assumption.
    rewrite Hno. reflexivity.
  - apply parent_blind_bp.
  - apply parent_blind_bp_first.
Qed.

End BackPropagation.

Import ChainExamples.

(** Equality of evaluated rational data, up to the proofs of reducedness. *)
Ltac qc_eval :=
  vm_compute;
  repeat first [ reflexivity | apply Qc_is_canon; reflexivity | f_equal ].

(** C2, the claim as stated fails: the Dropout sub-layer of the chain
    Sigmoid, Dropout, CostLayer has a sub-layer as child. Its [bp] returns
    [_prob_inv * prev_delta], which is 2, and not the chain rule through
    the weight transpose and the root derivative, which gives 1. *)
Lemma C2_counterexample :
  objects rooted_chain !! 1 = Some (dropout_object (Some 2) (Some 0)) /\
  root 2 rooted_chain 1 = Some (Ok 0) /\
  snd (bp 1 y_act w_next delta_next rooted_chain) = Ok (VMatrix [[qc 2 1]]) /\
  snd (chain_rule_through 1 (Some 0) y_act w_next delta_next rooted_chain)
  = Ok (VMatrix [[qc 1 1]]) /\
  snd (bp 1 y_act w_next delta_next rooted_chain)
  <> snd (chain_rule_through 1 (Some 0) y_act w_next delta_next rooted_chain).
Proof.
  repeat (split; [qc_eval |]).
  intros E.
  apply (f_equal (fun r => match r with
                           | Ok (VMatrix ((q :: _) :: _)) => this q
                           | _ => 0%Q
                           end)) in E.
  vm_compute in E. discriminate E.
Qed.

Lemma C2_sub_layer_bp_depends_on_child_witness :
  objects rooted_chain !! 1 = Some (dropout_object (Some 2) (Some 0)) /\
  bp 1 y_act w_next delta_next rooted_chain
  = derivative 1 y_act (Some delta_next) rooted_chain.
Proof.
  assert (objects rooted_chain !! 1 = Some (dropout_object (Some 2) (Some 0))) as Hme
    by (vm_compute; reflexivity).
  split; [exact Hme |].
  rewrite (C2_sub_layer_bp_depends_on_child rooted_chain 1 _ y_act w_next delta_next Hme).
  - reflexivity.
  - reflexivity.
  - intros c [= <-]. vm_compute. eexists. reflexivity.
Defined.

(** C5, the claim as stated fails: with the negative log-likelihood loss,
    target [[1, 0]] and prediction [[1/2, 1/2]] the loss gradient is
    [[-1/2, 1/2]]; [bp_first] returns [[1/8, -1/8]], the gradient with the
    sign changed and divided by 4, and not [[-1/8, 1/8]]. *)
Lemma C5_counterexample :
  objects rooted_chain !! 2 = Some (cost_object (Some 0)) /\
  snd (bp_first 2 y_target y_hat rooted_chain) = Ok (VMatrix [[qc 1 8; qc (-1) 8]]) /\
  snd (raw_gradient_over_4 (mkCostFields "Log Likelihood" _log_likelihood)
         y_target y_hat rooted_chain)
  = Ok (VMatrix [[qc (-1) 8; qc 1 8]]).
Proof.
  repeat split; qc_eval.
Qed.

Lemma C5_bp_first_three_cases_witness :
  objects rooted_chain !! 2 = Some (cost_object (Some 0)) /\
  objects rooted_chain !! 0 = Some sigmoid_object /\
  bp_first 2 y_target y_hat rooted_chain
  = negated_gradient_over_4 (mkCostFields "Log Likelihood" _log_likelihood)
      y_target y_hat rooted_chain.
Proof.
  assert (objects rooted_chain !! 2 = Some (cost_object (Some 0))) as Hme
    by (vm_compute; reflexivity).
  assert (objects rooted_chain !! 0 = Some sigmoid_object) as Hrt
    by (vm_compute; reflexivity).
  split; [exact Hme |]. split; [exact Hrt |].
  destruct (C5_bp_first_three_cases rooted_chain 2 _ _ y_target y_hat Hme eq_refl)
    as [Hset _].
  rewrite (Hset 0 _ eq_refl Hrt). reflexivity.
Defined.

(** C7, the claim as stated fails. On the chains as the constructors leave
    them the walk along the parent links finds the Sigmoid layer, but
    [bp] and [bp_first] read [_root], which holds [None], and raise. After
    the Dropout sub-layer was given a Tanh layer as root, the walk still
    finds the Sigmoid layer, and [bp] uses the derivative of the Tanh
    layer: it returns 3, where the derivative of the Sigmoid layer gives
    1. *)
Lemma C7_counterexample :
  (root 2 short_chain 1 = Some (Ok 0) /\
   snd (bp 1 y_act w_next delta_next short_chain) = Raise AttributeError) /\
  (root 3 fresh_chain 2 = Some (Ok 0) /\
   snd (bp_first 2 y_target y_hat fresh_chain) = Raise AttributeError) /\
  (root 2 misrooted_chain 1 = Some (Ok 0) /\
   (_root <$> objects misrooted_chain !! 1) = Some (Some 2) /\
   snd (bp 1 y_act w_next delta_next misrooted_chain) = Ok (VMatrix [[qc 3 1]]) /\
   snd (chain_rule_through 1 (Some 0) y_act w_next delta_next misrooted_chain)
   = Ok (VMatrix [[qc 1 1]])).
Proof.
  repeat split; qc_eval.
Qed.

Lemma C7_root_walks_parents_bp_reads_stored_root_witness :
  objects misrooted_chain !! 1 = Some (dropout_object None (Some 2)) /\
  walks_to (objects misrooted_chain) 0 0 0 /\
  root 1 misrooted_chain 1 = Some (Ok 0) /\
  bp 1 y_act w_next delta_next misrooted_chain
  = chain_rule_through 1 (Some 2) y_act w_next delta_next misrooted_chain /\
  snd (bp 1 y_act w_next delta_next (reparent (fun _ => None) misrooted_chain))
  = snd (bp 1 y_act w_next delta_next misrooted_chain).
Proof.
  assert (objects misrooted_chain !! 1 = Some (dropout_object None (Some 2))) as Hme
    by (vm_compute; reflexivity).
  assert (walks_to (objects misrooted_chain) 0 0 0) as Hwalk.
  { apply (walks_here _ 0 (set_child sigmoid_object (Some 1)));
      [vm_compute; reflexivity | reflexivity]. }
  destruct (C7_root_walks_parents_bp_reads_stored_root misrooted_chain (fun _ => None)
              1 0 0 0 1 _ y_act w_next delta_next y_hat Hme eq_refl eq_refl Hwalk
              (Nat.lt_0_succ 0))
    as ((Hroot & _) & Hbp & Hre & _).
  { intros c [=]. }
  split; [exact Hme |]. split; [exact Hwalk |]. split; [exact Hroot |].
  split; [apply Hbp; reflexivity |].
  rewrite Hre. reflexivity.
Defined.

End ChainFacts.

(** * Normalize: the forward pass in inference mode *)

Module NormFacts.
Import NdArray Values Norm.

Section Predict.
Context {R : Type} `{Scalar R} `{Sqrt R}.
Implicit Types (st : Normalize R) (x : matrix R).

Lemma init_running_initialised st x (rm rv : value R) :
  running_mean st = Some rm -> running_var st = Some rv -> init_running x st = st.
Proof. intros Hm Hv. unfold init_running. rewrite Hm, Hv. reflexivity. Qed.

Lemma init_running_uninitialised st x :
  running_mean st = None \/ running_var st = None ->
  init_running x st
  = set_running st (Some (zeros (shape1 x))) (Some (zeros (shape1 x))).
Proof.
  intros Hnone. unfold init_running.
  destruct (running_mean st), (running_var st); try reflexivity.
  destruct Hnone; discriminate.
Qed.

(** The inference-mode call after the first statement. *)
Lemma activate_predict st x :
  _activate x true st
  = (init_running x st,
     let! xn := normalized (_eps st) x (running_mean (init_running x st))
                           (running_var (init_running x st)) in
     scaled st xn).
Proof.
  unfold _activate, ebind, modify, read, elift. cbn [negb id].
  assert (_eps (init_running x st) = _eps st) as ->.
  { unfold init_running. destruct (running_mean st), (running_var st); reflexivity. }
  assert (forall xn, scaled (init_running x st) xn = scaled st xn) as Hscaled.
  { intros xn. unfold init_running.
    destruct (running_mean st), (running_var st); reflexivity. }
  destruct (normalized _ x _ _) as [xn | e]; cbn [rbind]; [| reflexivity].
  rewrite Hscaled. reflexivity.
Qed.

(** The inference-mode call on a sub-layer that has no running estimates
    yet: both are set to zeros of [x.shape[1]], and the output is computed
    from these. *)
Lemma activate_predict_uninitialised st x :
  running_mean st = None \/ running_var st = None ->
  _activate x true st
  = (set_running st (Some (zeros (shape1 x))) (Some (zeros (shape1 x))),
     let! xn := normalized (_eps st) x (Some (zeros (shape1 x)))
                           (Some (zeros (shape1 x))) in
     scaled st xn).
Proof.
  intros Hnone. rewrite activate_predict, (init_running_uninitialised st x Hnone).
  reflexivity.
Qed.

(** The inference-mode call on a sub-layer whose running estimates are
    set: nothing changes, and the output is computed from them and not
    from the batch statistics. *)
Lemma activate_predict_initialised st x (rm rv : value R) :
  running_mean st = Some rm ->
  running_var st = Some rv ->
  _activate x true st
  = (st, let! xn := normalized (_eps st) x (Some rm) (Some rv) in scaled st xn) /\
  forall m v : option (value R),
    snd (_activate x true (set_sample st m v)) = snd (_activate x true st).
Proof.
  intros Hm Hv. split.
  - rewrite activate_predict, (init_running_initialised st x rm rv Hm Hv), Hm, Hv.
    reflexivity.
  - intros m v. rewrite !activate_predict.
    rewrite (init_running_initialised st x rm rv Hm Hv).
    rewrite (init_running_initialised (set_sample st m v) x rm rv Hm Hv).
    reflexivity.
Qed.

(** C6 (amended): on a call in inference mode of a sub-layer whose running
    mean and running variance are both set, no attribute of the sub-layer
    changes, and the output is
    [gamma * ((x - running_mean) / sqrt(running_var + eps)) + beta]; the
    batch statistics kept in [sample_mean] and [sample_var] play no part
    in it. On a call that finds the running mean or the running variance
    unset, as the first forward call does, both are set to zeros of
    [x.shape[1]], nothing else changes, and the output is computed from
    these zeros. *)
Theorem C6_predict_running_estimates st x :
  (forall rm rv : value R,
     running_mean st = Some rm ->
     running_var st = Some rv ->
     _activate x true st
     = (st, let! xn := normalized (_eps st) x (Some rm) (Some rv) in scaled st xn) /\
     forall m v : option (value R),
       snd (_activate x true (set_sample st m v)) = snd (_activate x true st)) /\
  (running_mean st = None \/ running_var st = None ->
   _activate x true st
   = (set_running st (Some (zeros (shape1 x))) (Some (zeros (shape1 x))),
      let! xn := normalized (_eps st) x (Some (zeros (shape1 x)))
                            (Some (zeros (shape1 x))) in
      scaled st xn)).
Proof.
  split.
  - intros rm rv. apply activate_predict_initialised.
  - apply activate_predict_uninitialised.
Qed.

End Predict.

Import RealScalar NormExamples.

(** C6, the claim as stated fails on the first forward call: a sub-layer
    as the constructor leaves it has no running estimates, and a call in
    inference mode sets both to zeros. *)
Lemma C6_counterexample :
  (running_mean norm_fresh = None /\ running_var norm_fresh = None) /\
  running_mean (fst (_activate x_batch true norm_fresh)) = Some (zeros 2) /\
  running_var (fst (_activate x_batch true norm_fresh)) = Some (zeros 2) /\
  fst (_activate x_batch true norm_fresh) <> norm_fresh.
Proof.
  repeat split; try reflexivity.
  intros E. apply (f_equal running_mean) in E. discriminate E.
Qed.

Lemma C6_predict_running_estimates_witness :
  running_mean norm_trained = Some (VMatrix [[r_of 1; r_of 2]]) /\
  running_var norm_trained = Some (VMatrix [[r_of 3; r_of 8]]) /\
  fst (_activate x_batch true norm_trained) = norm_trained /\
  fst (_activate x_batch true norm_fresh)
  = set_running norm_fresh (Some (zeros 2)) (Some (zeros 2)).
Proof.
  split; [reflexivity |]. split; [reflexivity |].
  destruct (C6_predict_running_estimates norm_trained x_batch) as [Hset _].
  destruct (Hset (VMatrix [[r_of 1; r_of 2]]) (VMatrix [[r_of 3; r_of 8]])
              eq_refl eq_refl) as [Hcall _].
  destruct (C6_predict_running_estimates norm_fresh x_batch) as [_ Hunset].
  rewrite Hcall, (Hunset (or_introl eq_refl)). split; reflexivity.
Defined.

End NormFacts.

(** * Further properties of the shape validation *)

Module ConvShapeMore.
Import PyInt ConvShape.
Local Open Scope Z_scope.

Lemma ConvPoolLayer_feed_shape_raises_iff (s p c H W ph pw : Z) :
  s <> 0 ->
  ConvPoolLayer_feed_shape s p (c, H, W) (ph, pw) = Raise BuildLayerError <->
  ((W + 2 * p - ph) mod s <> 0 \/ (H + 2 * p - pw) mod s <> 0).
Proof.
  intros Hs. unfold ConvPoolLayer_feed_shape.
  rewrite !ConvShapeFacts.py_mod_ok, !ConvShapeFacts.py_int_truediv_ok by assumption.
  cbn [rbind].
  destruct (Z.eqb_spec ((W + 2 * p - ph) mod s) 0) as [E1 | E1]; cbn [negb rbind].
  - destruct (Z.eqb_spec ((H + 2 * p - pw) mod s) 0) as [E2 | E2]; cbn [negb].
    + split; [discriminate | intros [? | ?]; contradiction].
    + split; [auto | reflexivity].
  - split; [auto | reflexivity].
Qed.

Lemma init_raises_iff_feed_shape_raises (s p : Z) (prev : chw) (filt : Z * Z * Z) (e : exn) :
  ConvLayer_init (ConvShape2 prev filt) s p = Raise e <->
  ConvLayer_feed_shape s p prev filt = Raise e.
Proof.
  unfold ConvLayer_init.
  destruct (ConvLayer_feed_shape s p prev filt) as [[[[c f] oh] ow] | e']; cbn [rbind].
  - split; discriminate.
  - split; intros [= ->]; reflexivity.
Qed.

Lemma pool_init_raises_iff_feed_shape_raises (s p : Z) (prev : chw) (win : Z * Z) (e : exn) :
  ConvPoolLayer_init (PoolShape2 prev win) s p = Raise e <->
  ConvPoolLayer_feed_shape s p prev win = Raise e.
Proof.
  unfold ConvPoolLayer_init.
  destruct (ConvPoolLayer_feed_shape s p prev win) as [[[[c f] oh] ow] | e']; cbn [rbind].
  - split; discriminate.
  - split; intros [= ->]; reflexivity.
Qed.

(** X1: a stride of zero is not reported as a build error: the
    construction of a convolutional or pooling layer from a two-component
    shape stops in the remainder of the compatibility test with
    ZeroDivisionError. A one-component shape is not validated at all: the
    layer is constructed for any stride and padding, with its sizes
    unset. *)
Theorem X1_zero_stride_is_a_division_error (prev : chw) (filt : Z * Z * Z)
    (window : Z * Z) (s p : Z) :
  ConvLayer_init (ConvShape2 prev filt) 0 p = Raise ZeroDivisionError /\
  ConvPoolLayer_init (PoolShape2 prev window) 0 p = Raise ZeroDivisionError /\
  ConvLayer_init (ConvShape1 prev) s p
  = Ok (mkConvLayer (ConvShape1 prev) s p None None None None) /\
  ConvPoolLayer_init (PoolShape1 prev) s p
  = Ok (mkConvPoolLayer (PoolShape1 prev) s p None None None None).
Proof.
  destruct prev as [[c H] W], filt as [[f kh] kw], window as [ph pw].
  repeat split; reflexivity.
Qed.

(** X2: for a nonzero stride the construction from a two-component shape
    raises the build error exactly when the padded width minus the filter
    (or window) height, or the padded height minus the filter (or window)
    width, is not a multiple of the stride; this holds for the
    convolutional and for the pooling layer, whose test includes the
    padding. *)
Theorem X2_build_error_iff_crossed_remainders (s p c H W f kh kw : Z) :
  s <> 0 ->
  (ConvLayer_init (ConvShape2 (c, H, W) (f, kh, kw)) s p = Raise BuildLayerError <->
   ((W + 2 * p - kh) mod s <> 0 \/ (H + 2 * p - kw) mod s <> 0)) /\
  (ConvPoolLayer_init (PoolShape2 (c, H, W) (kh, kw)) s p = Raise BuildLayerError <->
   ((W + 2 * p - kh) mod s <> 0 \/ (H + 2 * p - kw) mod s <> 0)).
Proof.
  intros Hs. split.
  - rewrite init_raises_iff_feed_shape_raises.
    apply ConvShapeFacts.ConvLayer_feed_shape_raises_iff. exact Hs.
  - rewrite pool_init_raises_iff_feed_shape_raises.
    apply ConvPoolLayer_feed_shape_raises_iff. exact Hs.
Qed.

Lemma X2_build_error_iff_crossed_remainders_witness :
  2 <> 0 /\
  ConvLayer_init (ConvShape2 (1, 4, 5) (1, 2, 3)) 2 0 = Raise BuildLayerError.
Proof.
  split; [discriminate |].
  apply (proj1 (X2_build_error_iff_crossed_remainders 2 0 1 4 5 1 2 3 ltac:(discriminate))).
  left. discriminate.
Defined.

(** X3: on a square input with a square filter the compatibility test is
    the intended one. The layer is constructed exactly when the padded
    size minus the filter size is a multiple of the stride, and then both
    output sizes are the exact quotient plus one. *)
Theorem X3_square_shapes_are_validated_as_intended (s p c n f k : Z) :
  s <> 0 ->
  ((n + 2 * p - k) mod s = 0 ->
   ConvLayer_init (ConvShape2 (c, n, n) (f, k, k)) s p
   = Ok (mkConvLayer (ConvShape2 (c, n, n) (f, k, k)) s p (Some c) (Some f)
           (Some ((n + 2 * p - k) / s + 1)) (Some ((n + 2 * p - k) / s + 1)))) /\
  ((n + 2 * p - k) mod s <> 0 ->
   ConvLayer_init (ConvShape2 (c, n, n) (f, k, k)) s p = Raise BuildLayerError).
Proof.
  intros Hs. split.
  - intros Hdiv. unfold ConvLayer_init, ConvLayer_feed_shape.
    rewrite !ConvShapeFacts.py_mod_ok, !ConvShapeFacts.py_int_truediv_ok by assumption.
    rewrite Hdiv. cbn [Z.eqb negb rbind].
    assert ((n + 2 * p - k) ÷ s = (n + 2 * p - k) / s) as ->.
    { apply Z.div_exact in Hdiv; [| exact Hs].
      rewrite Hdiv at 1. rewrite Z.mul_comm. apply Z.quot_mul. exact Hs. }
    reflexivity.
  - intros Hrem. apply init_raises_iff_feed_shape_raises.
    apply ConvShapeFacts.ConvLayer_feed_shape_raises_iff; [exact Hs |].
    left. exact Hrem.
Qed.

Lemma X3_square_shapes_are_validated_as_intended_witness :
  ConvLayer_init (ConvShape2 (3, 7, 7) (4, 3, 3)) 2 1
  = Ok (mkConvLayer (ConvShape2 (3, 7, 7) (4, 3, 3)) 2 1 (Some 3) (Some 4)
          (Some 4) (Some 4)) /\
  ConvLayer_init (ConvShape2 (3, 8, 8) (4, 3, 3)) 2 1 = Raise BuildLayerError.
Proof.
  split.
  - apply (proj1 (X3_square_shapes_are_validated_as_intended 2 1 3 7 4 3
                    ltac:(discriminate))).
    reflexivity.
  - apply (proj2 (X3_square_shapes_are_validated_as_intended 2 1 3 8 4 3
                    ltac:(discriminate))).
    discriminate.
Defined.

End ConvShapeMore.

(** * Further properties of MaxPool *)

Module PoolMore.
Import NdArray Pool.
Local Open Scope nat_scope.

Section Forward.
Context {R : Type} `{ScalarLaws R}.

(** X4: the fallback loop of the forward pass fills every output cell
    with the maximum of its window: the value occurs in the input at a
    position of the window, and no value of the window exceeds it. *)
Theorem X4_fallback_output_is_window_maximum (self : MaxPool) (n ch h w : nat)
    (x : tensor4 R) :
  rect4 n ch h w x ->
  0 < fst (mp_pool self) -> 0 < snd (mp_pool self) ->
  (forall k, k < mp_out_h self -> k * mp_stride self < h) ->
  (forall l, l < mp_out_w self -> l * mp_stride self < w) ->
  exists out,
    activate_original self x = Ok out /\
    forall i j k l,
      i < n -> j < ch -> k < mp_out_h self -> l < mp_out_w self ->
      exists mx,
        get4 out i j k l = Some mx /\
        (exists r c,
           covers (mp_stride self) (fst (mp_pool self)) (snd (mp_pool self)) k l r c = true /\
           get4 x i j r c = Some mx) /\
        (forall r c v,
           covers (mp_stride self) (fst (mp_pool self)) (snd (mp_pool self)) k l r c = true ->
           get4 x i j r c = Some v -> s_ltb mx v = false).
Proof.
  intros Hx Hph Hpw Hk Hl.
  destruct (activate_original_spec self n ch h w x Hx Hph Hpw Hk Hl)
    as (out & ch' & Hout & _ & _ & Hcells).
  exists out. split; [exact Hout |].
  intros i j k l Hi Hj Hk' Hl'.
  destruct (Hcells i j k l Hi Hj Hk' Hl') as (mx & Hmx & Hget).
  exists mx. split; [exact Hget |].
  unfold window_max in Hmx.
  destruct (window_of x i j _ _ _ _) as [win |] eqn:Hwin; cbn [rbind] in Hmx;
    [| discriminate].
  unfold amax2 in Hmx. apply amax_spec in Hmx as [Hin Hmax].
  split.
  - apply (elem_of_window x i j _ _ _ _ win mx Hwin) in Hin as (r & c & Hr & Hc & Hv).
    exists r, c. split; [| exact Hv]. unfold covers.
    destruct (Nat.leb_spec (k * mp_stride self) r); [| lia].
    destruct (Nat.ltb_spec r (fst (mp_pool self) + k * mp_stride self)); [| lia].
    destruct (Nat.leb_spec (l * mp_stride self) c); [| lia].
    destruct (Nat.ltb_spec c (snd (mp_pool self) + l * mp_stride self)); [| lia].
    reflexivity.
  - intros r c v Hcov Hv. apply Hmax.
    apply (elem_of_window x i j _ _ _ _ win v Hwin). exists r, c.
    unfold covers in Hcov.
    destruct (Nat.leb_spec (k * mp_stride self) r); [| discriminate].
    destruct (Nat.ltb_spec r (fst (mp_pool self) + k * mp_stride self)); [| discriminate].
    destruct (Nat.leb_spec (l * mp_stride self) c); [| discriminate].
    destruct (Nat.ltb_spec c (snd (mp_pool self) + l * mp_stride self)); [| discriminate].
    split; [lia |]. split; [lia | exact Hv].
Qed.

End Forward.

Section Backward.
Context {R : Type} `{Scalar R}.

(** X5: after a forward pass on the fallback path, the backward pass
    returns a gradient of the shape of the cached input, and an input
    position that lies in no window receives the gradient zero. *)
Theorem X5_fallback_gradient_is_zero_outside_windows (self : MaxPool) (n ch h w : nat)
    (x d y : tensor4 R) (wt : option (matrix R)) :
  mp_cache_method self = Some "original"%string ->
  mp_x_cache self = Some x ->
  mp_is_fc_base self = false ->
  rect4 n ch h w x ->
  0 < fst (mp_pool self) -> 0 < snd (mp_pool self) ->
  (forall k, k < mp_out_h self -> k * mp_stride self < h) ->
  (forall l, l < mp_out_w self -> l * mp_stride self < w) ->
  rect4 n ch (mp_out_h self) (mp_out_w self) d ->
  exists dx,
    MaxPool_derivative self y wt (DeltaArray (Arr4 d)) = Ok dx /\
    rect4 n ch h w dx /\
    forall i j r c,
      i < n -> j < ch -> r < h -> c < w ->
      (forall k l, k < mp_out_h self -> l < mp_out_w self ->
         covers (mp_stride self) (fst (mp_pool self)) (snd (mp_pool self)) k l r c = false) ->
      get4 dx i j r c = Some s_zero.
Proof.
  intros Hmethod Hcache Hfc Hx Hph Hpw Hk Hl Hd.
  destruct (derivative_original_spec self n ch h w x d Hx Hph Hpw Hk Hl)
    as (dx & Hdx & Hrect & Hzero & _).
  { intros i j k l Hi Hj Hk' Hl'.
    exact (rect4_get4 n ch (mp_out_h self) (mp_out_w self) d i j k l Hd Hi Hj Hk' Hl'). }
  exists dx. split; [| split; [exact Hrect | exact Hzero]].
  unfold MaxPool_derivative, incoming_delta. rewrite Hfc. cbn [rbind].
  rewrite Hmethod, Hcache. exact Hdx.
Qed.

(** X6: the six-axis view that the fast path builds of an input whose
    height and width are multiples of the window holds the elements of
    the input in their order: reshaping it back to the shape of the input,
    as the backward pass does with the gradient, returns the input. *)
Theorem X6_tile_view_reshapes_back (n ch p q a1 a2 : nat) (x : tensor4 R) :
  rect4 n ch (a1 * p) (a2 * q) x ->
  exists x_reshaped,
    reshape6 n ch a1 p a2 q (flatten4 x) = Ok x_reshaped /\
    rect6 n ch a1 p a2 q x_reshaped /\
    reshape4 (n, ch, a1 * p, a2 * q) (flatten6 x_reshaped) = Ok x.
Proof.
  intros Hx. exists (map (map (tile_image p q a1 a2)) x).
  split; [apply reshape6_tiles; exact Hx |].
  split; [apply rect6_tile; exact Hx |].
  rewrite (reshape4_untiles n ch p q a1 a2) by (apply rect6_tile; exact Hx).
  f_equal. apply (untile_tile n ch p q a1 a2). exact Hx.
Qed.

End Backward.

Import Examples PoolExamples.

Lemma X4_fallback_output_is_window_maximum_witness :
  exists out, activate_original pool_2x2_s1 x_ramp = Ok out.
Proof.
  destruct (X4_fallback_output_is_window_maximum pool_2x2_s1 1 1 4 4 x_ramp)
    as (out & Hout & _).
  - split; [reflexivity | repeat constructor].
  - cbn. lia.
  - cbn. lia.
  - cbn. intros k Hk. lia.
  - cbn. intros l Hl. lia.
  - exists out. exact Hout.
Defined.

Lemma X5_fallback_gradient_is_zero_outside_windows_witness :
  exists dx,
    MaxPool_derivative (set_cache_method (set_x_cache pool_1x1_s2 x_3x3) "original")
      [] None (DeltaArray (Arr4 delta_2x2)) = Ok dx /\
    get4 dx 0 0 1 1 = Some (zq 0).
Proof.
  destruct (X5_fallback_gradient_is_zero_outside_windows
              (set_cache_method (set_x_cache pool_1x1_s2 x_3x3) "original")
              1 1 3 3 x_3x3 delta_2x2 [] None)
    as (dx & Hdx & _ & Hzero).
  - reflexivity.
  - reflexivity.
  - reflexivity.
  - split; [reflexivity | repeat constructor].
  - cbn. lia.
  - cbn. lia.
  - cbn. intros k Hk. lia.
  - cbn. intros l Hl. lia.
  - split; [reflexivity | repeat constructor].
  - exists dx. split; [exact Hdx |].
    rewrite (Hzero 0 0 1 1); [| lia | lia | lia | lia |].
    + reflexivity.
    + cbn [pool_1x1_s2 set_cache_method set_x_cache mp_out_h mp_out_w mp_stride
             mp_pool fst snd].
      intros k l Hk Hl.
      destruct k as [| [| k]]; [| | lia]; destruct l as [| [| l]]; try lia; reflexivity.
Defined.

Lemma X6_tile_view_reshapes_back_witness :
  exists x_reshaped,
    reshape6 1 1 2 2 2 2 (flatten4 x_ramp) = Ok x_reshaped /\
    reshape4 (1, 1, 4, 4) (flatten6 x_reshaped) = Ok x_ramp.
Proof.
  destruct (X6_tile_view_reshapes_back 1 1 2 2 2 2 x_ramp) as (t & Ht & _ & Hback).
  - split; [reflexivity | repeat constructor].
  - exists t. split; [exact Ht | exact Hback].
Defined.

End PoolMore.

(** * Further properties of the layer chain *)

Module ChainMoreFacts.
Import NdArray Values Cost Chain ChainMore ChainFacts.
Local Open Scope nat_scope.

Section Structure.
Context {R : Type} `{Scalar R} {P : Type}.
Implicit Types (w : world R P) (objs : gmap nat (layer R P)) (o : layer R P).

Lemma same_structure_refl w : same_structure w w.
Proof.
  intros l. destruct (objects w !! l) as [o |]; [| exact I].
  destruct o; reflexivity.
Qed.

Lemma same_structure_trans w1 w2 w3 :
  same_structure w1 w2 -> same_structure w2 w3 -> same_structure w1 w3.
Proof.
  intros H12 H23 l. specialize (H12 l). specialize (H23 l).
  destruct (objects w1 !! l) as [o1 |], (objects w2 !! l) as [o2 |],
    (objects w3 !! l) as [o3 |]; try contradiction; try exact I.
  rewrite H23, H12. reflexivity.
Qed.

Lemma keeps_structure_ret {A : Type} (a : A) : keeps_structure (P := P) (R := R) (eret a).
Proof. intros w. apply same_structure_refl. Qed.

Lemma keeps_structure_raise {A : Type} (e : exn) :
  keeps_structure (P := P) (R := R) (@eraise _ A e).
Proof. intros w. apply same_structure_refl. Qed.

Lemma keeps_structure_lift {A : Type} (r : result A) :
  keeps_structure (P := P) (R := R) (elift r).
Proof. intros w. apply same_structure_refl. Qed.

Lemma keeps_structure_bind {A B : Type} (m : eff (world R P) A)
    (k : A -> eff (world R P) B) :
  keeps_structure m -> (forall a, keeps_structure (k a)) -> keeps_structure (ebind m k).
Proof.
  intros Hm Hk w. unfold ebind. specialize (Hm w).
  destruct (m w) as [w' [a | e]]; cbn [fst] in *; [| exact Hm].
  eapply same_structure_trans; [exact Hm | apply Hk].
Qed.

Lemma keeps_structure_get_object (l : nat) : keeps_structure (P := P) (R := R) (get_object l).
Proof.
  intros w. unfold get_object. destruct (objects w !! l); apply same_structure_refl.
Qed.

Lemma keeps_structure_get_attr (r : option nat) :
  keeps_structure (P := P) (R := R) (get_attr r).
Proof.
  destruct r; [apply keeps_structure_get_object | apply keeps_structure_raise].
Qed.

Lemma keeps_structure_derivative (l : nat) (y : value R) (delta : option (value R)) :
  keeps_structure (P := P) (derivative l y delta).
Proof.
  intros w. unfold derivative.
  destruct (objects w !! l) as [o |] eqn:Hl; [| apply same_structure_refl].
  cbn [fst]. intros l'. cbn [objects].
  destruct (decide (l' = l)) as [-> | Hne].
  - rewrite Hl, lookup_insert_eq. reflexivity.
  - rewrite lookup_insert_ne by congruence.
    destruct (objects w !! l') as [o' |]; [| exact I]. destruct o'; reflexivity.
Qed.

Lemma keeps_structure_derivative_of (r : option nat) (y : value R) :
  keeps_structure (P := P) (derivative_of r y).
Proof.
  destruct r; [apply keeps_structure_derivative | apply keeps_structure_raise].
Qed.

Lemma keeps_structure_call_cost (c : cost_fields R) (y y_pred : value R) :
  keeps_structure (P := P) (call_cost c y y_pred).
Proof.
  intros w. unfold call_cost. cbn [fst]. intros l. cbn [objects].
  destruct (objects w !! l) as [o |]; [| exact I]. destruct o; reflexivity.
Qed.

Lemma keeps_structure_is_sub_layer_ref (c : option nat) :
  keeps_structure (P := P) (R := R) (is_sub_layer_ref c).
Proof.
  destruct c; [| apply keeps_structure_ret].
  apply keeps_structure_bind; [apply keeps_structure_get_object |].
  intros o. apply keeps_structure_ret.
Qed.

Ltac structure :=
  repeat first [ apply keeps_structure_bind; [| intros ?]
               | apply keeps_structure_lift
               | apply keeps_structure_ret
               | apply keeps_structure_raise
               | apply keeps_structure_get_object
               | apply keeps_structure_get_attr
               | apply keeps_structure_is_sub_layer_ref
               | apply keeps_structure_call_cost
               | apply keeps_structure_derivative_of
               | apply keeps_structure_derivative ].

Lemma keeps_structure_chain_rule_through (self : nat) (r : option nat)
    (y wt prev_delta : value R) :
  keeps_structure (P := P) (chain_rule_through self r y wt prev_delta).
Proof. unfold chain_rule_through. structure. Qed.

Lemma keeps_structure_bp (self : nat) (y wt prev_delta : value R) :
  keeps_structure (P := P) (bp self y wt prev_delta).
Proof.
  unfold bp. structure.
  match goal with b : bool |- _ => destruct b end.
  - match goal with o : layer R P |- _ => destruct (is_SubLayer o) end;
      cbn [negb]; structure.
  - match goal with o : layer R P |- _ => destruct (is_SubLayer o) end.
    + apply keeps_structure_chain_rule_through.
    + structure.
Qed.

Lemma keeps_structure_bp_first (self : nat) (y y_pred : value R) :
  keeps_structure (P := P) (bp_first self y y_pred).
Proof.
  unfold bp_first. structure.
  match goal with o : layer R P |- _ => destruct (cost o) as [c |] end; structure.
  destruct (String.eqb _ _ && _); structure.
  destruct (String.eqb _ _); structure.
Qed.

(** What [same_structure] says of one object. *)
Lemma same_structure_lookup w w' (l : nat) o :
  same_structure w w' -> objects w !! l = Some o ->
  exists o', objects w' !! l = Some o' /\ o' = set_fields o (fields o').
Proof.
  intros Hs Hl. specialize (Hs l). rewrite Hl in Hs.
  destruct (objects w' !! l) as [o' |]; [eauto | contradiction].
Qed.

(** X7: back-propagation never relinks the chain. After [bp] or
    [bp_first], whatever they return or raise, the state holds the same
    objects, and every object has the class, the parent, the child, the
    stored root and the cost function it had before. *)
Theorem X7_back_propagation_keeps_the_chain w (self : nat)
    (y wt prev_delta y_pred : value R) :
  forall w',
    w' = fst (bp self y wt prev_delta w) \/ w' = fst (bp_first self y y_pred w) ->
    forall l : nat,
      match objects w !! l with
      | Some o =>
          exists o',
            objects w' !! l = Some o' /\
            class_name o' = class_name o /\ is_SubLayer o' = is_SubLayer o /\
            parent o' = parent o /\ child o' = child o /\ _root o' = _root o /\
            cost o' = cost o
      | None => objects w' !! l = None
      end.
Proof.
  intros w' Hw' l.
  assert (same_structure w w') as Hs.
  { destruct Hw' as [-> | ->]; [apply keeps_structure_bp | apply keeps_structure_bp_first]. }
  specialize (Hs l).
  destruct (objects w !! l) as [o |], (objects w' !! l) as [o' |];
    try contradiction; [| reflexivity].
  exists o'. split; [reflexivity |]. rewrite Hs. repeat split; reflexivity.
Qed.

(** [bp] on a layer that is not a sub-layer and has a sub-layer as child:
    the delta is passed on and nothing changes. *)
Lemma bp_above_sub_layer w (r s : nat) (ro so : layer R P) (y wt prev_delta : value R) :
  objects w !! r = Some ro -> is_SubLayer ro = false -> child ro = Some s ->
  objects w !! s = Some so -> is_SubLayer so = true ->
  bp r y wt prev_delta w = (w, Ok prev_delta).
Proof.
  intros Hr Hnot Hchild Hs Hsub. unfold bp.
  rewrite bind_get_object, Hr, Hchild. unfold is_sub_layer_ref.
  unfold ebind at 1. rewrite bind_get_object, Hs. cbn [eret]. rewrite Hsub, Hnot.
  reflexivity.
Qed.

(** X8: a sub-layer absorbs the derivative of the layer above it. When the
    delta returned by [bp] on a sub-layer is handed to [bp] on its parent,
    a layer that is not a sub-layer, the parent passes it on unchanged and
    changes nothing, whatever activation value and weights it is given: the
    two calls in sequence do what the call on the sub-layer does. *)
Theorem X8_layer_above_a_sub_layer_passes_delta w (r s : nat) (ro so : layer R P)
    (y wt prev_delta y' wt' : value R) :
  objects w !! r = Some ro -> is_SubLayer ro = false -> child ro = Some s ->
  objects w !! s = Some so -> is_SubLayer so = true ->
  (do! d := bp s y wt prev_delta in bp r y' wt' d) w = bp s y wt prev_delta w.
Proof.
  intros Hr Hnot Hchild Hs Hsub. unfold ebind.
  pose proof (keeps_structure_bp s y wt prev_delta w) as Hkeep.
  destruct (bp s y wt prev_delta w) as [w' [d | e]]; cbn [fst] in Hkeep; [| reflexivity].
  destruct (same_structure_lookup w w' r ro Hkeep Hr) as (ro' & Hr' & Ero).
  destruct (same_structure_lookup w w' s so Hkeep Hs) as (so' & Hs' & Eso).
  apply (bp_above_sub_layer w' r s ro' so'); try assumption.
  - rewrite Ero. exact Hnot.
  - rewrite Ero. exact Hchild.
  - rewrite Eso. exact Hsub.
Qed.

End Structure.

Section Construction.
Context {R : Type} `{Scalar R} {P : Type}.
Implicit Types (w : world R P) (objs : gmap nat (layer R P)) (o : layer R P).

Lemma fresh_not_allocated objs : objs !! fresh (dom objs) = None.
Proof. apply not_elem_of_dom. apply is_fresh. Qed.

(** What [SubLayer.__init__] does to the objects. *)
Lemma SubLayer_init_objects w (cls : string) (q : nat) (po : layer R P) (p : P)
    (d : P -> value R -> option (value R) -> P * result (value R)) :
  objects w !! q = Some po ->
  SubLayer_init cls (Some q) p d w
  = (mkWorld (<[q := set_child po (Some (fresh (dom (objects w))))]>
                (<[fresh (dom (objects w)) := mkLayer cls true (Some q) None None None p d]>
                   (objects w)))
             (batch_range w),
     Ok (fresh (dom (objects w)))).
Proof.
  intros Hq. unfold SubLayer_init.
  assert (q <> fresh (dom (objects w))) as Hne.
  { intros ->. rewrite fresh_not_allocated in Hq. discriminate. }
  rewrite lookup_insert_ne by congruence. rewrite Hq. reflexivity.
Qed.

Lemma walks_to_mono objs objs' (q r n : nat) :
  (forall p o, objs !! p = Some o ->
               exists o', objs' !! p = Some o' /\ parent o' = parent o) ->
  walks_to objs q r n -> walks_to objs' q r n.
Proof.
  intros Hmono Hw. induction Hw as [p o Hp Hnone | p q r n o Hp Hq Hw IH].
  - destruct (Hmono p o Hp) as (o' & Hp' & Epar).
    apply (walks_here objs' p o'); [exact Hp' | congruence].
  - destruct (Hmono p o Hp) as (o' & Hp' & Epar).
    apply (walks_up objs' p q r n o'); [exact Hp' | congruence | exact IH].
Qed.

(** X9: constructing a sub-layer below an existing layer allocates a new
    object, makes the layer its parent and itself the child of that layer,
    leaves its stored root reference unset and every other object as it
    was. The [root] property of the new sub-layer is the ancestor without
    parent that the walk from its parent reaches. *)
Theorem X9_new_sub_layer_is_linked_below_its_parent w (cls : string) (q : nat)
    (po : layer R P) (p : P)
    (d : P -> value R -> option (value R) -> P * result (value R)) (r n : nat) :
  objects w !! q = Some po ->
  walks_to (objects w) q r n ->
  exists w' l,
    SubLayer_init cls (Some q) p d w = (w', Ok l) /\
    objects w !! l = None /\
    objects w' !! l = Some (mkLayer cls true (Some q) None None None p d) /\
    objects w' !! q = Some (set_child po (Some l)) /\
    (forall l', l' <> l -> l' <> q -> objects w' !! l' = objects w !! l') /\
    (forall fuel, n < fuel -> root fuel w' l = Some (Ok r)).
Proof.
  intros Hq Hwalk. set (l := fresh (dom (objects w))).
  assert (objects w !! l = None) as Hl by apply fresh_not_allocated.
  assert (q <> l) as Hne by (intros ->; rewrite Hl in Hq; discriminate).
  eexists _, l. split; [apply SubLayer_init_objects; exact Hq |].
  cbn [objects]. fold l.
  split; [exact Hl |].
  split; [rewrite lookup_insert_ne by congruence; apply lookup_insert_eq |].
  split; [apply lookup_insert_eq |].
  split; [intros l' H1 H2; rewrite !lookup_insert_ne by congruence; reflexivity |].
  intros fuel Hfuel. unfold root. cbn [objects].
  rewrite lookup_insert_ne by congruence. rewrite lookup_insert_eq.
  cbn [is_SubLayer parent].
  apply (root_walk_enough _ q r n fuel); [| exact Hfuel].
  apply (walks_to_mono (objects w)); [| exact Hwalk].
  intros p' o Hp'.
  destruct (decide (p' = q)) as [-> | Hpq].
  - rewrite Hq in Hp'. injection Hp' as <-.
    exists (set_child po (Some l)). split; [apply lookup_insert_eq | reflexivity].
  - exists o. split; [| reflexivity].
    rewrite lookup_insert_ne by congruence.
    rewrite lookup_insert_ne; [exact Hp' |].
    intros <-. rewrite Hl in Hp'. discriminate.
Qed.

Lemma root_walk_ext objs objs' (fuel p : nat) :
  (forall l, parent <$> objs' !! l = parent <$> objs !! l) ->
  root_walk fuel objs' p = root_walk fuel objs p.
Proof.
  intros Hext. revert p. induction fuel as [| fuel IH]; intros p; [reflexivity |].
  cbn [root_walk]. specialize (Hext p).
  destruct (objs' !! p) as [o' |], (objs !! p) as [o |]; cbn in Hext;
    try discriminate; [| reflexivity].
  injection Hext as ->. destruct (parent o); [apply IH | reflexivity].
Qed.

(** X10: assigning to [root] does not change what [root] returns. On a
    sub-layer the setter stores the value in [_root] and leaves the parent
    links, so the [root] property of every layer is what it was; on a
    layer that is not a sub-layer it raises BuildLayerError and changes
    nothing. *)
Theorem X10_root_setter_leaves_the_root_property w (self : nat) (me : layer R P)
    (value : option nat) :
  objects w !! self = Some me ->
  (is_SubLayer me = false -> root_setter self value w = (w, Raise BuildLayerError)) /\
  (is_SubLayer me = true ->
   exists w',
     root_setter self value w = (w', Ok tt) /\
     objects w' !! self = Some (set__root me value) /\
     (forall l, l <> self -> objects w' !! l = objects w !! l) /\
     (forall fuel l, root fuel w' l = root fuel w l)).
Proof.
  intros Hself. unfold root_setter. rewrite Hself. split.
  - intros ->. reflexivity.
  - intros ->. eexists. split; [reflexivity |]. cbn [objects].
    split; [apply lookup_insert_eq |].
    split; [intros l Hl; apply lookup_insert_ne; congruence |].
    assert (forall l, parent <$> (<[self := set__root me value]> (objects w)) !! l
                      = parent <$> objects w !! l) as Hpar.
    { intros l. destruct (decide (l = self)) as [-> | Hl].
      - rewrite lookup_insert_eq, Hself. reflexivity.
      - rewrite lookup_insert_ne by congruence. reflexivity. }
    intros fuel l. unfold root. cbn [objects].
    destruct (decide (l = self)) as [-> | Hl].
    + rewrite lookup_insert_eq, Hself. cbn [is_SubLayer set__root parent].
      destruct (is_SubLayer me); [| reflexivity].
      destruct (parent me); [| reflexivity]. apply root_walk_ext. exact Hpar.
    + rewrite lookup_insert_ne by congruence.
      destruct (objects w !! l) as [o |]; [| reflexivity].
      destruct (is_SubLayer o); [| reflexivity].
      destruct (parent o); [| reflexivity]. apply root_walk_ext. exact Hpar.
Qed.

End Construction.

Section CostConstruction.
Context {R : Type} `{Scalar R} {P : Type}.
Implicit Types (w : world R P).

Lemma lookup_cost_known (name : string) :
  name ∈ ["MSE"; "SVM"; "Cross Entropy"; "Log Likelihood"]%string ->
  exists f, lookup_cost (R := R) name = Some f.
Proof.
  intros Hin. repeat (apply elem_of_cons in Hin as [-> | Hin]; [eexists; reflexivity |]).
  apply elem_of_nil in Hin. contradiction.
Qed.

Lemma lookup_cost_unknown (name : string) :
  name ∉ ["MSE"; "SVM"; "Cross Entropy"; "Log Likelihood"]%string ->
  lookup_cost (R := R) name = None.
Proof.
  intros Hnot. unfold lookup_cost, available_cost_functions. cbn [List.find fst].
  repeat match goal with
         | |- context [String.eqb ?a name] =>
             destruct (String.eqb_spec a name) as [<- | _];
             [exfalso; apply Hnot; set_solver |]
         end.
  reflexivity.
Qed.

(** X11: a CostLayer is constructed exactly for the four names of its
    table of cost functions, and then it carries the name as its [name]
    and as its selected loss. For any other name the construction raises
    LayerError, but only after the sub-layer part of the construction has
    run: the parent's child link already refers to the object that was
    being built, which has no cost function. *)
Theorem X11_cost_layer_accepts_four_names w (q : nat) (po : layer R P) (name : string)
    (p : P) :
  objects w !! q = Some po ->
  (name ∈ ["MSE"; "SVM"; "Cross Entropy"; "Log Likelihood"]%string ->
   exists w' l f,
     CostLayer_init (Some q) name p w = (w', Ok l) /\
     lookup_cost name = Some f /\
     objects w' !! l
     = Some (mkLayer "CostLayer" true (Some q) None None
               (Some (mkCostFields name f)) p (pure_method CostLayer_derivative)) /\
     (Chain.name <$> objects w' !! l) = Some name /\
     objects w' !! q = Some (set_child po (Some l))) /\
  (name ∉ ["MSE"; "SVM"; "Cross Entropy"; "Log Likelihood"]%string ->
   exists w' l,
     CostLayer_init (Some q) name p w = (w', Raise LayerError) /\
     objects w !! l = None /\
     objects w' !! q = Some (set_child po (Some l)) /\
     objects w' !! l
     = Some (mkLayer "CostLayer" true (Some q) None None None p
               (pure_method CostLayer_derivative))).
Proof.
  intros Hq.
  set (l := fresh (dom (objects w))).
  assert (objects w !! l = None) as Hl by apply fresh_not_allocated.
  assert (q <> l) as Hne by (intros ->; rewrite Hl in Hq; discriminate).
  split.
  - intros Hin. destruct (lookup_cost_known name Hin) as [f Hf].
    unfold CostLayer_init, ebind.
    rewrite (SubLayer_init_objects w "CostLayer" q po p _ Hq). fold l.
    rewrite Hf. unfold get_object. cbn [objects].
    rewrite lookup_insert_ne by congruence. rewrite lookup_insert_eq.
    eexists _, l, f. split; [reflexivity |]. split; [reflexivity |].
    cbn [objects batch_range].
    split; [rewrite lookup_insert_eq; reflexivity |].
    split; [rewrite lookup_insert_eq; reflexivity |].
    rewrite lookup_insert_ne by congruence. apply lookup_insert_eq.
  - intros Hnot. unfold CostLayer_init, ebind.
    rewrite (SubLayer_init_objects w "CostLayer" q po p _ Hq). fold l.
    rewrite (lookup_cost_unknown name Hnot).
    eexists _, l. split; [reflexivity |]. split; [exact Hl |]. cbn [objects].
    split; [apply lookup_insert_eq |].
    rewrite lookup_insert_ne by congruence. apply lookup_insert_eq.
Qed.

End CostConstruction.

Section LastSubLayer.
Context {R : Type} `{Scalar R} {P : Type}.
Implicit Types (w : world R P) (objs : gmap nat (layer R P)).

Lemma child_walk_enough objs (c l n fuel : nat) :
  descends_to objs c l n -> n < fuel -> child_walk fuel objs c = Some (Ok l).
Proof.
  intros Hd. revert fuel. induction Hd as [c o Hc Hnone | c c' l n o Hc Hc' Hd IH];
    intros [| fuel] Hf; try lia; cbn [child_walk]; rewrite Hc.
  - rewrite Hnone. reflexivity.
  - rewrite Hc'. apply IH. lia.
Qed.

Lemma descends_to_end objs (c l n : nat) :
  descends_to objs c l n -> exists o, objs !! l = Some o /\ child o = None.
Proof.
  induction 1 as [c o Hc Hnone | c c' l n o Hc Hc' Hd IH]; [eauto | exact IH].
Qed.

Lemma descends_to_extend objs (c l n l' : nat) (lo new : layer R P) :
  descends_to objs c l n ->
  objs !! l = Some lo -> objs !! l' = None -> child new = None ->
  descends_to (<[l := set_child lo (Some l')]> (<[l' := new]> objs)) c l' (S n).
Proof.
  intros Hd Hl Hl' Hnew.
  assert (l <> l') as Hne by (intros ->; rewrite Hl' in Hl; discriminate).
  induction Hd as [c o Hc Hnone | c c' l n o Hc Hc' Hd IH].
  - apply (descends_down _ c l' l' 0 (set_child lo (Some l')));
      [apply lookup_insert_eq | reflexivity |].
    apply (descends_here _ l' new); [| exact Hnew].
    rewrite lookup_insert_ne by congruence. apply lookup_insert_eq.
  - destruct (descends_to_end _ _ _ _ Hd) as (oe & Hoe & Hend).
    assert (c <> l) as Hcl.
    { intros ->. rewrite Hc in Hoe. injection Hoe as ->. congruence. }
    assert (c <> l') as Hcl'.
    { intros ->. rewrite Hl' in Hc. discriminate. }
    apply (descends_down _ c c' l' (S n) o); [| exact Hc' | apply IH; assumption].
    rewrite !lookup_insert_ne by congruence. exact Hc.
Qed.

(** X12: the [last_sub_layer] property of a layer with a child is the end
    of its chain of children, and a sub-layer constructed below that end
    becomes the new [last_sub_layer]. *)
Theorem X12_appended_sub_layer_becomes_last w (self c l n : nat) (me : layer R P)
    (cls : string) (p : P)
    (d : P -> value R -> option (value R) -> P * result (value R)) :
  objects w !! self = Some me ->
  child me = Some c ->
  descends_to (objects w) c l n ->
  (forall fuel, n < fuel -> last_sub_layer fuel w self = Some (Ok (Some l))) /\
  exists w' l',
    SubLayer_init cls (Some l) p d w = (w', Ok l') /\
    objects w !! l' = None /\
    forall fuel, S n < fuel -> last_sub_layer fuel w' self = Some (Ok (Some l')).
Proof.
  intros Hself Hchild Hd. split.
  - intros fuel Hf. unfold last_sub_layer. rewrite Hself, Hchild.
    rewrite (child_walk_enough _ c l n fuel Hd Hf). reflexivity.
  - destruct (descends_to_end _ _ _ _ Hd) as (lo & Hlo & Hend).
    set (l' := fresh (dom (objects w))).
    assert (objects w !! l' = None) as Hl' by apply fresh_not_allocated.
    eexists _, l'. split; [apply SubLayer_init_objects; exact Hlo |].
    split; [exact Hl' |].
    intros fuel Hf. unfold last_sub_layer. cbn [objects]. fold l'.
    assert (self <> l) as Hsl.
    { intros ->. rewrite Hself in Hlo. injection Hlo as ->. congruence. }
    assert (self <> l') as Hsl'.
    { intros ->. rewrite Hl' in Hself. discriminate. }
    rewrite !lookup_insert_ne by congruence. rewrite Hself, Hchild.
    rewrite (child_walk_enough _ c l' (S n) fuel); [reflexivity | | exact Hf].
    apply descends_to_extend; [exact Hd | exact Hlo | exact Hl' | reflexivity].
Qed.

End LastSubLayer.

Import ChainExamples.

Lemma X7_back_propagation_keeps_the_chain_witness :
  exists o',
    objects (fst (bp 1 y_act w_next delta_next rooted_chain)) !! 1 = Some o' /\
    parent o' = Some 0 /\ child o' = Some 2 /\ _root o' = Some 0.
Proof.
  assert (objects rooted_chain !! 1 = Some (dropout_object (Some 2) (Some 0))) as Hme
    by (vm_compute; reflexivity).
  pose proof (X7_back_propagation_keeps_the_chain rooted_chain 1 y_act w_next delta_next
                y_hat _ (or_introl eq_refl) 1) as Hkeep.
  rewrite Hme in Hkeep.
  destruct Hkeep as (o' & Ho' & _ & _ & Hpar & Hchild & Hroot & _).
  exists o'. split; [exact Ho' |]. split; [exact Hpar |]. split; [exact Hchild | exact Hroot].
Defined.

Lemma X8_layer_above_a_sub_layer_passes_delta_witness :
  (do! d := bp 1 y_act w_next delta_next in bp 0 y_act w_next d) rooted_chain
  = bp 1 y_act w_next delta_next rooted_chain.
Proof.
  apply (X8_layer_above_a_sub_layer_passes_delta rooted_chain 0 1 sigmoid_object
           (dropout_object (Some 2) (Some 0))).
  - vm_compute. reflexivity.
  - reflexivity.
  - reflexivity.
  - vm_compute. reflexivity.
  - reflexivity.
Defined.

Lemma X9_new_sub_layer_is_linked_below_its_parent_witness :
  exists w' l,
    SubLayer_init "Normalize" (Some 1) tt (pure_method SubLayer_derivative) short_chain
    = (w', Ok l) /\
    root 2 w' l = Some (Ok 0).
Proof.
  assert (objects short_chain !! 1 = Some (dropout_object None None)) as H1
    by (vm_compute; reflexivity).
  assert (objects short_chain !! 0 = Some sigmoid_object) as H0
    by (vm_compute; reflexivity).
  destruct (X9_new_sub_layer_is_linked_below_its_parent short_chain "Normalize" 1
              (dropout_object None None) tt (pure_method SubLayer_derivative) 0 1 H1)
    as (w' & l & Hinit & _ & _ & _ & _ & Hroot).
  - apply (walks_up _ 1 0 0 0 (dropout_object None None)); [exact H1 | reflexivity |].
    apply (walks_here _ 0 sigmoid_object); [exact H0 | reflexivity].
  - exists w', l. split; [exact Hinit |]. apply Hroot. lia.
Defined.

Lemma X10_root_setter_leaves_the_root_property_witness :
  exists w',
    root_setter 1 (Some 2) short_chain = (w', Ok tt) /\
    root 2 w' 1 = root 2 short_chain 1 /\
    root_setter 0 (Some 2) short_chain = (short_chain, Raise BuildLayerError).
Proof.
  assert (objects short_chain !! 1 = Some (dropout_object None None)) as H1
    by (vm_compute; reflexivity).
  assert (objects short_chain !! 0 = Some sigmoid_object) as H0
    by (vm_compute; reflexivity).
  destruct (X10_root_setter_leaves_the_root_property short_chain 1 _ (Some 2) H1)
    as [_ Hsub].
  destruct (Hsub eq_refl) as (w' & Hset & _ & _ & Hroot).
  destruct (X10_root_setter_leaves_the_root_property short_chain 0 _ (Some 2) H0)
    as [Hnot _].
  exists w'. split; [exact Hset |]. split; [apply Hroot | apply Hnot; reflexivity].
Defined.

Lemma X11_cost_layer_accepts_four_names_witness :
  (exists w' l, CostLayer_init (Some 1) "MSE" tt short_chain = (w', Ok l)) /\
  (exists w', CostLayer_init (Some 1) "Huber" tt short_chain = (w', Raise LayerError)).
Proof.
  assert (objects short_chain !! 1 = Some (dropout_object None None)) as H1
    by (vm_compute; reflexivity).
  split.
  - destruct (proj1 (X11_cost_layer_accepts_four_names short_chain 1 _ "MSE" tt H1))
      as (w' & l & f & Hinit & _).
    + apply elem_of_cons. left. reflexivity.
    + exists w', l. exact Hinit.
  - destruct (proj2 (X11_cost_layer_accepts_four_names short_chain 1 _ "Huber" tt H1))
      as (w' & l & Hinit & _).
    + intros Hin.
      repeat (apply elem_of_cons in Hin as [Heq | Hin]; [discriminate Heq |]).
      apply elem_of_nil in Hin. exact Hin.
    + exists w'. exact Hinit.
Defined.

Lemma X12_appended_sub_layer_becomes_last_witness :
  last_sub_layer 2 rooted_chain 0 = Some (Ok (Some 2)) /\
  exists w' l',
    SubLayer_init "Dropout" (Some 2) tt (pure_method SubLayer_derivative) rooted_chain
    = (w', Ok l') /\
    last_sub_layer 3 w' 0 = Some (Ok (Some l')).
Proof.
  assert (objects rooted_chain !! 0 = Some sigmoid_object) as H0
    by (vm_compute; reflexivity).
  assert (objects rooted_chain !! 1 = Some (dropout_object (Some 2) (Some 0))) as H1
    by (vm_compute; reflexivity).
  assert (objects rooted_chain !! 2 = Some (cost_object (Some 0))) as H2
    by (vm_compute; reflexivity).
  destruct (X12_appended_sub_layer_becomes_last rooted_chain 0 1 2 1 sigmoid_object
              "Dropout" tt (pure_method SubLayer_derivative) H0 eq_refl)
    as (Hlast & w' & l' & Hinit & _ & Hnew).
  - apply (descends_down _ 1 2 2 0 (dropout_object (Some 2) (Some 0)));
      [exact H1 | reflexivity |].
    apply (descends_here _ 2 (cost_object (Some 0))); [exact H2 | reflexivity].
  - split; [apply Hlast; lia |].
    exists w', l'. split; [exact Hinit | apply Hnew; lia].
Defined.

End ChainMoreFacts.

(** * Further properties of the cost functions and the forward passes *)

Module CostMore.
Import NdArray Values Cost CostFacts.
Local Open Scope nat_scope.

Section NegativeLogLikelihood.
Context {R : Type} `{Scalar R}.

(** X13: on a gradient call that finds the cached batch range empty, or
    of the size of the batch, the negative log-likelihood of a target and
    a prediction of the same shape returns the prediction with 1
    subtracted at each row's true class (the first maximum of the row of
    the target), raises ValueError when a row of the target is empty, and
    leaves the batch range of this batch in the cache. *)
Theorem X13_log_likelihood_gradient_with_fitting_cache (br : option (list nat))
    (y y_pred : matrix R) :
  br = None \/ br = Some (seq 0 (length y_pred)) ->
  Forall2 (fun a b => length a = length b) y y_pred ->
  _log_likelihood br (VMatrix y) (VMatrix y_pred)
  = (Some (seq 0 (length y_pred)),
     let! am := mapM argmax y in
     Ok (VMatrix (zip_with subtract_at am y_pred))).
Proof.
  intros Hbr Hshape. rewrite (log_likelihood_fitting_cache br y y_pred Hbr Hshape).
  unfold true_class_gradient. destruct (mapM argmax y); reflexivity.
Qed.

(** X14: the cached batch range outlives the batch. After a gradient call
    on a batch of one size, started with an empty cache, a gradient call
    on a batch of another size raises IndexError and keeps the cache, when
    neither size is 1. *)
Theorem X14_log_likelihood_second_batch_size_raises (y1 p1 y2 p2 : matrix R)
    (am2 : list nat) :
  Forall2 (fun a b => length a = length b) y1 p1 ->
  mapM argmax y2 = Ok am2 ->
  length p1 <> length y2 -> length p1 <> 1 -> length y2 <> 1 ->
  _log_likelihood (fst (_log_likelihood None (VMatrix y1) (VMatrix p1)))
                  (VMatrix y2) (VMatrix p2)
  = (Some (seq 0 (length p1)), Raise IndexError).
Proof.
  intros Hshape Ham Hne H1 H2.
  rewrite (log_likelihood_fitting_cache None y1 p1 (or_introl eq_refl) Hshape).
  cbn [fst].
  apply (log_likelihood_stale_cache_raises _ y2 p2 am2 Ham); rewrite ?length_seq; assumption.
Qed.

(** X15: the gradient call works on a copy. Whatever it returns or
    raises, every array that exists before the call holds the same
    contents after it, the prediction included, and an array it returns is
    a new one. *)
Theorem X15_log_likelihood_never_mutates_its_arguments (st : cost_state R)
    (y y_pred : nat) :
  (forall l v, arrays st !! l = Some v ->
               arrays (fst (_log_likelihood_ref st y y_pred)) !! l = Some v) /\
  (forall l, snd (_log_likelihood_ref st y y_pred) = Ok l -> arrays st !! l = None).
Proof.
  split.
  - intros l v. apply log_likelihood_ref_frame.
  - intros l. unfold _log_likelihood_ref.
    destruct (arrays st !! y) as [vy |]; [| discriminate].
    destruct (arrays st !! y_pred) as [vp |]; [| discriminate].
    destruct (batch_range_of _ vp) as [b | e]; [| discriminate].
    destruct (argmax_axis1 vy) as [am | e]; [| discriminate].
    destruct (v_copy vp) as [c | e]; [| discriminate].
    destruct (isub_true_class b am c) as [c' | e]; [| discriminate].
    cbn [snd]. intros [= <-]. apply not_elem_of_dom. apply is_fresh.
Qed.

End NegativeLogLikelihood.

Import CostExamples.

Lemma X13_log_likelihood_gradient_with_fitting_cache_witness :
  _log_likelihood None (VMatrix y_two) (VMatrix y_pred_two)
  = (Some [0; 1], Ok (VMatrix (zip_with subtract_at [0; 1] y_pred_two))).
Proof.
  rewrite (X13_log_likelihood_gradient_with_fitting_cache None y_two y_pred_two).
  - reflexivity.
  - left. reflexivity.
  - repeat constructor.
Defined.

Lemma X14_log_likelihood_second_batch_size_raises_witness :
  _log_likelihood (fst (_log_likelihood None (VMatrix y_two) (VMatrix y_pred_two)))
                  (VMatrix (y_two ++ y_one)) (VMatrix (y_pred_two ++ y_pred_one))
  = (Some [0; 1], Raise IndexError).
Proof.
  apply (X14_log_likelihood_second_batch_size_raises y_two y_pred_two
           (y_two ++ y_one) (y_pred_two ++ y_pred_one) [0; 1; 0]).
  - repeat constructor.
  - reflexivity.
  - cbn. lia.
  - cbn. lia.
  - cbn. lia.
Defined.

Lemma X15_log_likelihood_never_mutates_its_arguments_witness :
  arrays (fst (_log_likelihood_ref nll_start 2 3)) !! 3 = Some (VMatrix y_pred_two).
Proof.
  apply (proj1 (X15_log_likelihood_never_mutates_its_arguments nll_start 2 3)).
  reflexivity.
Defined.

End CostMore.

(** * Further properties of the forward passes *)

Module ForwardMore.
Import NdArray Values Chain Norm Forward.
Local Open Scope nat_scope.

Section ReLU.
Context {R : Type} `{ScalarLaws R}.

Lemma v_map_map (f g : R -> R) (x : value R) :
  v_map f (v_map g x) = v_map (fun a => f (g a)) x.
Proof.
  destruct x as [r | v | m]; cbn [v_map]; [reflexivity | |].
  - rewrite map_map. reflexivity.
  - rewrite map_map. f_equal. apply map_ext. intros row. apply map_map.
Qed.

Lemma v_map_ext (f g : R -> R) (x : value R) :
  (forall a, f a = g a) -> v_map f x = v_map g x.
Proof.
  intros Hfg. destruct x as [r | v | m]; cbn [v_map]; f_equal.
  - apply Hfg.
  - apply map_ext. exact Hfg.
  - apply map_ext. intros row. apply map_ext. exact Hfg.
Qed.

(** X16: the derivative that ReLU computes from its own output is the
    indicator of a positive input: it is 1 exactly where the input was
    positive, although the layer only sees [max(0, x)]; and no element of
    the output is negative. *)
Theorem X16_relu_derivative_of_output_marks_positive_inputs (x : value R) :
  ReLU_derivative (ReLU_activate x) None = Ok (v_gt0 x) /\
  v_map (fun a => s_of_bool (s_ltb a s_zero)) (ReLU_activate x)
  = v_map (fun _ => s_zero) x.
Proof.
  unfold ReLU_derivative, ReLU_activate, v_gt0. rewrite !v_map_map. split.
  - f_equal. apply v_map_ext. intros a. unfold s_max.
    destruct (s_ltb s_zero a) eqn:Ha; [rewrite Ha; reflexivity |].
    rewrite s_ltb_irrefl. reflexivity.
  - apply v_map_ext. intros a. unfold s_max.
    destruct (s_ltb s_zero a) eqn:Ha; [| rewrite s_ltb_irrefl; reflexivity].
    destruct (s_ltb a s_zero) eqn:Hb; [| reflexivity].
    pose proof (s_ltb_trans _ _ _ Ha Hb) as Hcontra.
    rewrite s_ltb_irrefl in Hcontra. discriminate.
Qed.

End ReLU.

Lemma X16_relu_derivative_of_output_marks_positive_inputs_witness :
  ReLU_derivative (ReLU_activate (VVector [qc (-1) 1; qc 2 1])) None
  = Ok (v_gt0 (VVector [qc (-1) 1; qc 2 1])).
Proof.
  apply (proj1 (X16_relu_derivative_of_output_marks_positive_inputs
                  (VVector [qc (-1) 1; qc 2 1]))).
Defined.

Section NormalizeInference.
Context {R : Type} `{Scalar R} `{Sqrt R}.
Implicit Types (st : Normalize R) (x : matrix R).

Lemma init_running_sets st x :
  is_Some (running_mean (init_running x st)) /\
  is_Some (running_var (init_running x st)).
Proof.
  unfold init_running.
  destruct (running_mean st) eqn:Hm, (running_var st) eqn:Hv; cbn;
    rewrite ?Hm, ?Hv; split; eauto.
Qed.

Lemma init_running_idempotent st x x' :
  init_running x' (init_running x st) = init_running x st.
Proof.
  destruct (init_running_sets st x) as [[rm Hm] [rv Hv]].
  apply (NormFacts.init_running_initialised _ x' rm rv Hm Hv).
Qed.

Lemma init_running_keeps_parameters st x :
  _eps (init_running x st) = _eps st /\
  gamma (init_running x st) = gamma st /\
  beta (init_running x st) = beta st.
Proof.
  unfold init_running. destruct (running_mean st), (running_var st); repeat split.
Qed.

(** X17: inference is repeatable. Once a call in inference mode has
    returned or raised, further calls in inference mode change no
    attribute of the sub-layer, whatever their input, and a call on the
    same input gives the same output or the same error again. *)
Theorem X17_inference_calls_are_repeatable st x x' :
  fst (_activate x' true (fst (_activate x true st))) = fst (_activate x true st) /\
  _activate x true (fst (_activate x true st))
  = (fst (_activate x true st), snd (_activate x true st)).
Proof.
  rewrite !NormFacts.activate_predict. cbn [fst snd].
  rewrite !init_running_idempotent.
  destruct (init_running_keeps_parameters st x) as (Heps & Hgamma & Hbeta).
  split; [reflexivity |].
  rewrite Heps. f_equal.
  destruct (normalized _ x _ _) as [xn | e]; cbn [rbind]; [| reflexivity].
  unfold scaled. rewrite Hgamma, Hbeta. reflexivity.
Qed.

End NormalizeInference.

Section DiagonalProducts.
Context {R : Type} `{ScalarLaws R} `{!ScalarMulLaws R}.

(** A matrix given by its entries. *)
Lemma lookup_map_seq {A : Type} (f : nat -> A) (s n c : nat) :
  c < n -> map f (seq s n) !! c = Some (f (s + c)).
Proof.
  intros Hc. rewrite lookup_map, lookup_seq_lt by exact Hc. reflexivity.
Qed.

Lemma mat_T_entries (n : nat) (g : nat -> nat -> R) :
  mat_T (map (fun k => map (g k) (seq 0 n)) (seq 0 n))
  = map (fun c => map (fun k => g k c) (seq 0 n)) (seq 0 n).
Proof.
  unfold mat_T.
  assert (length (default [] (head (map (fun k => map (g k) (seq 0 n)) (seq 0 n)))) = n)
    as ->.
  { destruct n as [| n]; [reflexivity |].
    rewrite <- cons_seq. rewrite map_cons. cbn [head default]. unfold id.
    rewrite length_map. cbn [length]. rewrite length_seq. reflexivity. }
  apply map_ext_in. intros c Hc. apply in_seq in Hc.
  rewrite map_map. apply map_ext. intros k.
  rewrite lookup_map_seq by lia. reflexivity.
Qed.

Lemma imap_map_seq {A B : Type} (f : nat -> A -> B) (m : nat -> A) (n : nat) :
  imap f (map m (seq 0 n)) = map (fun k => f k (m k)) (seq 0 n).
Proof.
  apply list_eq. intros i. rewrite list_lookup_imap, !lookup_map.
  destruct (decide (i < n)) as [Hi | Hi].
  - rewrite lookup_seq_lt by exact Hi. reflexivity.
  - rewrite lookup_seq_ge by lia. reflexivity.
Qed.

Lemma imap_as_map_seq {A B : Type} (f : nat -> A -> B) (d : A) (l : list A) :
  imap f l = map (fun c => f c (default d (l !! c))) (seq 0 (length l)).
Proof.
  apply list_eq. intros i. rewrite list_lookup_imap, lookup_map.
  destruct (decide (i < length l)) as [Hi | Hi].
  - rewrite lookup_seq_lt by exact Hi.
    destruct (lookup_lt_is_Some_2 l i Hi) as [a Ha]. rewrite Ha. cbn. rewrite Ha.
    reflexivity.
  - rewrite lookup_seq_ge by lia. rewrite lookup_ge_None_2 by lia. reflexivity.
Qed.

(** The sum of the products of a row with a column that is zero except at
    position [c]. *)
Lemma foldl_unit_column (row : list R) (v acc : R) (s c : nat) :
  foldl s_add acc
        (zip_with s_mul row
                  (map (fun k => if k =? c then v else s_zero) (seq s (length row))))
  = match row !! (c - s) with
    | Some x => if s <=? c then s_add acc (s_mul x v) else acc
    | None => acc
    end.
Proof.
  revert acc s. induction row as [| x row IH]; intros acc s; [reflexivity |].
  cbn [length seq map zip_with foldl]. rewrite IH.
  destruct (Nat.eqb_spec s c) as [-> | Hsc].
  - rewrite Nat.sub_diag. cbn [lookup list_lookup].
    rewrite Nat.leb_refl.
    replace (c - S c) with 0 by lia.
    destruct (Nat.leb_spec (S c) c); [lia |].
    destruct (row !! 0); reflexivity.
  - rewrite s_mul_0_r, s_add_0_r.
    destruct (Nat.leb_spec s c) as [Hle | Hgt].
    + replace (c - s) with (S (c - S s)) by lia. cbn [lookup list_lookup].
      destruct (Nat.leb_spec (S s) c); [| lia]. reflexivity.
    + destruct (Nat.leb_spec (S s) c); [lia |].
      destruct (row !! (c - S s)); destruct ((x :: row) !! (c - s)); reflexivity.
Qed.

Lemma asum_unit_column (row : list R) (v x : R) (c : nat) :
  row !! c = Some x ->
  asum (zip_with s_mul row
                 (map (fun k => if k =? c then v else s_zero) (seq 0 (length row))))
  = s_mul x v.
Proof.
  intros Hc. unfold asum. rewrite foldl_unit_column, Nat.sub_0_r, Hc.
  cbn [Nat.leb]. apply s_add_0_l.
Qed.

(** The product of a matrix with a diagonal matrix scales its columns. *)
Lemma mat_dot_diagonal (r n : nat) (x : matrix R) (dv : nat -> R) :
  rect2 r n x ->
  mat_dot x (map (fun k => map (fun j => if k =? j then dv j else s_zero) (seq 0 n))
                 (seq 0 n))
  = Ok (map (fun row => imap (fun j v => s_mul v (dv j)) row) x).
Proof.
  intros [Hr Hrows]. unfold mat_dot. rewrite length_map, length_seq.
  assert (forallb (fun row : list R => length row =? n) x = true) as ->.
  { apply forallb_forall. intros row Hin. apply Nat.eqb_eq.
    apply (proj1 (List.Forall_forall _ _) Hrows row Hin). }
  f_equal. rewrite mat_T_entries.
  apply map_ext_in. intros row Hin.
  pose proof (proj1 (List.Forall_forall _ _) Hrows row Hin) as Hlen. cbn beta in Hlen.
  rewrite (imap_as_map_seq _ s_zero), Hlen, map_map.
  apply map_ext_in. intros c Hc. apply in_seq in Hc.
  destruct (lookup_lt_is_Some_2 row c ltac:(lia)) as [xv Hxv].
  replace (default s_zero (row !! c)) with xv by (rewrite Hxv; reflexivity).
  rewrite <- (asum_unit_column row (dv c) xv c Hxv), Hlen. reflexivity.
Qed.

Lemma rect2_shape1 (r n : nat) (x : matrix R) :
  rect2 r n x -> x = [] \/ shape1 x = n.
Proof.
  intros [_ Hrows]. destruct x as [| row x]; [left; reflexivity | right].
  unfold shape1. cbn. exact (Forall_inv Hrows).
Qed.

Lemma rect2_nil (r n m : nat) : rect2 r n ([] : matrix R) -> rect2 r m ([] : matrix R).
Proof. intros [Hr _]. split; [exact Hr | constructor]. Qed.

(** X18: in inference mode Dropout returns its input: the product of a
    rectangular two-axis input with the identity matrix is the input. *)
Theorem X18_dropout_inference_is_the_identity (prob prob_inv : R) (u : nat -> R)
    (r n : nat) (x : matrix R) :
  rect2 r n x ->
  Dropout_activate prob prob_inv u x true = Ok x.
Proof.
  intros Hx. unfold Dropout_activate. cbn [negb].
  assert (rect2 r (shape1 x) x) as Hx'.
  { destruct (rect2_shape1 r n x Hx) as [-> | ->]; [eapply rect2_nil |]; exact Hx. }
  unfold eye.
  rewrite (map_ext _ (fun k => map (fun j => if k =? j then s_one else s_zero)
                                   (seq 0 (shape1 x)))).
  2:{ intros k. apply map_ext. intros j. destruct (k =? j); reflexivity. }
  rewrite (mat_dot_diagonal r (shape1 x) x (fun _ => s_one) Hx'). f_equal.
  rewrite <- (map_id x) at 2. apply map_ext. intros row.
  apply list_eq. intros i. rewrite list_lookup_imap.
  destruct (row !! i) as [v |]; cbn; [rewrite s_mul_1_r |]; reflexivity.
Qed.

(** X19: in training mode Dropout keeps unit [j] when sample [j] of the
    draw is at least [prob] and scales it by [prob_inv]; a unit whose
    sample is below [prob] is set to zero, in every row of the batch. *)
Theorem X19_dropout_training_scales_kept_units (prob prob_inv : R) (u : nat -> R)
    (r n : nat) (x : matrix R) :
  rect2 r n x ->
  Dropout_activate prob prob_inv u x false
  = Ok (map (fun row =>
               imap (fun j v => if s_ltb (u j) prob then s_zero else s_mul v prob_inv) row)
            x).
Proof.
  intros Hx. unfold Dropout_activate. cbn [negb].
  assert (rect2 r (shape1 x) x) as Hx'.
  { destruct (rect2_shape1 r n x Hx) as [-> | ->]; [eapply rect2_nil |]; exact Hx. }
  unfold scaled_diag.
  rewrite (imap_map_seq _ (fun j => negb (s_ltb (u j) prob))).
  rewrite (map_ext _ (fun k => map (fun j => if k =? j
                                             then if s_ltb (u j) prob then s_zero
                                                  else prob_inv
                                             else s_zero)
                                   (seq 0 (shape1 x)))).
  2:{ intros k. rewrite imap_map_seq. apply map_ext. intros j.
      destruct (k =? j); cbn [andb].
      - destruct (s_ltb (u j) prob); cbn [negb s_of_bool];
          [apply s_mul_0_l | apply s_mul_1_l].
      - cbn [s_of_bool]. apply s_mul_0_l. }
  rewrite (mat_dot_diagonal r (shape1 x) x
             (fun j => if s_ltb (u j) prob then s_zero else prob_inv) Hx').
  f_equal. apply map_ext. intros row.
  apply list_eq. intros i. rewrite !list_lookup_imap.
  destruct (row !! i) as [v |]; cbn; [| reflexivity].
  destruct (s_ltb (u i) prob); [rewrite s_mul_0_r |]; reflexivity.
Qed.

End DiagonalProducts.

#[export] Instance Qc_ScalarMulLaws : ScalarMulLaws Qc.
Proof.
  split; intros a; cbn [s_mul s_one s_zero Qc_Scalar]; ring.
Qed.

Import CostExamples.

Lemma X18_dropout_inference_is_the_identity_witness :
  Dropout_activate (qc 1 2) (qc 2 1) (fun _ => 0%Qc) y_pred_two true = Ok y_pred_two.
Proof.
  apply (X18_dropout_inference_is_the_identity (qc 1 2) (qc 2 1) (fun _ => 0%Qc) 2 2).
  split; [reflexivity | repeat constructor].
Defined.

Lemma X19_dropout_training_scales_kept_units_witness :
  Dropout_activate (qc 1 2) (qc 2 1) (fun j => if j =? 0 then 0%Qc else 1%Qc)
                   y_pred_two false
  = Ok (map (fun row =>
               imap (fun j v =>
                       if s_ltb (if j =? 0 then 0%Qc else 1%Qc) (qc 1 2) then s_zero
                       else s_mul v (qc 2 1)) row)
            y_pred_two).
Proof.
  apply (X19_dropout_training_scales_kept_units (qc 1 2) (qc 2 1)
           (fun j => if j =? 0 then 0%Qc else 1%Qc) 2 2).
  split; [reflexivity | repeat constructor].
Defined.

End ForwardMore.

(** * Element-wise evaluation on arrays of one shape *)

Module GradientMore.
Import NdArray Values Cost Chain.
Local Open Scope nat_scope.

Section Pointwise.
Context {R : Type} `{Scalar R}.

Lemma bcast_row_maps {E : Type} (f : R -> R -> R) (F G : E -> R) (row : list E) :
  bcast_row f (map F row) (map G row) = Ok (map (fun e => f (F e) (G e)) row).
Proof.
  unfold bcast_row. rewrite !length_map, Nat.eqb_refl. f_equal.
  induction row as [| e row IH]; [reflexivity |]. cbn. f_equal. exact IH.
Qed.

Lemma mapM_cons {A B : Type} (f : A -> result B) (a : A) (l : list A) :
  mapM f (a :: l) = let! b := f a in let! bs := mapM f l in Ok (b :: bs).
Proof. reflexivity. Qed.

Lemma bcast_mat_maps {E : Type} (f : R -> R -> R) (F G : E -> R) (z : list (list E)) :
  bcast_mat f (map (map F) z) (map (map G) z)
  = Ok (map (map (fun e => f (F e) (G e))) z).
Proof.
  unfold bcast_mat. rewrite !length_map, Nat.eqb_refl.
  induction z as [| row z IH]; [reflexivity |].
  rewrite !map_cons.
  change (zip (map F row :: map (map F) z) (map G row :: map (map G) z))
    with ((map F row, map G row) :: zip (map (map F) z) (map (map G) z)).
  rewrite mapM_cons. cbn [fst snd]. rewrite bcast_row_maps. cbn [rbind].
  rewrite IH. reflexivity.
Qed.

(** An element-wise operator on two arrays that are images of one array of
    the same shape. *)
Lemma v_binop_maps {E : Type} (f : R -> R -> R) (F G : E -> R) (z : list (list E)) :
  v_binop f (VMatrix (map (map F) z)) (VMatrix (map (map G) z))
  = Ok (VMatrix (map (map (fun e => f (F e) (G e))) z)).
Proof. cbn [v_binop]. rewrite bcast_mat_maps. reflexivity. Qed.

Lemma v_binop_scalar_maps {E : Type} (f : R -> R -> R) (c : R) (G : E -> R)
    (z : list (list E)) :
  v_binop f (VScalar c) (VMatrix (map (map G) z))
  = Ok (VMatrix (map (map (fun e => f c (G e))) z)).
Proof.
  cbn [v_binop]. do 2 f_equal. rewrite map_map. apply map_ext. intros row. apply map_map.
Qed.

Lemma v_neg_maps {E : Type} (F : E -> R) (z : list (list E)) :
  v_neg (VMatrix (map (map F) z)) = VMatrix (map (map (fun e => s_opp (F e))) z).
Proof.
  unfold v_neg. cbn [v_map]. f_equal. rewrite map_map. apply map_ext. intros row.
  apply map_map.
Qed.

(** Two arrays of one shape as the two projections of the array of their
    pairs. *)
Lemma maps_of_pairs (y p : matrix R) :
  Forall2 (fun a b => length a = length b) y p ->
  y = map (map fst) (zip_with zip y p) /\ p = map (map snd) (zip_with zip y p).
Proof.
  induction 1 as [| a b y p Hab Hshape [IHy IHp]]; [split; reflexivity |].
  cbn [zip_with map]. rewrite <- IHy, <- IHp.
  assert (a = map fst (zip a b) /\ b = map snd (zip a b)) as [Ha Hb].
  { clear -Hab. revert b Hab. induction a as [| u a IH]; intros [| v b] Hab;
      try discriminate; [split; reflexivity |].
    injection Hab as Hab. destruct (IH b Hab) as [Ea Eb].
    cbn. rewrite <- Ea, <- Eb. split; reflexivity. }
  rewrite <- Ha, <- Hb. split; reflexivity.
Qed.

Lemma map_pairs (G : R -> R -> R) (y p : matrix R) :
  map (map (fun e => G (fst e) (snd e))) (zip_with zip y p) = zip_with (zip_with G) y p.
Proof.
  revert p. induction y as [| a y IH]; intros [| b p]; try reflexivity.
  cbn [zip_with map]. f_equal; [| apply IH].
  clear. revert b. induction a as [| u a IH]; intros [| v b]; try reflexivity.
  cbn. f_equal. apply IH.
Qed.

Lemma map_map_ext_Forall {E : Type} (Q : E -> Prop) (F G : E -> R) (z : list (list E)) :
  Forall (Forall Q) z -> (forall e, Q e -> F e = G e) ->
  map (map F) z = map (map G) z.
Proof.
  intros Hz HFG. induction Hz as [| row z Hrow Hz IH]; [reflexivity |].
  cbn [map]. f_equal; [| exact IH].
  induction Hrow as [| e row He Hrow IHrow]; [reflexivity |].
  cbn [map]. f_equal; [apply HFG; exact He | exact IHrow].
Qed.

End Pointwise.

(** X20: with the cross-entropy loss behind a Sigmoid layer, the formula
    that [bp_first] uses as a shortcut, [y * (1 - y_pred) - (1 - y) * y_pred],
    is [y - y_pred] element by element on a target and a prediction of one
    shape, and it is what the general formula, minus the cross-entropy
    gradient times the Sigmoid derivative, gives wherever no prediction is
    0 or 1 (exact arithmetic). *)
Theorem X20_sigmoid_cross_entropy_shortcut_is_the_general_formula (y p : matrix Qc) :
  Forall2 (fun a b => length a = length b) y p ->
  sigmoid_cross_entropy_delta (VMatrix y) (VMatrix p)
  = Ok (VMatrix (zip_with (zip_with Qcminus) y p)) /\
  (Forall (Forall (fun v => v <> 0%Qc /\ v <> 1%Qc)) p ->
   (let! g := _cross_entropy (VMatrix y) (VMatrix p) in
    let! d := Sigmoid_derivative (VMatrix p) None in
    v_mul (v_neg g) d)
   = Ok (VMatrix (zip_with (zip_with Qcminus) y p))).
Proof.
  intros Hshape. destruct (maps_of_pairs y p Hshape) as [Hy Hp].
  assert (s_of_nat (R := Qc) 1 = 1%Qc) as Hone by apply Qc_of_nat_1.
  rewrite <- (map_pairs Qcminus y p).
  remember (zip_with zip y p) as z eqn:Hz. clear Hz Hshape.
  split.
  - rewrite Hy, Hp.
    unfold sigmoid_cross_entropy_delta, v_sub, v_mul, lit.
    rewrite !v_binop_scalar_maps. cbn [rbind].
    rewrite !v_binop_maps. cbn [rbind]. rewrite v_binop_maps. do 2 f_equal.
    apply (map_map_ext_Forall (fun _ => True)).
    + clear. induction z as [| row z IH]; constructor; [| exact IH].
      induction row; constructor; [exact I | assumption].
    + intros e _. cbn [s_sub s_mul Qc_Scalar]. rewrite Hone. ring.
  - intros Hp01. rewrite Hp in Hp01. rewrite Hy, Hp.
    unfold _cross_entropy, Sigmoid_derivative, v_sub, v_mul, v_div, v_add, lit.
    rewrite !v_neg_maps, !v_binop_scalar_maps, !v_binop_maps. cbn [rbind].
    rewrite !v_binop_maps. cbn [rbind]. rewrite !v_binop_maps. cbn [rbind].
    rewrite v_neg_maps, v_binop_maps. do 2 f_equal.
    apply (map_map_ext_Forall (fun e => snd e <> 0%Qc /\ snd e <> 1%Qc)).
    + apply (proj1 (List.Forall_map _ _ _)) in Hp01.
      eapply Forall_impl; [exact Hp01 |].
      intros row Hrow. cbn beta in Hrow.
      apply (proj1 (List.Forall_map _ _ _)) in Hrow. exact Hrow.
    + intros e [Hb0 Hb1].
      cbn [s_sub s_mul s_div s_add s_opp Qc_Scalar]. rewrite Hone.
      field. split; [| exact Hb0].
      intros Hz. apply Hb1. change ((1 - snd e)%Qc = 0%Qc) in Hz.
      transitivity (1 - (1 - snd e))%Qc; [ring | rewrite Hz; ring].
Qed.

Import CostExamples.

Lemma X20_sigmoid_cross_entropy_shortcut_is_the_general_formula_witness :
  sigmoid_cross_entropy_delta (VMatrix y_two) (VMatrix y_pred_two)
  = Ok (VMatrix (zip_with (zip_with Qcminus) y_two y_pred_two)).
Proof.
  apply (proj1 (X20_sigmoid_cross_entropy_shortcut_is_the_general_formula
                  y_two y_pred_two ltac:(repeat constructor))).
Defined.

End GradientMore.

(** * Shapes through the Normalize forward pass *)

Module NormMoreFacts.
Import NdArray Values Norm NormMore.
Local Open Scope nat_scope.

Section Shapes.
Context {R : Type} `{Scalar R} `{Sqrt R}.
Implicit Types (st : Normalize R) (x : matrix R) (v : value R).

Lemma bcast_row_same (f : R -> R -> R) (a b : list R) :
  length a = length b -> bcast_row f a b = Ok (zip_with f a b).
Proof. intros E. unfold bcast_row. rewrite E, Nat.eqb_refl. reflexivity. Qed.

Lemma mapM_rows (f : list R -> result (list R)) (g : list R -> list R) (n : nat)
    (a : matrix R) :
  (forall row, length row = n -> f row = Ok (g row)) ->
  Forall (fun row => length row = n) a ->
  mapM f a = Ok (map g a).
Proof.
  intros Hf Ha. induction Ha as [| row a Hrow Ha IH]; [reflexivity |].
  cbn [mapM map]. rewrite (Hf row Hrow). cbn [rbind]. rewrite IH. reflexivity.
Qed.

(** A two-axis array against a single row of the length of its rows. *)
Lemma bcast_mat_rows_row (f : R -> R -> R) (n : nat) (a : matrix R) (b : list R) :
  Forall (fun row => length row = n) a -> length b = n ->
  bcast_mat f a [b] = Ok (map (fun row => zip_with f row b) a).
Proof.
  intros Ha Hb. unfold bcast_mat.
  assert (mapM (fun ra => bcast_row f ra b) a = Ok (map (fun row => zip_with f row b) a))
    as Hrows.
  { apply (mapM_rows _ _ n); [| exact Ha].
    intros row Hrow. apply bcast_row_same. congruence. }
  destruct a as [| a0 [| a1 a]].
  - reflexivity.
  - cbn [length Nat.eqb zip zip_with mapM fst snd map].
    rewrite bcast_row_same by (pose proof (Forall_inv Ha); cbn in *; congruence).
    reflexivity.
  - cbn [length Nat.eqb]. exact Hrows.
Qed.

Lemma bcast_mat_row_rows (f : R -> R -> R) (n : nat) (a : list R) (b : matrix R) :
  length a = n -> Forall (fun row => length row = n) b ->
  bcast_mat f [a] b = Ok (map (fun row => zip_with f a row) b).
Proof.
  intros Ha Hb. unfold bcast_mat.
  assert (mapM (fun rb => bcast_row f a rb) b = Ok (map (fun row => zip_with f a row) b))
    as Hrows.
  { apply (mapM_rows _ _ n); [| exact Hb].
    intros row Hrow. apply bcast_row_same. congruence. }
  destruct b as [| b0 [| b1 b]].
  - reflexivity.
  - cbn [length Nat.eqb zip zip_with mapM fst snd map].
    rewrite bcast_row_same by (pose proof (Forall_inv Hb); cbn in *; congruence).
    reflexivity.
  - cbn [length Nat.eqb]. exact Hrows.
Qed.

Lemma rect2_map_rows (r n : nat) (a : matrix R) (g : list R -> list R) :
  rect2 r n a -> (forall row, length row = n -> length (g row) = n) ->
  rect2 r n (map g a).
Proof.
  intros [Hr Ha] Hg. split; [rewrite length_map; exact Hr |].
  apply Forall_map. eapply Forall_impl; [exact Ha |]. exact Hg.
Qed.

Lemma row_of_cases (n : nat) v :
  row_of n v -> exists l, length l = n /\ (v = VVector l \/ v = VMatrix [l]).
Proof.
  destruct v as [c | l | [| l [| l' m]]]; cbn; try contradiction; eauto.
Qed.

(** A two-axis array of [n] columns with a row of [n] elements on the
    right, or on the left: the result has the shape of the array. *)
Lemma binop_matrix_row (f : R -> R -> R) (r n : nat) (a : matrix R) v :
  rect2 r n a -> row_of n v ->
  exists out, v_binop f (VMatrix a) v = Ok (VMatrix out) /\ rect2 r n out.
Proof.
  intros Ha Hv. destruct (row_of_cases n v Hv) as (l & Hl & [-> | ->]);
    cbn [v_binop]; rewrite (bcast_mat_rows_row f n a l (proj2 Ha) Hl); cbn [rbind];
    (eexists; split; [reflexivity |]);
    apply rect2_map_rows; try exact Ha; intros row Hrow;
    rewrite length_zip_with; lia.
Qed.

Lemma binop_row_matrix (f : R -> R -> R) (r n : nat) v (b : matrix R) :
  row_of n v -> rect2 r n b -> 0 < r ->
  exists out, v_binop f v (VMatrix b) = Ok (VMatrix out) /\ rect2 r n out.
Proof.
  intros Hv Hb Hr. destruct (row_of_cases n v Hv) as (l & Hl & [-> | ->]);
    cbn [v_binop]; rewrite (bcast_mat_row_rows f n l b Hl (proj2 Hb)); cbn [rbind];
    (eexists; split; [reflexivity |]);
    apply rect2_map_rows; try exact Hb; intros row Hrow;
    rewrite length_zip_with; lia.
Qed.

Lemma binop_row_row (f : R -> R -> R) (n : nat) (u v : value R) :
  row_of n u -> row_of n v ->
  exists w, v_binop f u v = Ok w /\ row_of n w.
Proof.
  intros Hu Hv.
  destruct (row_of_cases n u Hu) as (a & Ha & [-> | ->]);
    destruct (row_of_cases n v Hv) as (b & Hb & [-> | ->]); cbn [v_binop].
  - rewrite bcast_row_same by congruence. cbn [rbind].
    eexists. split; [reflexivity |]. cbn. rewrite length_zip_with. lia.
  - rewrite (bcast_mat_row_rows f n a [b] Ha) by (constructor; [exact Hb | constructor]).
    cbn [rbind map]. eexists. split; [reflexivity |]. cbn. rewrite length_zip_with. lia.
  - rewrite (bcast_mat_rows_row f n [a] b) by
      first [ exact Hb | constructor; [exact Ha | constructor] ].
    cbn [rbind map]. eexists. split; [reflexivity |]. cbn. rewrite length_zip_with. lia.
  - rewrite (bcast_mat_rows_row f n [a] b) by
      first [ exact Hb | constructor; [exact Ha | constructor] ].
    cbn [rbind map]. eexists. split; [reflexivity |]. cbn. rewrite length_zip_with. lia.
Qed.

Lemma binop_scalar_row (f : R -> R -> R) (n : nat) (c : R) v :
  row_of n v -> exists w, v_binop f (VScalar c) v = Ok w /\ row_of n w.
Proof.
  intros Hv. destruct (row_of_cases n v Hv) as (l & Hl & [-> | ->]); cbn [v_binop];
    (eexists; split; [reflexivity |]); cbn; rewrite length_map; exact Hl.
Qed.

Lemma binop_row_scalar (f : R -> R -> R) (n : nat) (c : R) v :
  row_of n v -> exists w, v_binop f v (VScalar c) = Ok w /\ row_of n w.
Proof.
  intros Hv. destruct (row_of_cases n v Hv) as (l & Hl & [-> | ->]); cbn [v_binop];
    (eexists; split; [reflexivity |]); cbn; rewrite length_map; exact Hl.
Qed.

Lemma row_of_v_map (g : R -> R) (n : nat) v : row_of n v -> row_of n (v_map g v).
Proof.
  intros Hv. destruct (row_of_cases n v Hv) as (l & Hl & [-> | ->]); cbn;
    rewrite length_map; exact Hl.
Qed.

Lemma row_of_zeros (n : nat) : row_of n (zeros (R := R) n).
Proof. cbn. apply length_replicate. Qed.

Lemma length_mat_T (r n : nat) x : rect2 r n x -> 0 < r -> length (mat_T x) = n.
Proof.
  intros [Hr Hx] Hpos. unfold mat_T. rewrite length_map, length_seq.
  destruct x as [| row x]; [cbn in Hr; lia |]. cbn. exact (Forall_inv Hx).
Qed.

Lemma shape1_rect (r n : nat) x : rect2 r n x -> 0 < r -> shape1 x = n.
Proof.
  intros [Hr Hx] Hpos. unfold shape1.
  destruct x as [| row x]; [cbn in Hr; lia |]. cbn. exact (Forall_inv Hx).
Qed.

Lemma normalized_ok (eps : R) (r n : nat) x (m v : value R) :
  rect2 r n x -> row_of n m -> row_of n v ->
  exists out, normalized eps x (Some m) (Some v) = Ok (VMatrix out) /\ rect2 r n out.
Proof.
  intros Hx Hm Hv. unfold normalized, operand, v_sub, v_add, v_div. cbn [rbind].
  destruct (binop_matrix_row s_sub r n x m Hx Hm) as (a & Ea & Ha). rewrite Ea. cbn [rbind].
  destruct (binop_row_scalar s_add n eps v Hv) as (b & Eb & Hb). rewrite Eb. cbn [rbind].
  apply (binop_matrix_row s_div r n a _ Ha). apply row_of_v_map. exact Hb.
Qed.

Lemma scaled_ok st (r n : nat) (xn : matrix R) :
  row_of n (gamma st) -> row_of n (beta st) -> rect2 r n xn -> 0 < r ->
  exists out, scaled st (VMatrix xn) = Ok (VMatrix out) /\ rect2 r n out.
Proof.
  intros Hg Hb Hxn Hr. unfold scaled, v_mul, v_add.
  destruct (binop_row_matrix s_mul r n (gamma st) xn Hg Hxn Hr) as (g & Eg & Hgr).
  rewrite Eg. cbn [rbind]. apply (binop_matrix_row s_add r n g _ Hgr Hb).
Qed.

Lemma moving_average_ok (momentum : R) (n : nat) (running sample : value R) :
  row_of n running -> row_of n sample ->
  exists w, moving_average momentum (Some running) (Some sample) = Ok w /\ row_of n w.
Proof.
  intros Hrun Hsam. unfold moving_average, operand, v_mul, v_add. cbn [rbind].
  destruct (binop_scalar_row s_mul n momentum running Hrun) as (a & Ea & Ha).
  rewrite Ea. cbn [rbind].
  destruct (binop_scalar_row s_mul n (s_sub s_one momentum) sample Hsam) as (b & Eb & Hb).
  rewrite Eb. cbn [rbind]. apply (binop_row_row s_add n a b Ha Hb).
Qed.

Lemma init_running_well_shaped st x (r n : nat) :
  well_shaped n st -> rect2 r n x -> 0 < r ->
  exists rm rv,
    running_mean (init_running x st) = Some rm /\ row_of n rm /\
    running_var (init_running x st) = Some rv /\ row_of n rv /\
    gamma (init_running x st) = gamma st /\ beta (init_running x st) = beta st /\
    _eps (init_running x st) = _eps st /\ _momentum (init_running x st) = _momentum st.
Proof.
  intros (Hg & Hb & Hm & Hv) Hx Hr. unfold init_running.
  destruct (running_mean st) as [rm |] eqn:Em, (running_var st) as [rv |] eqn:Ev.
  - exists rm, rv. rewrite Em, Ev. repeat split; assumption.
  - exists (zeros (shape1 x)), (zeros (shape1 x)). cbn.
    rewrite (shape1_rect r n x Hx Hr), length_replicate. repeat split.
  - exists (zeros (shape1 x)), (zeros (shape1 x)). cbn.
    rewrite (shape1_rect r n x Hx Hr), length_replicate. repeat split.
  - exists (zeros (shape1 x)), (zeros (shape1 x)). cbn.
    rewrite (shape1_rect r n x Hx Hr), length_replicate. repeat split.
Qed.

(** X21: the forward pass does not fail on a batch of the right width. On
    a sub-layer of [n] units whose scale, shift and running estimates have
    [n] elements, a call on a batch of at least one row and [n] columns
    returns an output of the shape of the batch, in training and in
    inference mode, and leaves the sub-layer in such a state again, so
    that the same holds for every later call. *)
Theorem X21_forward_on_a_well_shaped_batch_never_raises st x (predict : bool)
    (r n : nat) :
  well_shaped n st -> rect2 r n x -> 0 < r ->
  exists st' out,
    _activate x predict st = (st', Ok (VMatrix out)) /\
    rect2 r n out /\ well_shaped n st'.
Proof.
  intros Hst Hx Hr. pose proof Hst as (Hg & Hb & _ & _).
  destruct (init_running_well_shaped st x r n Hst Hx Hr)
    as (rm & rv & Erm & Hrm & Erv & Hrv & Egamma & Ebeta & Eeps & Emom).
  destruct predict.
  - rewrite NormFacts.activate_predict, Erm, Erv.
    destruct (normalized_ok (_eps st) r n x rm rv Hx Hrm Hrv) as (xn & Exn & Hxn).
    rewrite Exn. cbn [rbind].
    destruct (scaled_ok st r n xn Hg Hb Hxn Hr) as (out & Eout & Hout).
    exists (init_running x st), out. split; [rewrite Eout; reflexivity |].
    split; [exact Hout |].
    unfold well_shaped. rewrite Egamma, Ebeta, Erm, Erv. repeat split; assumption.
  - unfold _activate, ebind, modify, read, elift, eret. cbn [negb fst snd id].
    cbn [set_sample sample_mean sample_var _eps _momentum running_mean running_var
           gamma beta set_caches set_running_mean set_running_var set_running].
    rewrite Eeps, Emom, Erm, Erv.
    assert (row_of n (mean_axis0 x)) as Hmean.
    { cbn. rewrite length_map. apply (length_mat_T r n x Hx Hr). }
    assert (row_of n (var_axis0 x)) as Hvar.
    { cbn. rewrite length_map. apply (length_mat_T r n x Hx Hr). }
    destruct (normalized_ok (_eps st) r n x _ _ Hx Hmean Hvar) as (xn & Exn & Hxn).
    rewrite Exn.
    assert (forall st2 : Normalize R,
              gamma st2 = gamma st -> beta st2 = beta st ->
              exists out, scaled st2 (VMatrix xn) = Ok (VMatrix out) /\ rect2 r n out)
      as Hscaled.
    { intros st2 E1 E2. apply scaled_ok; try assumption; congruence. }
    destruct (Hscaled (set_sample (init_running x st) (Some (mean_axis0 x))
                                  (Some (var_axis0 x))) Egamma Ebeta)
      as (out & Eout & Hout).
    rewrite Eout.
    destruct (moving_average_ok (_momentum st) n rm (mean_axis0 x) Hrm Hmean)
      as (rm' & Erm' & Hrm').
    rewrite Erm'.
    destruct (moving_average_ok (_momentum st) n rv (var_axis0 x) Hrv Hvar)
      as (rv' & Erv' & Hrv').
    rewrite Erv'.
    eexists _, out. split; [reflexivity |]. split; [exact Hout |].
    unfold well_shaped.
    cbn [gamma beta running_mean running_var set_sample set_caches set_running_mean
           set_running_var set_running].
    rewrite Egamma, Ebeta. repeat split; assumption.
Qed.

End Shapes.

Import RealScalar NormExamples.

Lemma X21_forward_on_a_well_shaped_batch_never_raises_witness :
  exists st' out,
    _activate x_batch false norm_fresh = (st', Ok (VMatrix out)) /\ rect2 1 2 out.
Proof.
  destruct (X21_forward_on_a_well_shaped_batch_never_raises norm_fresh x_batch false 1 2)
    as (st' & out & Hcall & Hout & _).
  - repeat split.
  - split; [reflexivity | repeat constructor].
  - lia.
  - exists st', out. split; [exact Hcall | exact Hout].
Defined.

End NormMoreFacts.

(** * A cost function set by the user *)

Module CostSetterFacts.
Import NdArray Values Cost Chain CostSetter ChainFacts.
Local Open Scope nat_scope.

Section Custom.
Context {R : Type} `{Scalar R} {P : Type}.
Implicit Types (w : world R P).

(** X22: [bp_first] chooses its formula by the name of the loss, not by
    the function. After [set_cost_function_derivative(func)] without a
    name the loss is called "Custom Cost Function", and [bp_first] uses
    the general formula, minus [func(y, y_pred)] times
    [_root.derivative(y_pred)], whatever the root layer is; when the
    function is given the name "Log Likelihood", [bp_first] returns minus
    [func(y, y_pred)] divided by 4 and does not ask the root layer for its
    derivative. *)
Theorem X22_custom_cost_function_is_dispatched_by_name w (self r : nat)
    (me rt : layer R P) (c : cost_fields R)
    (func : option (list nat) -> value R -> value R
            -> option (list nat) * result (value R))
    (y y_pred : value R) :
  objects w !! self = Some me ->
  cost me = Some c ->
  _root me = Some r ->
  objects w !! r = Some rt ->
  r <> self ->
  (do! _ := set_cost_function_derivative self func None in bp_first self y y_pred) w
  = negated_gradient_times_derivative
      (mkCostFields "Custom Cost Function" func) (Some r) y y_pred
      (fst (set_cost_function_derivative self func None w)) /\
  (do! _ := set_cost_function_derivative self func (Some "Log Likelihood"%string) in
   bp_first self y y_pred) w
  = negated_gradient_over_4 (mkCostFields "Log Likelihood" func) y y_pred
      (fst (set_cost_function_derivative self func (Some "Log Likelihood"%string) w)).
Proof.
  intros Hself Hcost Hroot Hrt Hne.
  unfold ebind, set_cost_function_derivative. rewrite Hself, Hcost. cbn [fst].
  split.
  - rewrite (bp_first_with_root _ self r
               (set_cost me (Some (mkCostFields "Custom Cost Function" func)))
               (mkCostFields "Custom Cost Function" func) rt y y_pred).
    + cbn [_cost_function_name]. rewrite andb_false_r. reflexivity.
    + cbn [objects]. apply lookup_insert_eq.
    + reflexivity.
    + exact Hroot.
    + cbn [objects]. rewrite lookup_insert_ne by congruence. exact Hrt.
  - rewrite (bp_first_with_root _ self r
               (set_cost me (Some (mkCostFields "Log Likelihood" func)))
               (mkCostFields "Log Likelihood" func) rt y y_pred).
    + cbn [_cost_function_name]. rewrite andb_false_r. reflexivity.
    + cbn [objects]. apply lookup_insert_eq.
    + reflexivity.
    + exact Hroot.
    + cbn [objects]. rewrite lookup_insert_ne by congruence. exact Hrt.
Qed.

End Custom.

Import ChainExamples.

Lemma X22_custom_cost_function_is_dispatched_by_name_witness :
  (do! _ := set_cost_function_derivative 2 (without_class_state _mse) None in
   bp_first 2 y_target y_hat) rooted_chain
  = negated_gradient_times_derivative
      (mkCostFields "Custom Cost Function" (without_class_state _mse)) (Some 0)
      y_target y_hat
      (fst (set_cost_function_derivative 2 (without_class_state _mse) None rooted_chain)).
Proof.
  assert (objects rooted_chain !! 2 = Some (cost_object (Some 0))) as Hme
    by (vm_compute; reflexivity).
  assert (objects rooted_chain !! 0 = Some sigmoid_object) as Hrt
    by (vm_compute; reflexivity).
  apply (proj1 (X22_custom_cost_function_is_dispatched_by_name rooted_chain 2 0 _ _ _
                  (without_class_state _mse) y_target y_hat Hme eq_refl eq_refl Hrt
                  ltac:(discriminate))).
Defined.

End CostSetterFacts.
